(** * STM32 logic analyzer: the interrupt-based capture core

    A shallow embedding of [interrupt_based_analyzer/Core/Src/main.c]:
    the chained 32-bit timer read, the edge-interrupt callback with its
    event encoding, the single-producer/single-consumer ring buffer, the
    chunked USB transmitter of the main loop and the session stop.

    C unsigned integers are [Z] with the wrap-around written out
    ([u8], [u16], [u32]); arrays are lists read with [!!] and written
    with [<[ _ := _ ]>]; the main loop is a labelled machine whose
    labels are the line numbers of [main.c], preempted by the interrupt
    handler between any two of its steps. *)

From Stdlib Require Import ZArith Lia List.
From stdpp Require Import base list.
Import ListNotations.

Local Open Scope Z_scope.

(** ** Machine integers *)

Module Word.

Definition u8 (x : Z) : Z := x mod 2 ^ 8.
Definition u16 (x : Z) : Z := x mod 2 ^ 16.
Definition u32 (x : Z) : Z := x mod 2 ^ 32.

(** [x << n] on [uint32_t]. *)
Definition shl32 (x n : Z) : Z := u32 (Z.shiftl x n).

(** [x >> n] on [uint32_t]. *)
Definition shr32 (x n : Z) : Z := Z.shiftr x n.

End Word.
Import Word.

(** ** Constants of [main.c] (lines 48-51) *)

Definition EVENT_CHUNK_SIZE : Z := 16.
Definition USB_SEND_INTERVAL_MS : Z := 2.
Definition MAX_EVENTS : Z := 1024.
Definition EVENT_MASK : Z := MAX_EVENTS - 1.

(** ** What the HAL headers declare

    [main.h] and the HAL drivers are not part of the sources at hand.
    The pin masks are taken as parameters of the development; the two
    enumerations keep the names the code uses. *)

Class PinMasks := {
  GPIO_PIN_4 : Z;
  GPIO_PIN_5 : Z;
  GPIO_PIN_6 : Z;
  GPIO_PIN_7 : Z
}.

(** Modelled from the spec: the result type of [HAL_GPIO_ReadPin] is
    declared in the HAL; section 6 gives [read_pin_level] the two
    results high and low. *)
Inductive GPIO_PinState := GPIO_PIN_RESET | GPIO_PIN_SET.

(** Modelled from the spec: the result type of [CDC_Transmit_FS] is
    declared in the USB device library; section 6 gives [send] the two
    results ok and busy. *)
Inductive USBD_StatusTypeDef := USBD_OK | USBD_BUSY.

(** The two interrupt lines [MX_GPIO_Init] enables (lines 378-382). *)
Inductive IRQn_Type := EXTI4_IRQn | EXTI9_5_IRQn.

(** The masks [stm32f1xx_hal_gpio.h] gives the four pins, for worked
    examples. *)
Definition stm32f1_pins : PinMasks :=
  {| GPIO_PIN_4 := 0x0010; GPIO_PIN_5 := 0x0020;
     GPIO_PIN_6 := 0x0040; GPIO_PIN_7 := 0x0080 |}.

(** Modelled from the spec: the [MIN] macro is not defined in
    [main.c]; section 4.4 drains [min(chunk_size, occupancy())]. *)
Definition MIN (a b : Z) : Z := if a <? b then a else b.

#[global] Instance GPIO_PinState_eq_dec : EqDecision GPIO_PinState.
Proof. solve_decision. Defined.

#[global] Instance USBD_StatusTypeDef_eq_dec : EqDecision USBD_StatusTypeDef.
Proof. solve_decision. Defined.

#[global] Instance IRQn_Type_eq_dec : EqDecision IRQn_Type.
Proof. solve_decision. Defined.

(** ** TimeBase: [get_32bit_timer] (lines 75-87) *)

(** The values the two counter registers hold at the successive bus
    accesses of one call: [TIM3_CNT h 0] is what the first read of
    [TIM3->CNT] returns, [TIM2_CNT h 1] the read of [TIM2->CNT] after it,
    [TIM3_CNT h 2] the second read of [TIM3->CNT], and [TIM2_CNT h 3] the
    re-read of [TIM2->CNT], which the code performs only when the two high
    reads differ. *)
Record counters := Counters {
  TIM2_CNT : nat -> Z;
  TIM3_CNT : nat -> Z
}.

Definition get_32bit_timer (h : counters) : Z :=
  let high1 := u16 (TIM3_CNT h 0) in
  let low := u16 (TIM2_CNT h 1) in
  let high2 := u16 (TIM3_CNT h 2) in
  if negb (high1 =? high2) then
    let low := u16 (TIM2_CNT h 3) in
    let high1 := high2 in
    Z.lor (shl32 high1 16) low
  else
    Z.lor (shl32 high1 16) low.

(** An ideal chained pair: one 32-bit count [c k] at each access, of
    which TIM2 shows the low and TIM3 the high half. *)
Definition chained (c : nat -> Z) : counters :=
  {| TIM2_CNT := fun k => c k mod 2 ^ 16;
     TIM3_CNT := fun k => (c k / 2 ^ 16) mod 2 ^ 16 |}.

(** ** EdgeCapture: [HAL_GPIO_EXTI_Callback] (lines 97-118) *)

Record globals := Globals {
  write_index : Z;
  read_index : Z;
  event_buffer : list Z
}.

(** What an execution lets an observer see, in program order. *)
Inductive action :=
| Stored (data : Z)            (* lines 115-116 taken *)
| Dropped (data : Z)           (* the test of line 113 failed *)
| Popped (event : Z)           (* lines 185-186 *)
| Transmit (usb_packet : list Z) (r : USBD_StatusTypeDef)   (* line 194 *)
| LastSend (now : Z)           (* line 195 *)
| TimStop (tim : Z)            (* lines 202, 203 *)
| DisableIRQ (irq : IRQn_Type) (* lines 204, 205 *)
| WriteReset                   (* line 206 *)
| ReadReset.                   (* line 207 *)

Section EdgeCapture.
Context `{PinMasks}.

(** Lines 100-105; [None] is the final [else return]. *)
Definition channel_of_pin (GPIO_Pin : Z) : option Z :=
  if GPIO_Pin =? GPIO_PIN_4 then Some 0
  else if GPIO_Pin =? GPIO_PIN_5 then Some 1
  else if GPIO_Pin =? GPIO_PIN_6 then Some 2
  else if GPIO_Pin =? GPIO_PIN_7 then Some 3
  else None.

(** Line 109. *)
Definition edge_of (pin_state : GPIO_PinState) : Z :=
  if decide (pin_state = GPIO_PIN_SET) then 1 else 0.

(** Line 110. *)
Definition event_word (edge channel time : Z) : Z :=
  Z.lor (Z.lor (shl32 edge 31) (shl32 channel 29))
        (Z.land time 0x1FFFFFFF).

(** Lines 112-117. *)
Definition push (data : Z) (g : globals) : globals * list action :=
  let next_write := u32 (write_index g + 1) in
  if u32 (next_write - read_index g) <=? MAX_EVENTS then
    ({| write_index := next_write;
        read_index := read_index g;
        event_buffer :=
          <[ Z.to_nat (Z.land (write_index g) EVENT_MASK) := data ]>
            (event_buffer g) |},
     [Stored data])
  else (g, [Dropped data]).

Definition HAL_GPIO_EXTI_Callback
    (GPIO_Pin : Z) (h : counters) (pin_state : GPIO_PinState)
    (g : globals) : globals * list action :=
  match channel_of_pin GPIO_Pin with
  | None => (g, [])
  | Some channel =>
      let time := get_32bit_timer h in
      let edge := edge_of pin_state in
      let data := event_word edge channel time in
      push data g
  end.

End EdgeCapture.

(** ** Decoding an event word *)

Inductive direction := falling | rising.

(** Modelled from the spec: the decoder runs on the host and is not in
    the sources at hand; section 3 places the direction in bit 31
    (1 = rising), the channel in bits 30-29 and the timestamp in bits
    28-0. *)
Definition decode (w : Z) : direction * Z * Z :=
  (if Z.testbit w 31 then rising else falling,
   Z.land (Z.shiftr w 29) 3,
   Z.land w (2 ^ 29 - 1)).

Definition direction_of (pin_state : GPIO_PinState) : direction :=
  match pin_state with GPIO_PIN_SET => rising | GPIO_PIN_RESET => falling end.

(** ** The ring buffer as the consumer sees it *)

(** [write_index - read_index] on [uint32_t] (lines 113, 170). *)
Definition occupancy (g : globals) : Z :=
  u32 (write_index g - read_index g).

(** The cell of logical index [k]: [event_buffer[k & EVENT_MASK]]. *)
Definition slot (k : Z) : nat := Z.to_nat (Z.land k EVENT_MASK).

Definition load (g : globals) (k : Z) : Z :=
  default 0 (event_buffer g !! slot k).

(** The events stored and not yet consumed, oldest first. *)
Definition pending (g : globals) : list Z :=
  (fun k => load g (u32 (read_index g + k))) <$> seqZ 0 (occupancy g).

(** ** The main loop (lines 164-213) as a labelled machine *)

(** A label names the line of [main.c] the main loop executes next. *)
Inductive label :=
| L167   (* now = HAL_GetTick() *)
| L169   (* __disable_irq(); diff = write_index - read_index; __enable_irq() *)
| L174   (* the trigger test, to_send, the packet array, i = 0 *)
| L183   (* i < to_send *)
| L185   (* event = event_buffer[read_index & EVENT_MASK] *)
| L186   (* read_index++; the four bytes of lines 187-190; ++i *)
| L194   (* CDC_Transmit_FS(usb_packet, to_send * 4) == USBD_BUSY *)
| L195   (* last_usb_send_time = now *)
| L200   (* get_32bit_timer() >= (1UL << 29) *)
| L202   (* HAL_TIM_Base_Stop(&htim2) *)
| L203   (* HAL_TIM_Base_Stop(&htim3) *)
| L204   (* HAL_NVIC_DisableIRQ(EXTI4_IRQn) *)
| L205   (* HAL_NVIC_DisableIRQ(EXTI9_5_IRQn) *)
| L206   (* write_index = 0 *)
| L207.  (* read_index = 0 *)

#[global] Instance label_eq_dec : EqDecision label.
Proof. solve_decision. Defined.

Record machine := Machine {
  pc : label;
  mem : globals;
  tim2_run : bool;            (* TIM2 counting *)
  tim3_run : bool;            (* TIM3 counting *)
  nvic_exti4 : bool;          (* EXTI4_IRQn enabled in the NVIC *)
  nvic_exti9_5 : bool;        (* EXTI9_5_IRQn enabled in the NVIC *)
  now : Z;
  diff : Z;
  to_send : Z;
  i : Z;
  event : Z;
  usb_packet : list Z;
  last_usb_send_time : Z
}.

(** What the environment answers when the main loop asks. *)
Record input := Input {
  HAL_GetTick : Z;                        (* line 167 *)
  stack : nat -> Z;                       (* line 181: the fresh array *)
  CDC_Transmit_FS : USBD_StatusTypeDef;   (* line 194 *)
  TIM : counters                          (* line 200 *)
}.

(** The state [main] enters its loop with (lines 52-54, 136-158). *)
Definition boot : machine :=
  {| pc := L167;
     mem := {| write_index := 0; read_index := 0;
               event_buffer := replicate (Z.to_nat MAX_EVENTS) 0 |};
     tim2_run := true; tim3_run := true;
     nvic_exti4 := true; nvic_exti9_5 := true;
     now := 0; diff := 0; to_send := 0; i := 0; event := 0;
     usb_packet := []; last_usb_send_time := 0 |}.

(** Line 186: [read_index++]. *)
Definition consume (g : globals) : globals :=
  {| write_index := write_index g;
     read_index := u32 (read_index g + 1);
     event_buffer := event_buffer g |}.

(** Line 206: [write_index = 0]. *)
Definition reset_write (g : globals) : globals :=
  {| write_index := 0;
     read_index := read_index g;
     event_buffer := event_buffer g |}.

(** Line 207: [read_index = 0]. *)
Definition reset_read (g : globals) : globals :=
  {| write_index := write_index g;
     read_index := 0;
     event_buffer := event_buffer g |}.

(** Line 174. *)
Definition trigger (diff now last_usb_send_time : Z) : bool :=
  (EVENT_CHUNK_SIZE <=? diff)
  || (USB_SEND_INTERVAL_MS <=? u32 (now - last_usb_send_time)).

(** Lines 187-190: the four bytes of [event], at [i*4] and after. *)
Definition store_event (i event : Z) (usb_packet : list Z) : list Z :=
  let p0 := <[ Z.to_nat (u32 (u32 (i * 4) + 0)) :=
                 u8 (Z.land event 0xFF) ]> usb_packet in
  let p1 := <[ Z.to_nat (u32 (u32 (i * 4) + 1)) :=
                 u8 (Z.land (shr32 event 8) 0xFF) ]> p0 in
  let p2 := <[ Z.to_nat (u32 (u32 (i * 4) + 2)) :=
                 u8 (Z.land (shr32 event 16) 0xFF) ]> p1 in
  <[ Z.to_nat (u32 (u32 (i * 4) + 3)) :=
       u8 (Z.land (shr32 event 24) 0xFF) ]> p2.

(** The bytes [CDC_Transmit_FS(usb_packet, to_send * 4)] is handed:
    its length parameter is a [uint16_t]. *)
Definition handed (usb_packet : list Z) (to_send : Z) : list Z :=
  take (Z.to_nat (u16 (u32 (to_send * 4)))) usb_packet.

(** One step of the main loop. *)
Definition main_step (e : input) (m : machine) : machine * list action :=
  let 'Machine pc g t2 t3 e4 e95 now diff to_send i event pkt last := m in
  match pc with
  | L167 =>
      (Machine L169 g t2 t3 e4 e95 (u32 (HAL_GetTick e))
               diff to_send i event pkt last, [])
  | L169 =>
      (Machine L174 g t2 t3 e4 e95 now (occupancy g)
               to_send i event pkt last, [])
  | L174 =>
      if trigger diff now last then
        let to_send := MIN EVENT_CHUNK_SIZE diff in
        if 0 <? to_send then
          let pkt :=
            (fun k => u8 (stack e k))
              <$> seq 0 (Z.to_nat (u32 (to_send * 4))) in
          (Machine L183 g t2 t3 e4 e95 now diff to_send 0 event pkt last, [])
        else
          (Machine L200 g t2 t3 e4 e95 now diff to_send i event pkt last, [])
      else
        (Machine L200 g t2 t3 e4 e95 now diff to_send i event pkt last, [])
  | L183 =>
      if i <? to_send then
        (Machine L185 g t2 t3 e4 e95 now diff to_send i event pkt last, [])
      else
        (Machine L194 g t2 t3 e4 e95 now diff to_send i event pkt last, [])
  | L185 =>
      (Machine L186 g t2 t3 e4 e95 now diff to_send i
               (load g (read_index g)) pkt last, [])
  | L186 =>
      (Machine L183 (consume g) t2 t3 e4 e95 now diff to_send (u32 (i + 1))
               event (store_event i event pkt) last,
       [Popped event])
  | L194 =>
      let r := CDC_Transmit_FS e in
      (Machine (if decide (r = USBD_BUSY) then L194 else L195)
               g t2 t3 e4 e95 now diff to_send i event pkt last,
       [Transmit (handed pkt to_send) r])
  | L195 =>
      (Machine L200 g t2 t3 e4 e95 now diff to_send i event pkt now,
       [LastSend now])
  | L200 =>
      if 2 ^ 29 <=? get_32bit_timer (TIM e) then
        (Machine L202 g t2 t3 e4 e95 now diff to_send i event pkt last, [])
      else
        (Machine L167 g t2 t3 e4 e95 now diff to_send i event pkt last, [])
  | L202 =>
      (Machine L203 g false t3 e4 e95 now diff to_send i event pkt last,
       [TimStop 2])
  | L203 =>
      (Machine L204 g t2 false e4 e95 now diff to_send i event pkt last,
       [TimStop 3])
  | L204 =>
      (Machine L205 g t2 t3 false e95 now diff to_send i event pkt last,
       [DisableIRQ EXTI4_IRQn])
  | L205 =>
      (Machine L206 g t2 t3 e4 false now diff to_send i event pkt last,
       [DisableIRQ EXTI9_5_IRQn])
  | L206 =>
      (Machine L207 (reset_write g) t2 t3 e4 e95 now diff to_send i event
               pkt last,
       [WriteReset])
  | L207 =>
      (Machine L167 (reset_read g) t2 t3 e4 e95 now diff to_send i event
               pkt last,
       [ReadReset])
  end.

(** ** Interrupts *)

Definition irq_enabled (irq : IRQn_Type) (m : machine) : bool :=
  match irq with
  | EXTI4_IRQn => nvic_exti4 m
  | EXTI9_5_IRQn => nvic_exti9_5 m
  end.

(** What happens next: an edge raises an interrupt line, or the main
    loop executes the statement at its label. *)
Inductive event_t :=
| Irq (irq : IRQn_Type) (GPIO_Pin : Z) (h : counters)
      (pin_state : GPIO_PinState)
| Main (e : input).

Section Machine.
Context `{PinMasks}.

(** An edge on a line the NVIC has enabled runs the handler, whole,
    before the main loop goes on (the two lines share one priority, so
    handlers do not nest); on a disabled line nothing runs. The handlers
    of [stm32f1xx_it.c] are not among the sources: which pin the handler
    of a line passes to the callback is left open. *)
Definition step (ev : event_t) (m : machine) : machine * list action :=
  match ev with
  | Main e => main_step e m
  | Irq irq GPIO_Pin h pin_state =>
      if irq_enabled irq m then
        let '(g, tr) :=
          HAL_GPIO_EXTI_Callback GPIO_Pin h pin_state (mem m) in
        (Machine (pc m) g (tim2_run m) (tim3_run m)
                 (nvic_exti4 m) (nvic_exti9_5 m)
                 (now m) (diff m) (to_send m) (i m) (event m)
                 (usb_packet m) (last_usb_send_time m),
         tr)
      else (m, [])
  end.

Fixpoint run (evs : list event_t) (m : machine) : machine * list action :=
  match evs with
  | [] => (m, [])
  | ev :: evs =>
      let '(m1, t1) := step ev m in
      let '(m2, t2) := run evs m1 in
      (m2, t1 ++ t2)
  end.

(** The main loop running alone. *)
Definition main_run (es : list input) (m : machine) :=
  run (Main <$> es) m.

End Machine.

(** ** Reading a trace *)

Definition stored (tr : list action) : list Z :=
  omap (fun a => match a with Stored d => Some d | _ => None end) tr.

Definition dropped (tr : list action) : list Z :=
  omap (fun a => match a with Dropped d => Some d | _ => None end) tr.

Definition pushed (tr : list action) : list Z :=
  omap (fun a => match a with
                 | Stored d | Dropped d => Some d
                 | _ => None
                 end) tr.

Definition popped (tr : list action) : list Z :=
  omap (fun a => match a with Popped e => Some e | _ => None end) tr.

Definition transmits (tr : list action) : list (list Z * USBD_StatusTypeDef) :=
  omap (fun a => match a with Transmit p r => Some (p, r) | _ => None end) tr.

(** The little-endian encoding of a 32-bit word as section 6 names it,
    least significant byte first: what the bytes lines 187-190 write,
    [store_event], are compared with. *)
Definition le_bytes (w : Z) : list Z :=
  [ w mod 256; (w / 2 ^ 8) mod 256; (w / 2 ^ 16) mod 256;
    (w / 2 ^ 24) mod 256 ].

(** The wire packet of section 6 for a batch of events. *)
Definition serialize (events : list Z) : list Z :=
  mjoin (le_bytes <$> events).

(** ** Well-formed rings *)

Record ring_wf (g : globals) : Prop := RingWf {
  wf_length : length (event_buffer g) = Z.to_nat MAX_EVENTS;
  wf_write : 0 <= write_index g < 2 ^ 32;
  wf_read : 0 <= read_index g < 2 ^ 32;
  wf_occupancy : occupancy g <= MAX_EVENTS
}.

(** ** What holds of every state the machine reaches *)

#[global] Instance action_eq_dec : EqDecision action.
Proof. solve_decision. Defined.

(** Every packet handed to the transport is the serialisation of the
    events consumed last before the call, between one and
    [EVENT_CHUNK_SIZE] of them. *)
Definition wire_ok (tr : list action) : Prop :=
  forall t1 p r t2,
    tr = t1 ++ Transmit p r :: t2 ->
    exists chunk,
      chunk `suffix_of` popped t1
      /\ (0 < length chunk <= Z.to_nat EVENT_CHUNK_SIZE)%nat
      /\ p = serialize chunk.

(** Inside the [for] loop of lines 183-191: [i] events of this fire are
    consumed and serialised at the front of the packet, no more are left
    to consume than the ring holds. *)
Definition filling (m : machine) (tr : list action) : Prop :=
  0 <= i m <= to_send m
  /\ 0 < to_send m <= EVENT_CHUNK_SIZE
  /\ to_send m - i m <= occupancy (mem m)
  /\ exists chunk rest,
       chunk `suffix_of` popped tr
       /\ Z.of_nat (length chunk) = i m
       /\ usb_packet m = serialize chunk ++ rest
       /\ Z.of_nat (length rest) = 4 * (to_send m - i m).

(** Before the stop has reset [write_index]. *)
Definition at_label_live (m : machine) (tr : list action) : Prop :=
  match pc m with
  | L174 => 0 <= diff m <= occupancy (mem m)
  | L183 => filling m tr
  | L185 => filling m tr /\ i m < to_send m
  | L186 => filling m tr /\ i m < to_send m
            /\ event m = load (mem m) (read_index (mem m))
  | L194 => filling m tr /\ i m = to_send m
  | L205 => nvic_exti4 m = false
  | L206 => nvic_exti4 m = false /\ nvic_exti9_5 m = false
  | L207 => False
  | _ => True
  end.

(** After it. *)
Definition at_label_dead (m : machine) : Prop :=
  match pc m with
  | L174 => diff m = 0
  | L183 | L185 | L186 | L194 | L195 => False
  | _ => True
  end.

(** While the capture runs: the ring is well formed and holds, oldest
    first, exactly the stored events not yet consumed. *)
Record Live (m : machine) (tr : list action) : Prop := MkLive {
  live_write : WriteReset ∉ tr;
  live_read : ReadReset ∉ tr;
  live_ring : ring_wf (mem m);
  live_fifo : popped tr ++ pending (mem m) = stored tr;
  live_label : at_label_live m tr
}.

(** Once the stop has reset [write_index]: both lines are disabled and
    the cursors are 0, [read_index] from line 207 on. *)
Record Dead (m : machine) (tr : list action) : Prop := MkDead {
  dead_trace : WriteReset ∈ tr;
  dead_length : length (event_buffer (mem m)) = Z.to_nat MAX_EVENTS;
  dead_range : 0 <= read_index (mem m) < 2 ^ 32;
  dead_exti4 : nvic_exti4 m = false;
  dead_exti9_5 : nvic_exti9_5 m = false;
  dead_write : write_index (mem m) = 0;
  dead_read : read_index (mem m) = 0 \/ pc m = L207 /\ ReadReset ∉ tr;
  dead_prefix : popped tr `prefix_of` stored tr;
  dead_label : at_label_dead m
}.

Record Inv (m : machine) (tr : list action) : Prop := MkInv {
  inv_wire : wire_ok tr;
  inv_accepted :
    (length (pushed tr) <= Z.to_nat MAX_EVENTS)%nat -> dropped tr = [];
  inv_exti4 : nvic_exti4 m = false -> DisableIRQ EXTI4_IRQn ∈ tr;
  inv_exti9_5 : nvic_exti9_5 m = false -> DisableIRQ EXTI9_5_IRQn ∈ tr;
  inv_phase : Live m tr \/ Dead m tr
}.

(** The actions of the main loop that move no event and reset no
    cursor. *)
Definition marker (a : action) : Prop :=
  match a with
  | Transmit _ _ | LastSend _ | TimStop _ | DisableIRQ _ => True
  | _ => False
  end.

(** Linear arithmetic with the quotients and remainders spelled out. *)
Ltac zsolve := Z.div_mod_to_equations; lia.

(** ** Describing executions *)

(** What the transport answers to the successive steps of the main loop
    in [evs]. *)
Definition answers (evs : list event_t) : list USBD_StatusTypeDef :=
  omap (fun ev => match ev with
                  | Main e => Some (CDC_Transmit_FS e)
                  | Irq _ _ _ _ => None
                  end) evs.

(** The actions of the interrupt handler. *)
Definition is_push (a : action) : Prop :=
  match a with Stored _ | Dropped _ => True | _ => False end.

(** Each reset of a cursor comes after both interrupt lines were
    disabled. *)
Definition order_ok (tr : list action) : Prop :=
  forall t1 a t2,
    tr = t1 ++ a :: t2 ->
    a = WriteReset \/ a = ReadReset ->
    DisableIRQ EXTI4_IRQn ∈ t1 /\ DisableIRQ EXTI9_5_IRQn ∈ t1.

(** Both lines are disabled in the NVIC. *)
Definition irqs_off (m : machine) : Prop :=
  nvic_exti4 m = false /\ nvic_exti9_5 m = false.

(** The main loop is inside the stop sequence, before the resets. *)
Definition stopping (m : machine) : Prop :=
  match pc m with
  | L202 | L203 | L204 | L205 | L206 => True
  | _ => False
  end.

(** The actions through which an event leaves the ring or the device. *)
Definition is_delivery (a : action) : Prop :=
  match a with
  | Popped _ | Transmit _ _ | LastSend _ => True
  | _ => False
  end.

(** What the stop does, in order (lines 202-207). *)
Definition stop_actions : list action :=
  [ TimStop 2; TimStop 3; DisableIRQ EXTI4_IRQn; DisableIRQ EXTI9_5_IRQn;
    WriteReset; ReadReset ].

(** ** One pass of the loop body, run alone *)

(** The input [e] with the transport answering [r]. *)
Definition answering (r : USBD_StatusTypeDef) (e : input) : input :=
  {| HAL_GetTick := HAL_GetTick e; stack := stack e;
     CDC_Transmit_FS := r; TIM := TIM e |}.

(** How many events the pass that starts in [m] under [e] drains: the
    test of line 174 on the occupancy, then line 177. *)
Definition fire_size (e : input) (m : machine) : Z :=
  let d := occupancy (mem m) in
  if trigger d (u32 (HAL_GetTick e)) (last_usb_send_time m)
  then MIN EVENT_CHUNK_SIZE d else 0.

(** The inputs of one pass that drains [n] events with the transport
    busy [busy] times: lines 167, 169, 174; three steps per event and the
    exit test of the loop; the calls of line 194; lines 195 and 200. A
    pass that does not fire takes lines 167, 169, 174, 200. Each line
    reads its own field of [e], line 194 alone is repeated. *)
Definition pass_inputs (n : Z) (busy : nat) (e : input) : list input :=
  if 0 <? n then
    replicate 3 e
    ++ replicate (3 * Z.to_nat n + 1) e
    ++ replicate busy (answering USBD_BUSY e)
    ++ [answering USBD_OK e; e; e]
  else replicate 4 e.

(** What such a pass lets an observer see. *)
Definition pass_trace (chunk : list Z) (busy : nat) (now : Z) : list action :=
  match chunk with
  | [] => []
  | _ =>
      (Popped <$> chunk)
      ++ replicate busy (Transmit (serialize chunk) USBD_BUSY)
      ++ [Transmit (serialize chunk) USBD_OK; LastSend now]
  end.

(** ** Worked executions, on the pins of the STM32F1 board *)

Module Sample.

(** Counters that show the count [c] at every access. *)
Definition at_tick (c : Z) : counters := chained (fun _ => c).

(** An edge on channel 0 (pin 4) and one on channel 1 (pin 5). *)
Definition edge0 (c : Z) (s : GPIO_PinState) : event_t :=
  Irq EXTI4_IRQn 0x0010 (at_tick c) s.
Definition edge1 (c : Z) (s : GPIO_PinState) : event_t :=
  Irq EXTI9_5_IRQn 0x0020 (at_tick c) s.

(** What the main loop is answered: [ms] milliseconds, a stack full of
    0xAA, the transport answering [r], the timer at [c]. *)
Definition env (ms : Z) (r : USBD_StatusTypeDef) (c : Z) : input :=
  {| HAL_GetTick := ms; stack := fun _ => 0xAA;
     CDC_Transmit_FS := r; TIM := at_tick c |}.

Definition run := @run stm32f1_pins.

(** Two edges, then one pass of the main loop that sends them. *)
Definition capture : list event_t :=
  [edge0 1000 GPIO_PIN_SET; edge1 2000 GPIO_PIN_RESET]
  ++ (Main <$> replicate 12 (env 5 USBD_OK 3000)).

(** The same execution up to the first call of line 194. *)
Definition to_the_send : list event_t := take 12 capture.

(** Two busy answers, an edge in between, then ok. *)
Definition retries : list event_t :=
  [Main (env 5 USBD_BUSY 3000); edge0 3100 GPIO_PIN_RESET;
   Main (env 5 USBD_BUSY 3200); Main (env 5 USBD_OK 3300)].

(** One edge, then the main loop up to line 200 without firing. *)
Definition before_stop : list event_t :=
  [edge0 1000 GPIO_PIN_SET] ++ (Main <$> replicate 3 (env 0 USBD_OK 1000)).

(** The timer has reached [2^29]. *)
Definition late : input := env 0 USBD_OK (2 ^ 29).

(** The stop, then an edge and one more pass. *)
Definition after_stop : list event_t :=
  (Main <$> replicate 6 late)
  ++ [edge0 (2 ^ 29 + 5) GPIO_PIN_RESET]
  ++ (Main <$> replicate 4 (env 9 USBD_OK (2 ^ 29 + 9))).

(** Forty edges on channel 0, one tick apart. *)
Definition forty : list event_t :=
  (fun k => edge0 (1000 + k) GPIO_PIN_SET) <$> seqZ 0 40.

End Sample.


(** * More of [main.c]: provenance, capacity, the byte stream *)

(** A value of [uint32_t]. *)
Definition word32 (w : Z) : Prop := 0 <= w < 2 ^ 32.

(** An edge interrupt whose pin is one of the four channel pins. *)
Definition mapped_edge `{PinMasks} (ev : event_t) : Prop :=
  match ev with
  | Irq _ GPIO_Pin _ _ => is_Some (channel_of_pin GPIO_Pin)
  | Main _ => False
  end.

(** The main loop never reads a tick of [2^29] or more at line 200. *)
Definition below_threshold (ev : event_t) : Prop :=
  match ev with
  | Main e => get_32bit_timer (TIM e) < 2 ^ 29
  | Irq _ _ _ _ => True
  end.

(** The packets the transport accepted, in order. *)
Definition accepted (tr : list action) : list (list Z) :=
  omap (fun a => match a with
                 | Transmit p USBD_OK => Some p
                 | _ => None
                 end) tr.

(** The actions of the stop sequence. *)
Definition is_stop (a : action) : Prop :=
  match a with
  | TimStop _ | DisableIRQ _ | WriteReset | ReadReset => True
  | _ => False
  end.

(** The labels of one fire between the allocation of the packet and the
    accepted call: the [for] loop and the [while] loop (lines 183-194). *)
Definition in_fire (l : label) : bool :=
  match l with
  | L183 | L185 | L186 | L194 => true
  | _ => false
  end.

(** The accepted packets are the serialisation of the events consumed
    before the fire in progress, of which [i] events are consumed. *)
Definition stream_inv (m : machine) (tr : list action) : Prop :=
  exists done cur,
    popped tr = done ++ cur
    /\ mjoin (accepted tr) = serialize done
    /\ Z.of_nat (length cur) = (if in_fire (pc m) then i m else 0).

(** [fire] is what the trace [tr] holds since the last call of line 194
    that the transport accepted, or all of it when none was: [t0] is the
    trace up to and with that call. *)
Definition since_accept (tr t0 fire : list action) : Prop :=
  tr = t0 ++ fire
  /\ (t0 = [] \/ exists t0' p0, t0 = t0' ++ [Transmit p0 USBD_OK])
  /\ accepted fire = [].

(** The events consumed since the last accepted call are the [i] events
    of the fire in progress. *)
Definition fire_inv (m : machine) (tr : list action) : Prop :=
  exists t0 fire,
    since_accept tr t0 fire
    /\ Z.of_nat (length (popped fire)) = (if in_fire (pc m) then i m else 0).

(** Passes of the loop body run one after the other with no interrupt in
    between: pass by pass the input and how often the transport is
    busy. *)
Fixpoint passes `{PinMasks} (ps : list (input * nat)) (m : machine)
    : machine * list action :=
  match ps with
  | [] => (m, [])
  | (e, busy) :: ps =>
      let '(m1, t1) := main_run (pass_inputs (fire_size e m) busy e) m in
      let '(m2, t2) := passes ps m1 in
      (m2, t1 ++ t2)
  end.

(** ** More worked executions *)

Module Worked.

(** 1030 edges on channel 0 and no step of the main loop. *)
Definition flood : list event_t :=
  (fun k => Sample.edge0 k GPIO_PIN_SET) <$> seqZ 0 1030.

End Worked.

(** * Start-up: [main] before its loop (lines 136-158), [SystemClock_Config]
    (221-261), [MX_TIM2_Init] (268-306), [MX_TIM3_Init] (313-352),
    [MX_GPIO_Init] (359-387) and [Error_Handler] (397-406) *)

Module Startup.

(** The status a HAL function returns ([stm32f1xx_hal_def.h], not among
    the sources); [main.c] compares with [HAL_OK] only. *)
Inductive HAL_StatusTypeDef := HAL_OK | HAL_ERROR | HAL_BUSY | HAL_TIMEOUT.

#[global] Instance HAL_StatusTypeDef_eq_dec : EqDecision HAL_StatusTypeDef.
Proof. solve_decision. Defined.

Inductive timer := htim2 | htim3.

(** The calls made before the loop, each made once; of their arguments
    the ones that set the time base are kept. *)
Inductive call :=
| HAL_Init                                              (* line 136 *)
| HAL_RCC_OscConfig                                     (* line 237 *)
| HAL_RCC_ClockConfig                                   (* line 251 *)
| HAL_RCCEx_PeriphCLKConfig                             (* line 257 *)
| __HAL_RCC_GPIOD_CLK_ENABLE                            (* line 367 *)
| __HAL_RCC_GPIOA_CLK_ENABLE                            (* line 368 *)
| __HAL_RCC_GPIOB_CLK_ENABLE                            (* line 369 *)
| HAL_GPIO_Init                                         (* line 375 *)
| HAL_NVIC_SetPriority (irq : IRQn_Type)
    (PreemptPriority SubPriority : Z)                   (* lines 378, 381 *)
| HAL_NVIC_EnableIRQ (irq : IRQn_Type)                  (* lines 379, 382 *)
| HAL_TIM_Base_Init (htim : timer) (Prescaler Period : Z)  (* 287, 332 *)
| HAL_TIM_ConfigClockSource (htim : timer)              (* line 292 *)
| HAL_TIMEx_MasterConfigSynchronization (htim : timer)  (* 298, 344 *)
| HAL_TIM_SlaveConfigSynchro (htim : timer)             (* line 338 *)
| MX_USB_DEVICE_Init                                    (* line 152 *)
| HAL_TIM_Base_Start (htim : timer)                     (* lines 156, 157 *)
| __disable_irq.                                          (* line 401 *)

#[global] Instance timer_eq_dec : EqDecision timer.
Proof. solve_decision. Defined.
#[global] Instance call_eq_dec : EqDecision call.
Proof. solve_decision. Defined.

(** An edge on one of the lines: the interrupt it raises, and what the
    handler will pass and read. *)
Record edge := Edge {
  line : IRQn_Type;
  GPIO_Pin : Z;
  ticks : counters;
  pin_state : GPIO_PinState
}.

Definition Irq_of (x : edge) : event_t :=
  Irq (line x) (GPIO_Pin x) (ticks x) (pin_state x).

(** The globals of lines 52-54, the enable bits of the two lines in the
    NVIC, PRIMASK, whether the counters were started, and what an observer
    has seen: the calls made and the actions of the handler. *)
Record state := State {
  ram : globals;
  exti4 : bool;
  exti9_5 : bool;
  primask : bool;
  tim2 : bool;
  tim3 : bool;
  made : list call;
  log : list action
}.

(** After reset: the initialisers of lines 52-54, nothing enabled. *)
Definition reset : state :=
  {| ram := mem boot; exti4 := false; exti9_5 := false; primask := false;
     tim2 := false; tim3 := false; made := []; log := [] |}.

(** What the environment answers to a call: the edges that arrive until
    the next call, and the status returned. An edge on a line not yet
    enabled, which the NVIC would hold pending, counts here as an edge
    that arrives once the line is enabled. *)
Definition hal_env := call -> list edge * HAL_StatusTypeDef.

(** What a call does to the state, given the status [r] it returns. The
    HAL is not among the sources; modelled from the names of its
    functions: the two lines are enabled one by one, [__disable_irq] masks
    all interrupts (neither returns a status), and [HAL_TIM_Base_Start]
    has started the counter when it returns [HAL_OK] and has not when it
    returns another status. *)
Definition effect (c : call) (r : HAL_StatusTypeDef) (s : state) : state :=
  match c with
  | HAL_NVIC_EnableIRQ EXTI4_IRQn =>
      State (ram s) true (exti9_5 s) (primask s) (tim2 s) (tim3 s)
            (made s) (log s)
  | HAL_NVIC_EnableIRQ EXTI9_5_IRQn =>
      State (ram s) (exti4 s) true (primask s) (tim2 s) (tim3 s)
            (made s) (log s)
  | __disable_irq =>
      State (ram s) (exti4 s) (exti9_5 s) true (tim2 s) (tim3 s)
            (made s) (log s)
  | HAL_TIM_Base_Start htim2 =>
      State (ram s) (exti4 s) (exti9_5 s) (primask s)
            (if decide (r = HAL_OK) then true else tim2 s) (tim3 s)
            (made s) (log s)
  | HAL_TIM_Base_Start htim3 =>
      State (ram s) (exti4 s) (exti9_5 s) (primask s) (tim2 s)
            (if decide (r = HAL_OK) then true else tim3 s)
            (made s) (log s)
  | _ => s
  end.

Section Calls.
Context `{PinMasks}.

(** An edge is served when its line is enabled and interrupts are not
    masked: the handler runs whole, as in [step]. *)
Definition serve (s : state) (x : edge) : state :=
  if negb (primask s)
     && match line x with
        | EXTI4_IRQn => exti4 s
        | EXTI9_5_IRQn => exti9_5 s
        end
  then
    let '(g, tr) :=
      HAL_GPIO_EXTI_Callback (GPIO_Pin x) (ticks x) (pin_state x) (ram s) in
    State g (exti4 s) (exti9_5 s) (primask s) (tim2 s) (tim3 s)
          (made s) (log s ++ tr)
  else s.

(** The state after the call [c]: the call is recorded and takes effect,
    then the edges that arrive before the next call are served. *)
Definition after (hal : hal_env) (c : call) (s : state) : state :=
  foldl serve
    (effect c (snd (hal c))
       (State (ram s) (exti4 s) (exti9_5 s) (primask s) (tim2 s)
              (tim3 s) (made s ++ [c]) (log s)))
    (fst (hal c)).

(** Code that runs before the loop: from a state it returns, or never
    does ([None]: it hangs in [Error_Handler]). *)
Definition init (A : Type) : Type := hal_env -> state -> option A * state.

Definition ret {A} (a : A) : init A := fun _ s => (Some a, s).

Definition bind {A B} (m : init A) (f : A -> init B) : init B :=
  fun hal s =>
    match m hal s with
    | (Some a, s') => f a hal s'
    | (None, s') => (None, s')
    end.

Definition invoke (c : call) : init HAL_StatusTypeDef :=
  fun hal s => (Some (snd (hal c)), after hal c s).

(** [while (1) {}]. *)
Definition hang {A} : init A := fun _ s => (None, s).

Notation "x <- m ;; k" := (bind m (fun x => k))
  (at level 100, m at next level, right associativity).
Notation "m ;; k" := (bind m (fun _ => k))
  (at level 100, right associativity).

(** Lines 397-406. *)
Definition Error_Handler : init unit :=
  invoke __disable_irq ;; hang.

(** [if (c != HAL_OK) { Error_Handler(); }]. *)
Definition checked (c : call) : init unit :=
  r <- invoke c ;;
  if decide (r <> HAL_OK) then Error_Handler else ret tt.

(** Lines 221-261. *)
Definition SystemClock_Config : init unit :=
  checked HAL_RCC_OscConfig ;;
  checked HAL_RCC_ClockConfig ;;
  checked HAL_RCCEx_PeriphCLKConfig.

(** Lines 268-306. *)
Definition MX_TIM2_Init : init unit :=
  checked (HAL_TIM_Base_Init htim2 13 65535) ;;
  checked (HAL_TIM_ConfigClockSource htim2) ;;
  checked (HAL_TIMEx_MasterConfigSynchronization htim2).

(** Lines 313-352. *)
Definition MX_TIM3_Init : init unit :=
  checked (HAL_TIM_Base_Init htim3 0 65535) ;;
  checked (HAL_TIM_SlaveConfigSynchro htim3) ;;
  checked (HAL_TIMEx_MasterConfigSynchronization htim3).

(** Lines 359-387. *)
Definition MX_GPIO_Init : init unit :=
  invoke __HAL_RCC_GPIOD_CLK_ENABLE ;;
  invoke __HAL_RCC_GPIOA_CLK_ENABLE ;;
  invoke __HAL_RCC_GPIOB_CLK_ENABLE ;;
  invoke HAL_GPIO_Init ;;
  invoke (HAL_NVIC_SetPriority EXTI4_IRQn 0 0) ;;
  invoke (HAL_NVIC_EnableIRQ EXTI4_IRQn) ;;
  invoke (HAL_NVIC_SetPriority EXTI9_5_IRQn 0 0) ;;
  invoke (HAL_NVIC_EnableIRQ EXTI9_5_IRQn) ;;
  ret tt.

(** Lines 136-158 of [main]: the results of [HAL_Init] and of the two
    [HAL_TIM_Base_Start] are not looked at. *)
Definition main_init : init unit :=
  invoke HAL_Init ;;
  SystemClock_Config ;;
  MX_GPIO_Init ;;
  MX_TIM2_Init ;;
  invoke MX_USB_DEVICE_Init ;;
  MX_TIM3_Init ;;
  invoke (HAL_TIM_Base_Start htim2) ;;
  invoke (HAL_TIM_Base_Start htim3) ;;
  ret tt.

End Calls.

(** The state the loop is entered with: [last_usb_send_time = 0]
    (line 158), the locals of the loop body as [boot] has them. *)
Definition enter (s : state) : machine :=
  Machine L167 (ram s) (tim2 s) (tim3 s) (exti4 s) (exti9_5 s)
          0 0 0 0 0 [] 0.

(** The calls whose result is compared with [HAL_OK]. *)
Definition tested : list call :=
  [ HAL_RCC_OscConfig; HAL_RCC_ClockConfig; HAL_RCCEx_PeriphCLKConfig;
    HAL_TIM_Base_Init htim2 13 65535; HAL_TIM_ConfigClockSource htim2;
    HAL_TIMEx_MasterConfigSynchronization htim2;
    HAL_TIM_Base_Init htim3 0 65535; HAL_TIM_SlaveConfigSynchro htim3;
    HAL_TIMEx_MasterConfigSynchronization htim3 ].

(** The calls of a start-up in which no test fails, in order. *)
Definition all_calls : list call :=
  [ HAL_Init;
    HAL_RCC_OscConfig; HAL_RCC_ClockConfig; HAL_RCCEx_PeriphCLKConfig;
    __HAL_RCC_GPIOD_CLK_ENABLE; __HAL_RCC_GPIOA_CLK_ENABLE;
    __HAL_RCC_GPIOB_CLK_ENABLE; HAL_GPIO_Init;
    HAL_NVIC_SetPriority EXTI4_IRQn 0 0; HAL_NVIC_EnableIRQ EXTI4_IRQn;
    HAL_NVIC_SetPriority EXTI9_5_IRQn 0 0; HAL_NVIC_EnableIRQ EXTI9_5_IRQn;
    HAL_TIM_Base_Init htim2 13 65535; HAL_TIM_ConfigClockSource htim2;
    HAL_TIMEx_MasterConfigSynchronization htim2;
    MX_USB_DEVICE_Init;
    HAL_TIM_Base_Init htim3 0 65535; HAL_TIM_SlaveConfigSynchro htim3;
    HAL_TIMEx_MasterConfigSynchronization htim3;
    HAL_TIM_Base_Start htim2; HAL_TIM_Base_Start htim3 ].

(** The event is an edge that arrived during one of the calls made. *)
Definition arrived (hal : hal_env) (s : state) (ev : event_t) : Prop :=
  exists c x, c ∈ made s /\ x ∈ fst (hal c) /\ ev = Irq_of x.

(** What the handler has stored during the start-up is what interrupts
    alone, each an edge that arrived during a call, store from [boot]. *)
Definition reach `{PinMasks} (hal : hal_env) (s : state) : Prop :=
  exists evs,
    Forall (arrived hal s) evs
    /\ run evs boot
       = (Machine L167 (ram s) true true true true 0 0 0 0 0 [] 0, log s).

(** A start-up in which [bad] fails and every other call succeeds, with
    one edge on channel 0 during each call. *)
Definition failing (bad : call) : hal_env :=
  fun c =>
    ([Edge EXTI4_IRQn 0x0010 (Sample.at_tick 0) GPIO_PIN_SET],
     if decide (c = bad) then HAL_ERROR else HAL_OK).

End Startup.

(** * Properties *)

(** ** Machine integers *)

Lemma u32_range x : 0 <= u32 x < 2 ^ 32.
Proof. unfold u32. apply Z.mod_pos_bound. lia. Qed.

Lemma u16_range x : 0 <= u16 x < 2 ^ 16.
Proof. unfold u16. apply Z.mod_pos_bound. lia. Qed.

Lemma u8_range x : 0 <= u8 x < 2 ^ 8.
Proof. unfold u8. apply Z.mod_pos_bound. lia. Qed.

Lemma u32_small x : 0 <= x < 2 ^ 32 -> u32 x = x.
Proof. intros. unfold u32. apply Z.mod_small. lia. Qed.

Lemma u16_small x : 0 <= x < 2 ^ 16 -> u16 x = x.
Proof. intros. unfold u16. apply Z.mod_small. lia. Qed.

Lemma land_low_bits a b n :
  0 <= n -> 0 <= b < 2 ^ n -> Z.land (Z.shiftl a n) b = 0.
Proof.
  intros Hn Hb. apply Z.bits_inj'. intros k Hk.
  rewrite Z.land_spec, Z.bits_0.
  destruct (Z.lt_ge_cases k n) as [Hlt | Hge].
  - rewrite Z.shiftl_spec_low by lia. reflexivity.
  - rewrite <- (Z.mod_small b (2 ^ n)) by lia.
    rewrite Z.mod_pow2_bits_high by lia. apply andb_false_r.
Qed.

(** Or-ing a value below [2^n] into a word shifted left by [n] adds it. *)
Lemma lor_shiftl_add a b n :
  0 <= n -> 0 <= b < 2 ^ n -> Z.lor (Z.shiftl a n) b = a * 2 ^ n + b.
Proof.
  intros Hn Hb.
  rewrite <- Z.lxor_lor by (apply land_low_bits; lia).
  rewrite <- Z.add_nocarry_lxor by (apply land_low_bits; lia).
  rewrite Z.shiftl_mul_pow2 by lia. reflexivity.
Qed.

Lemma land_mask_mod x : Z.land x EVENT_MASK = x mod 1024.
Proof. change EVENT_MASK with (Z.ones 10). apply Z.land_ones. lia. Qed.

(** ** TimeBase *)

Lemma compose_hi_lo high low :
  0 <= high < 2 ^ 16 -> 0 <= low < 2 ^ 16 ->
  Z.lor (shl32 high 16) low = high * 2 ^ 16 + low.
Proof.
  intros Hh Hl. unfold shl32.
  rewrite u32_small.
  - apply lor_shiftl_add; lia.
  - rewrite Z.shiftl_mul_pow2 by lia. lia.
Qed.

Lemma get_32bit_timer_eq h :
  get_32bit_timer h =
    if decide (u16 (TIM3_CNT h 0) = u16 (TIM3_CNT h 2))
    then u16 (TIM3_CNT h 0) * 2 ^ 16 + u16 (TIM2_CNT h 1)
    else u16 (TIM3_CNT h 2) * 2 ^ 16 + u16 (TIM2_CNT h 3).
Proof.
  unfold get_32bit_timer.
  destruct (Z.eqb_spec (u16 (TIM3_CNT h 0)) (u16 (TIM3_CNT h 2))) as [E | N];
    cbn [negb]; case_decide; try contradiction;
    apply compose_hi_lo; apply u16_range.
Qed.

Lemma get_32bit_timer_range h : 0 <= get_32bit_timer h < 2 ^ 32.
Proof.
  rewrite get_32bit_timer_eq.
  pose proof (u16_range (TIM3_CNT h 0)). pose proof (u16_range (TIM3_CNT h 2)).
  pose proof (u16_range (TIM2_CNT h 1)). pose proof (u16_range (TIM2_CNT h 3)).
  case_decide; lia.
Qed.

(** C4. When the high counter has advanced by one between its two reads
    (the low counter wrapped in between), [get_32bit_timer] returns the
    second, post-wrap high word shifted by 16 or-ed with the re-read low
    word: its upper half is the post-wrap high word, its lower half the
    re-read low word, and it is no word whose upper half is the pre-wrap
    high word. When the two high reads agree it returns the high word
    shifted by 16 or-ed with the low word of the single read. *)
Theorem tick_composition (h : counters) :
  let high1 := u16 (TIM3_CNT h 0) in
  let high2 := u16 (TIM3_CNT h 2) in
  let low := u16 (TIM2_CNT h 1) in
  let reread := u16 (TIM2_CNT h 3) in
  (high2 = u16 (high1 + 1) ->
     get_32bit_timer h = Z.lor (Z.shiftl high2 16) reread
     /\ Z.shiftr (get_32bit_timer h) 16 = high2
     /\ Z.land (get_32bit_timer h) 0xFFFF = reread
     /\ forall torn_low, 0 <= torn_low < 2 ^ 16 ->
          get_32bit_timer h <> Z.lor (Z.shiftl high1 16) torn_low)
  /\ (high1 = high2 ->
        get_32bit_timer h = Z.lor (Z.shiftl high1 16) low).
Proof.
  intros high1 high2 low reread.
  pose proof (u16_range (TIM3_CNT h 0)) as H1.
  pose proof (u16_range (TIM3_CNT h 2)) as H2.
  pose proof (u16_range (TIM2_CNT h 1)) as HL.
  pose proof (u16_range (TIM2_CNT h 3)) as HR.
  fold high1 in H1. fold high2 in H2. fold low in HL. fold reread in HR.
  rewrite get_32bit_timer_eq. fold high1 high2 low reread.
  split.
  - intros Hw.
    assert (high1 <> high2) as Hne.
    { rewrite Hw. unfold u16. zsolve. }
    case_decide; [contradiction |].
    rewrite !lor_shiftl_add by lia.
    repeat split.
    + rewrite Z.shiftr_div_pow2 by lia. zsolve.
    + change 0xFFFF with (Z.ones 16). rewrite Z.land_ones by lia. zsolve.
    + intros torn_low Ht. rewrite lor_shiftl_add by lia. lia.
  - intros He. case_decide; [| contradiction].
    rewrite lor_shiftl_add by lia. reflexivity.
Qed.

(** A history with one wrap between the two high reads, and the value
    the call returns on it. *)
Lemma tick_composition_witness :
  let h := chained (fun k => 0x0003FFFE + Z.of_nat k) in
  u16 (TIM3_CNT h 2) = u16 (u16 (TIM3_CNT h 0) + 1)
  /\ get_32bit_timer h = 0x00040001.
Proof.
  intros h. split; [reflexivity |].
  destruct (tick_composition h) as [Hwrap _].
  destruct (Hwrap eq_refl) as [-> _]. reflexivity.
Defined.

(** On an ideal chained pair that wraps at most once during the call and
    not at all between the second high read and the re-read, the value
    returned is the 32-bit count of one single instant. *)
Lemma get_32bit_timer_snapshot (c : nat -> Z) :
  (forall k, c k <= c (S k)) ->
  c 2%nat - c 0%nat < 2 ^ 16 ->
  c 3%nat / 2 ^ 16 = c 2%nat / 2 ^ 16 ->
  get_32bit_timer (chained c) = u32 (c 1%nat)
  \/ get_32bit_timer (chained c) = u32 (c 3%nat).
Proof.
  intros Hmono Hone Hq.
  pose proof (Hmono 0%nat). pose proof (Hmono 1%nat). pose proof (Hmono 2%nat).
  rewrite get_32bit_timer_eq. cbn [chained TIM2_CNT TIM3_CNT].
  unfold u16, u32 in *. rewrite !Z.mod_mod by lia.
  case_decide as E; [left | right]; zsolve.
Qed.

(** ** EdgeCapture *)

Lemma event_word_eq edge channel time :
  0 <= edge <= 1 -> 0 <= channel <= 3 ->
  event_word edge channel time
  = (edge * 4 + channel) * 2 ^ 29 + time mod 2 ^ 29.
Proof.
  intros He Hc. unfold event_word.
  change 0x1FFFFFFF with (Z.ones 29). rewrite Z.land_ones by lia.
  assert (Z.lor (shl32 edge 31) (shl32 channel 29)
          = Z.shiftl (edge * 4 + channel) 29) as ->.
  { assert (edge = 0 \/ edge = 1) as [-> | ->] by lia;
      assert (channel = 0 \/ channel = 1 \/ channel = 2 \/ channel = 3)
        as [-> | [-> | [-> | ->]]] by lia; reflexivity. }
  apply lor_shiftl_add; [lia |]. apply Z.mod_pos_bound. lia.
Qed.

Lemma edge_of_range pin_state : 0 <= edge_of pin_state <= 1.
Proof. unfold edge_of. case_decide; lia. Qed.

Lemma event_word_range edge channel time :
  0 <= edge <= 1 -> 0 <= channel <= 3 ->
  0 <= event_word edge channel time < 2 ^ 32.
Proof. intros. rewrite event_word_eq by lia. zsolve. Qed.

(** C3. Encoding a direction, a channel in 0..3 and a timestamp below
    [2^29] as line 110 does, and reading bit 31, bits 30-29 and bits 28-0
    back, recovers the triple; the word fits 32 bits. *)
Theorem event_encoding_roundtrip
    (pin_state : GPIO_PinState) (channel time : Z) :
  0 <= channel <= 3 ->
  0 <= time < 2 ^ 29 ->
  let w := event_word (edge_of pin_state) channel time in
  decode w = (direction_of pin_state, channel, time)
  /\ 0 <= w < 2 ^ 32
  /\ Z.testbit w 31 = bool_decide (pin_state = GPIO_PIN_SET).
Proof.
  intros Hc Ht w.
  pose proof (edge_of_range pin_state) as He.
  assert (w = (edge_of pin_state * 4 + channel) * 2 ^ 29 + time) as Hw.
  { unfold w. rewrite event_word_eq by lia. rewrite Z.mod_small; lia. }
  assert (Z.testbit w 31 = bool_decide (pin_state = GPIO_PIN_SET)) as Hbit.
  { rewrite Z.testbit_odd, Z.shiftr_div_pow2 by lia. rewrite Hw.
    unfold edge_of.
    destruct pin_state; (case_decide; [try discriminate | try congruence]).
    - replace ((0 * 4 + channel) * 2 ^ 29 + time) with
        (channel * 2 ^ 29 + time) by lia.
      assert ((channel * 2 ^ 29 + time) / 2 ^ 31 = 0) as -> by zsolve.
      reflexivity.
    - assert (((1 * 4 + channel) * 2 ^ 29 + time) / 2 ^ 31 = 1) as ->
          by zsolve.
      reflexivity. }
  split; [| split; [lia | exact Hbit]].
  unfold decode. rewrite Hbit.
  change 3 with (Z.ones 2). change (2 ^ 29 - 1) with (Z.ones 29).
  rewrite !Z.land_ones, Z.shiftr_div_pow2 by lia.
  f_equal; [f_equal |].
  - destruct pin_state; reflexivity.
  - rewrite Hw. zsolve.
  - rewrite Hw. zsolve.
Qed.

Lemma event_encoding_roundtrip_witness :
  decode (event_word (edge_of GPIO_PIN_SET) 2 0x1ABCDEF)
  = (rising, 2, 0x1ABCDEF).
Proof.
  apply (event_encoding_roundtrip GPIO_PIN_SET 2 0x1ABCDEF); lia.
Defined.

(** C9. Called with a pin that is none of the four channel pins, the
    callback returns the globals it was given and does nothing an
    observer could see; the machine an interrupt with such a pin runs on
    keeps its write index, read index and buffer. *)
Theorem unmapped_pin_no_effect `{PinMasks}
    (GPIO_Pin : Z) (h : counters) (pin_state : GPIO_PinState)
    (g : globals) (irq : IRQn_Type) (m : machine) :
  GPIO_Pin <> GPIO_PIN_4 -> GPIO_Pin <> GPIO_PIN_5 ->
  GPIO_Pin <> GPIO_PIN_6 -> GPIO_Pin <> GPIO_PIN_7 ->
  HAL_GPIO_EXTI_Callback GPIO_Pin h pin_state g = (g, [])
  /\ step (Irq irq GPIO_Pin h pin_state) m = (m, []).
Proof.
  intros N4 N5 N6 N7.
  assert (channel_of_pin GPIO_Pin = None) as Hc.
  { unfold channel_of_pin.
    repeat match goal with
           | |- context [?a =? ?b] => destruct (Z.eqb_spec a b); [lia |]
           end.
    reflexivity. }
  assert (HAL_GPIO_EXTI_Callback GPIO_Pin h pin_state g = (g, [])) as Hg.
  { unfold HAL_GPIO_EXTI_Callback. rewrite Hc. reflexivity. }
  split; [exact Hg |].
  cbn [step]. destruct (irq_enabled irq m); [| reflexivity].
  unfold HAL_GPIO_EXTI_Callback. rewrite Hc. destruct m; reflexivity.
Qed.

Lemma unmapped_pin_no_effect_witness :
  let g := mem boot in
  let h := chained (fun _ => 0) in
  @HAL_GPIO_EXTI_Callback stm32f1_pins 0x0100 h GPIO_PIN_SET g = (g, [])
  /\ @step stm32f1_pins (Irq EXTI9_5_IRQn 0x0100 h GPIO_PIN_SET) boot
     = (boot, []).
Proof.
  intros g h.
  apply (@unmapped_pin_no_effect stm32f1_pins); cbn; lia.
Defined.

(** ** The ring buffer *)

Lemma slot_lt k : (slot k < Z.to_nat MAX_EVENTS)%nat.
Proof.
  unfold slot. rewrite land_mask_mod. unfold MAX_EVENTS.
  apply Z2Nat.inj_lt; zsolve.
Qed.

Lemma slot_eq_iff a b : slot a = slot b <-> a mod 1024 = b mod 1024.
Proof.
  unfold slot. rewrite !land_mask_mod. split.
  - intros E. apply Z2Nat.inj in E; zsolve.
  - intros ->. reflexivity.
Qed.

Lemma ring_wf_boot : ring_wf (mem boot).
Proof.
  split; cbn [boot mem write_index read_index event_buffer]; try lia.
  - apply length_replicate.
  - vm_compute. discriminate.
Qed.

Lemma occupancy_range g : 0 <= occupancy g < 2 ^ 32.
Proof. apply u32_range. Qed.

Lemma pending_length g : length (pending g) = Z.to_nat (occupancy g).
Proof. unfold pending. rewrite length_fmap, length_seqZ. reflexivity. Qed.

(** The test of line 113 passes exactly when the ring is not full. *)
Lemma push_test g :
  ring_wf g ->
  u32 (u32 (write_index g + 1) - read_index g) = occupancy g + 1.
Proof.
  intros [_ Hw Hr Ho]. unfold occupancy, MAX_EVENTS, u32 in *. zsolve.
Qed.

Lemma push_full g data :
  ring_wf g -> occupancy g = MAX_EVENTS ->
  push data g = (g, [Dropped data]).
Proof.
  intros Hwf Ho. unfold push. rewrite push_test by assumption.
  destruct (Z.leb_spec (occupancy g + 1) MAX_EVENTS); [lia | reflexivity].
Qed.

Lemma push_room g data :
  ring_wf g -> occupancy g < MAX_EVENTS ->
  exists g',
    push data g = (g', [Stored data])
    /\ ring_wf g'
    /\ read_index g' = read_index g
    /\ occupancy g' = occupancy g + 1
    /\ pending g' = pending g ++ [data]
    /\ (0 < occupancy g ->
        load g' (read_index g) = load g (read_index g)).
Proof.
  intros Hwf Ho. pose proof Hwf as [Hlen Hw Hr _].
  pose proof (occupancy_range g) as Hor.
  unfold push. rewrite push_test by assumption.
  destruct (Z.leb_spec (occupancy g + 1) MAX_EVENTS); [| lia].
  eexists. split; [reflexivity |].
  assert (occupancy
            {| write_index := u32 (write_index g + 1);
               read_index := read_index g;
               event_buffer :=
                 <[Z.to_nat (Z.land (write_index g) EVENT_MASK):=data]>
                   (event_buffer g) |} = occupancy g + 1) as Hocc.
  { unfold occupancy, MAX_EVENTS, u32 in *. cbn. zsolve. }
  split; [| split; [reflexivity | split; [exact Hocc | split]]].
  - split; cbn [write_index read_index event_buffer].
    + rewrite length_insert. exact Hlen.
    + apply u32_range.
    + exact Hr.
    + rewrite Hocc. lia.
  - unfold pending. rewrite Hocc.
    rewrite seqZ_app by lia. rewrite fmap_app. f_equal.
    + apply list_fmap_ext. intros j k Hk.
      apply lookup_seqZ in Hk as [-> Hj].
      unfold load. cbn [read_index event_buffer].
      rewrite list_lookup_insert_ne; [reflexivity |].
      fold (slot (write_index g)). rewrite slot_eq_iff.
      unfold occupancy, MAX_EVENTS, u32 in *. zsolve.
    + rewrite seqZ_cons, seqZ_nil by lia. cbn [fmap list_fmap].
      f_equal. unfold load. cbn [read_index event_buffer].
      fold (slot (write_index g)).
      assert (slot (u32 (read_index g + (0 + occupancy g)))
              = slot (write_index g)) as ->.
      { apply slot_eq_iff. unfold occupancy, MAX_EVENTS, u32 in *. zsolve. }
      rewrite list_lookup_insert_eq; [reflexivity |].
      rewrite Hlen. apply slot_lt.
  - intros Hpos. unfold load. cbn [event_buffer].
    rewrite list_lookup_insert_ne; [reflexivity |].
    fold (slot (write_index g)). rewrite slot_eq_iff.
    unfold occupancy, MAX_EVENTS, u32 in *. zsolve.
Qed.

Lemma consume_pending g :
  ring_wf g -> 0 < occupancy g ->
  ring_wf (consume g)
  /\ occupancy (consume g) = occupancy g - 1
  /\ pending g = load g (read_index g) :: pending (consume g).
Proof.
  intros [Hlen Hw Hr Ho] Hpos.
  assert (occupancy (consume g) = occupancy g - 1) as Hocc.
  { unfold occupancy, consume, MAX_EVENTS, u32 in *. cbn. zsolve. }
  split; [| split; [exact Hocc |]].
  - split; cbn [consume write_index read_index event_buffer]; try assumption.
    + apply u32_range.
    + fold (consume g). lia.
  - unfold pending. rewrite Hocc.
    rewrite (seqZ_cons 0 (occupancy g)) by lia. cbn [fmap list_fmap].
    f_equal.
    + f_equal. rewrite Z.add_0_r. apply u32_small. lia.
    + replace (Z.succ 0) with (1 + 0) by lia.
      rewrite <- fmap_add_seqZ, <- list_fmap_compose.
      replace (Z.pred (occupancy g)) with (occupancy g - 1) by lia.
      apply list_fmap_ext. intros j k Hk. cbn.
      unfold load. cbn [consume read_index event_buffer].
      f_equal. f_equal. apply slot_eq_iff. unfold u32. zsolve.
Qed.

(** ** Serialisation *)

Lemma le_bytes_length w : length (le_bytes w) = 4%nat.
Proof. reflexivity. Qed.

Lemma serialize_nil : serialize [] = [].
Proof. reflexivity. Qed.

Lemma serialize_app a b : serialize (a ++ b) = serialize a ++ serialize b.
Proof. unfold serialize. rewrite fmap_app. apply join_app. Qed.

Lemma serialize_cons w ws : serialize (w :: ws) = le_bytes w ++ serialize ws.
Proof. reflexivity. Qed.

Lemma serialize_length ws : length (serialize ws) = (4 * length ws)%nat.
Proof.
  induction ws as [| w ws IH]; [reflexivity |].
  rewrite serialize_cons, length_app, IH. cbn [length le_bytes]. lia.
Qed.

(** The four masked shifts of lines 187-190 are the four base-256 digits. *)
Lemma byte_of_shift event k :
  0 <= k ->
  u8 (Z.land (shr32 event k) 0xFF) = (event / 2 ^ k) mod 256.
Proof.
  intros Hk. unfold u8, shr32. change 0xFF with (Z.ones 8).
  rewrite Z.land_ones, Z.shiftr_div_pow2 by lia.
  rewrite Z.mod_mod by lia. reflexivity.
Qed.

Lemma byte_of_low event : u8 (Z.land event 0xFF) = event mod 256.
Proof.
  unfold u8. change 0xFF with (Z.ones 8). rewrite Z.land_ones by lia.
  rewrite Z.mod_mod by lia. reflexivity.
Qed.

Lemma store_event_app i event front rest :
  0 <= i < 2 ^ 29 ->
  Z.of_nat (length front) = 4 * i ->
  (4 <= length rest)%nat ->
  store_event i event (front ++ rest)
  = front ++ le_bytes event ++ drop 4 rest.
Proof.
  intros Hi Hf Hr.
  destruct rest as [| x0 [| x1 [| x2 [| x3 rest]]]]; cbn in Hr; try lia.
  unfold store_event.
  assert (forall k, 0 <= k < 4 ->
            Z.to_nat (u32 (u32 (i * 4) + k))
            = (length front + Z.to_nat k)%nat) as Hidx.
  { intros k Hk. rewrite (u32_small (i * 4)) by lia.
    rewrite u32_small by lia. lia. }
  rewrite !Hidx by lia. rewrite !insert_app_r.
  rewrite (byte_of_shift event 8), (byte_of_shift event 16),
    (byte_of_shift event 24), byte_of_low by lia.
  reflexivity.
Qed.

(** A 32-bit word is the value of its four bytes, least significant
    first. *)
Lemma le_bytes_value w :
  0 <= w < 2 ^ 32 ->
  match le_bytes w with
  | [b0; b1; b2; b3] => w = b0 + 2 ^ 8 * b1 + 2 ^ 16 * b2 + 2 ^ 24 * b3
  | _ => False
  end.
Proof.
  intros Hw. cbn [le_bytes].
  replace (w / 2 ^ 24) with (w / 256 / 256 / 256)
    by (rewrite !Z.div_div by lia; reflexivity).
  replace (w / 2 ^ 16) with (w / 256 / 256)
    by (rewrite !Z.div_div by lia; reflexivity).
  change (2 ^ 8) with 256. change (2 ^ 16) with 65536.
  change (2 ^ 24) with 16777216.
  pose proof (Z.div_mod w 256 ltac:(lia)).
  pose proof (Z.div_mod (w / 256) 256 ltac:(lia)).
  pose proof (Z.div_mod (w / 256 / 256) 256 ltac:(lia)).
  assert (0 <= w / 256 / 256 / 256 < 256) by zsolve.
  rewrite (Z.mod_small (w / 256 / 256 / 256)) by lia.
  lia.
Qed.

(** ** Traces *)

Lemma stored_app a b : stored (a ++ b) = stored a ++ stored b.
Proof. apply omap_app. Qed.

Lemma dropped_app a b : dropped (a ++ b) = dropped a ++ dropped b.
Proof. apply omap_app. Qed.

Lemma pushed_app a b : pushed (a ++ b) = pushed a ++ pushed b.
Proof. apply omap_app. Qed.

Lemma popped_app a b : popped (a ++ b) = popped a ++ popped b.
Proof. apply omap_app. Qed.

Lemma transmits_app a b : transmits (a ++ b) = transmits a ++ transmits b.
Proof. apply omap_app. Qed.

Lemma stored_le_pushed tr : (length (stored tr) <= length (pushed tr))%nat.
Proof.
  unfold stored, pushed.
  induction tr as [| a tr IH]; [reflexivity |].
  destruct a; cbn; try exact IH; lia.
Qed.

Lemma stored_sublist_pushed tr : stored tr `sublist_of` pushed tr.
Proof.
  unfold stored, pushed.
  induction tr as [| a tr IH]; [constructor |].
  destruct a; cbn; try exact IH.
  - apply sublist_skip. exact IH.
  - apply sublist_cons. exact IH.
Qed.

Lemma none_dropped tr : dropped tr = [] -> stored tr = pushed tr.
Proof.
  unfold stored, pushed, dropped.
  induction tr as [| a tr IH]; [reflexivity |].
  destruct a; cbn; intros Hd; try (apply IH; exact Hd).
  - f_equal. apply IH. exact Hd.
  - discriminate.
Qed.

Lemma snoc_split {A} (tr t1 t2 : list A) (a b : A) :
  tr ++ [a] = t1 ++ b :: t2 ->
  (t2 = [] /\ tr = t1 /\ a = b)
  \/ exists t2', t2 = t2' ++ [a] /\ tr = t1 ++ b :: t2'.
Proof.
  intros E. destruct t2 as [| x t2 _] using rev_ind.
  - left. apply app_inj_tail in E as [-> ->]. auto.
  - right. exists t2.
    change (t1 ++ b :: t2 ++ [x]) with (t1 ++ (b :: t2) ++ [x]) in E.
    rewrite app_assoc in E. apply app_inj_tail in E as [-> ->]. auto.
Qed.

Lemma not_in_snoc {A} (tr : list A) (a b : A) :
  a ∉ tr -> a <> b -> a ∉ tr ++ [b].
Proof.
  intros Hn Hne. rewrite elem_of_app, list_elem_of_singleton. tauto.
Qed.

Lemma in_snoc {A} (tr : list A) (a : A) : a ∈ tr ++ [a].
Proof. rewrite elem_of_app, list_elem_of_singleton. tauto. Qed.

Lemma in_snoc_l {A} (tr : list A) (a b : A) : a ∈ tr -> a ∈ tr ++ [b].
Proof. intros Hin. rewrite elem_of_app. tauto. Qed.

Lemma wire_ok_nil : wire_ok [].
Proof. intros [| ? ?] ? ? ? E; discriminate. Qed.

Lemma wire_ok_quiet tr a :
  wire_ok tr -> (forall p r, a <> Transmit p r) -> wire_ok (tr ++ [a]).
Proof.
  intros Hok Ha t1 p r t2 E.
  apply snoc_split in E as [(_ & _ & ->) | (t2' & _ & ->)].
  - exfalso. eapply Ha. reflexivity.
  - eapply Hok. reflexivity.
Qed.

Lemma wire_ok_transmit tr chunk r :
  wire_ok tr ->
  chunk `suffix_of` popped tr ->
  (0 < length chunk <= Z.to_nat EVENT_CHUNK_SIZE)%nat ->
  wire_ok (tr ++ [Transmit (serialize chunk) r]).
Proof.
  intros Hok Hs Hl t1 p r' t2 E.
  apply snoc_split in E as [(_ & -> & [= <- <-]) | (t2' & _ & ->)].
  - exists chunk. auto.
  - eapply Hok. reflexivity.
Qed.

(** ** The invariant of the machine *)

Lemma filling_intro m tr chunk rest :
  0 <= i m <= to_send m ->
  0 < to_send m <= EVENT_CHUNK_SIZE ->
  to_send m - i m <= occupancy (mem m) ->
  chunk `suffix_of` popped tr ->
  Z.of_nat (length chunk) = i m ->
  usb_packet m = serialize chunk ++ rest ->
  Z.of_nat (length rest) = 4 * (to_send m - i m) ->
  filling m tr.
Proof. unfold filling. eauto 10. Qed.

Lemma filling_frame m tr m' tr' :
  to_send m' = to_send m -> i m' = i m -> usb_packet m' = usb_packet m ->
  popped tr' = popped tr ->
  occupancy (mem m) <= occupancy (mem m') ->
  filling m tr -> filling m' tr'.
Proof.
  intros Ht Hi Hp Htr Hocc (? & ? & ? & chunk & rest & ? & ? & ? & ?).
  apply (filling_intro _ _ chunk rest); rewrite ?Ht, ?Hi, ?Hp, ?Htr;
    try assumption; lia.
Qed.

(** At line 194 the array holds the events of this fire, all of it is
    handed over. *)
Lemma wire_ok_handed m tr r :
  wire_ok tr -> filling m tr -> i m = to_send m ->
  wire_ok (tr ++ [Transmit (handed (usb_packet m) (to_send m)) r]).
Proof.
  intros Hwire (Hi & Hts & _ & chunk & rest & Hsuf & Hlen & Hpkt & Hrest) E.
  unfold EVENT_CHUNK_SIZE in *.
  assert (rest = []) as -> by (apply length_zero_iff_nil; lia).
  rewrite app_nil_r in Hpkt.
  assert (handed (usb_packet m) (to_send m) = serialize chunk) as ->.
  { unfold handed. rewrite Hpkt. apply take_ge.
    rewrite serialize_length.
    rewrite (u32_small (to_send m * 4)), u16_small by lia. lia. }
  apply wire_ok_transmit; try assumption. unfold EVENT_CHUNK_SIZE. lia.
Qed.

Lemma at_label_live_frame m tr m' tr' :
  pc m' = pc m -> diff m' = diff m -> to_send m' = to_send m ->
  i m' = i m -> event m' = event m -> usb_packet m' = usb_packet m ->
  nvic_exti4 m' = nvic_exti4 m -> nvic_exti9_5 m' = nvic_exti9_5 m ->
  popped tr' = popped tr ->
  occupancy (mem m) <= occupancy (mem m') ->
  (0 < occupancy (mem m) ->
   load (mem m') (read_index (mem m')) = load (mem m) (read_index (mem m))) ->
  at_label_live m tr -> at_label_live m' tr'.
Proof.
  intros Hpc Hd Ht Hi He Hp H4 H95 Htr Hocc Hload.
  unfold at_label_live, filling.
  rewrite Hpc, Hd, Ht, Hi, He, Hp, H4, H95, Htr.
  destruct (pc m); try tauto.
  - intros ?. lia.
  - intros (? & ? & ? & ?). repeat split; try lia; assumption.
  - intros ((? & ? & ? & ?) & ?). repeat split; try lia; assumption.
  - intros ((? & ? & ? & ?) & ? & Hev).
    repeat split; try lia; assumption.
  - intros ((? & ? & ? & ?) & ?). repeat split; try lia; assumption.
Qed.

Lemma Inv_boot : Inv boot [].
Proof.
  split.
  - apply wire_ok_nil.
  - reflexivity.
  - discriminate.
  - discriminate.
  - left. split.
    + apply not_elem_of_nil.
    + apply not_elem_of_nil.
    + apply ring_wf_boot.
    + reflexivity.
    + exact I.
Qed.

(** A step of the main loop that leaves the globals and the trace alone. *)
Lemma Inv_live_local m tr m' :
  Inv m tr -> Live m tr ->
  mem m' = mem m ->
  nvic_exti4 m' = nvic_exti4 m -> nvic_exti9_5 m' = nvic_exti9_5 m ->
  at_label_live m' tr ->
  Inv m' tr.
Proof.
  intros [Hwire Hacc H4 H95 _] [Hnw Hnr Hring Hfifo _] Hmem E4 E95 Hlab.
  split; try assumption.
  - rewrite E4. assumption.
  - rewrite E95. assumption.
  - left. split; try assumption; rewrite Hmem; assumption.
Qed.

Lemma Inv_dead_local m tr m' :
  Inv m tr -> Dead m tr ->
  mem m' = mem m ->
  nvic_exti4 m' = nvic_exti4 m -> nvic_exti9_5 m' = nvic_exti9_5 m ->
  pc m' <> L207 -> at_label_dead m' ->
  pc m <> L207 ->
  Inv m' tr.
Proof.
  intros [Hwire Hacc H4 H95 _] [Htr Hlen Hrng Hd4 Hd95 Hw0 Hr0 Hpre _]
    Hmem E4 E95 Hpc Hlab Hpc0.
  split; try assumption.
  - rewrite E4. assumption.
  - rewrite E95. assumption.
  - right. split; try assumption; rewrite ?Hmem, ?E4, ?E95; try assumption.
    left. destruct Hr0 as [? | [? _]]; [assumption | contradiction].
Qed.

Lemma popped_marker tr a : marker a -> popped (tr ++ [a]) = popped tr.
Proof.
  intros Ha. rewrite popped_app.
  destruct a; try contradiction; apply app_nil_r.
Qed.

Lemma stored_marker tr a : marker a -> stored (tr ++ [a]) = stored tr.
Proof.
  intros Ha. rewrite stored_app.
  destruct a; try contradiction; apply app_nil_r.
Qed.

Lemma pushed_marker tr a : marker a -> pushed (tr ++ [a]) = pushed tr.
Proof.
  intros Ha. rewrite pushed_app.
  destruct a; try contradiction; apply app_nil_r.
Qed.

Lemma dropped_marker tr a : marker a -> dropped (tr ++ [a]) = dropped tr.
Proof.
  intros Ha. rewrite dropped_app.
  destruct a; try contradiction; apply app_nil_r.
Qed.

Lemma Inv_live_marker m tr m' a :
  Inv m tr -> Live m tr -> marker a ->
  mem m' = mem m ->
  (nvic_exti4 m' = false ->
   nvic_exti4 m = false \/ a = DisableIRQ EXTI4_IRQn) ->
  (nvic_exti9_5 m' = false ->
   nvic_exti9_5 m = false \/ a = DisableIRQ EXTI9_5_IRQn) ->
  wire_ok (tr ++ [a]) ->
  at_label_live m' (tr ++ [a]) ->
  Inv m' (tr ++ [a]).
Proof.
  intros [Hwire Hacc H4 H95 _] [Hnw Hnr Hring Hfifo _] Ha Hmem E4 E95
    Hwire' Hlab.
  split.
  - exact Hwire'.
  - rewrite pushed_marker, dropped_marker by assumption. assumption.
  - intros E. destruct (E4 E) as [E' | ->]; [| apply in_snoc].
    apply in_snoc_l. auto.
  - intros E. destruct (E95 E) as [E' | ->]; [| apply in_snoc].
    apply in_snoc_l. auto.
  - left. split; try assumption.
    + apply not_in_snoc; [assumption |].
      destruct a; try contradiction; discriminate.
    + apply not_in_snoc; [assumption |].
      destruct a; try contradiction; discriminate.
    + rewrite Hmem. assumption.
    + rewrite popped_marker, stored_marker, Hmem by assumption. assumption.
Qed.

Lemma Inv_dead_marker m tr m' a :
  Inv m tr -> Dead m tr -> marker a ->
  mem m' = mem m ->
  (nvic_exti4 m' = false) -> (nvic_exti9_5 m' = false) ->
  pc m <> L207 -> at_label_dead m' ->
  wire_ok (tr ++ [a]) ->
  Inv m' (tr ++ [a]).
Proof.
  intros [Hwire Hacc H4 H95 _] [Htr Hlen Hrng Hd4 Hd95 Hw0 Hr0 Hpre _]
    Ha Hmem E4 E95 Hpc0 Hlab Hwire'.
  split.
  - exact Hwire'.
  - rewrite pushed_marker, dropped_marker by assumption. assumption.
  - intros _. apply in_snoc_l. auto.
  - intros _. apply in_snoc_l. auto.
  - right. split; rewrite ?Hmem; try assumption.
    + apply in_snoc_l. assumption.
    + left. destruct Hr0 as [? | [? _]]; [assumption | contradiction].
    + rewrite popped_marker, stored_marker by assumption. assumption.
Qed.

Lemma Inv_dead_reset m tr m' a :
  Inv m tr -> Dead m tr -> a = WriteReset \/ a = ReadReset ->
  event_buffer (mem m') = event_buffer (mem m) ->
  write_index (mem m') = 0 -> read_index (mem m') = 0 ->
  nvic_exti4 m' = false -> nvic_exti9_5 m' = false ->
  at_label_dead m' ->
  Inv m' (tr ++ [a]).
Proof.
  intros [Hwire Hacc H4 H95 _] [Htr Hlen Hrng Hd4 Hd95 Hw0 Hr0 Hpre _]
    Ha Hbuf Hw Hr E4 E95 Hlab.
  assert (popped (tr ++ [a]) = popped tr /\ stored (tr ++ [a]) = stored tr
          /\ pushed (tr ++ [a]) = pushed tr
          /\ dropped (tr ++ [a]) = dropped tr) as (Ep & Es & Eu & Ed).
  { rewrite popped_app, stored_app, pushed_app, dropped_app.
    destruct Ha as [-> | ->]; cbn; rewrite !app_nil_r; auto. }
  split.
  - apply wire_ok_quiet; [assumption |].
    destruct Ha as [-> | ->]; discriminate.
  - rewrite Eu, Ed. assumption.
  - intros _. apply in_snoc_l. auto.
  - intros _. apply in_snoc_l. auto.
  - right. split; try assumption.
    + apply in_snoc_l. assumption.
    + rewrite Hbuf. assumption.
    + rewrite Hr. lia.
    + left. assumption.
    + rewrite Ep, Es. assumption.
Qed.

Section Preservation.
Context `{PinMasks}.

Lemma irq_preserves irq GPIO_Pin h pin_state m tr m' t :
  Inv m tr ->
  step (Irq irq GPIO_Pin h pin_state) m = (m', t) ->
  Inv m' (tr ++ t).
Proof.
  intros [Hwire Hacc H4 H95 Hphase] Hstep. cbn [step] in Hstep.
  destruct (irq_enabled irq m) eqn:Hen.
  2:{ injection Hstep as <- <-. rewrite app_nil_r. split; assumption. }
  destruct Hphase as [[Hnw Hnr Hring Hfifo Hlab] | Hdead].
  2:{ destruct Hdead. destruct irq; cbn in Hen; congruence. }
  unfold HAL_GPIO_EXTI_Callback in Hstep.
  destruct (channel_of_pin GPIO_Pin) as [channel |].
  2:{ injection Hstep as <- <-. rewrite app_nil_r.
      destruct m. split; try assumption. left. split; assumption. }
  set (data := event_word _ _ _) in Hstep.
  pose proof (wf_occupancy _ Hring) as Hle.
  destruct (Z.eq_dec (occupancy (mem m)) MAX_EVENTS) as [Hfull | Hroom].
  - rewrite (push_full _ _ Hring Hfull) in Hstep.
    injection Hstep as <- <-.
    assert (length (stored tr) = Z.to_nat MAX_EVENTS
            + length (popped tr))%nat as Hst.
    { rewrite <- Hfifo, length_app, pending_length, Hfull. lia. }
    pose proof (stored_le_pushed tr) as Hsp.
    split; cbn [nvic_exti4 nvic_exti9_5].
    + apply wire_ok_quiet; [assumption | discriminate].
    + rewrite pushed_app, length_app. cbn. lia.
    + intros E. apply elem_of_app. left. apply H4.
      destruct m; exact E.
    + intros E. apply elem_of_app. left. apply H95.
      destruct m; exact E.
    + left. split; cbn [mem].
      * apply not_in_snoc; [assumption | discriminate].
      * apply not_in_snoc; [assumption | discriminate].
      * assumption.
      * rewrite popped_app, stored_app. cbn. rewrite !app_nil_r.
        assumption.
      * eapply at_label_live_frame; [..| exact Hlab];
          try reflexivity; try lia.
        rewrite popped_app. cbn. apply app_nil_r.
  - destruct (push_room (mem m) data Hring ltac:(lia))
      as (g' & Hpush & Hwf' & Hrd & Hocc & Hpend & Hload).
    rewrite Hpush in Hstep. injection Hstep as <- <-.
    split; cbn [nvic_exti4 nvic_exti9_5].
    + apply wire_ok_quiet; [assumption | discriminate].
    + rewrite pushed_app, length_app, dropped_app. cbn.
      intros Hl. rewrite Hacc by lia. reflexivity.
    + intros E. apply elem_of_app. left. apply H4. exact E.
    + intros E. apply elem_of_app. left. apply H95. exact E.
    + left. split; cbn [mem].
      * apply not_in_snoc; [assumption | discriminate].
      * apply not_in_snoc; [assumption | discriminate].
      * assumption.
      * rewrite popped_app, stored_app. cbn. rewrite app_nil_r.
        rewrite Hpend, app_assoc, Hfifo. reflexivity.
      * eapply at_label_live_frame; [..| exact Hlab];
          try reflexivity; cbn [mem]; try lia.
        -- rewrite popped_app. cbn. apply app_nil_r.
        -- rewrite Hrd. exact Hload.
Qed.

Lemma main_preserves e m tr m' t :
  Inv m tr -> main_step e m = (m', t) -> Inv m' (tr ++ t).
Proof.
  intros HI Hstep.
  pose proof HI as [Hwire Hacc H4 H95 _].
  destruct (inv_phase _ _ HI) as [HL | HD].
  - (* the capture runs *)
    pose proof HL as [Hnw Hnr Hring Hfifo Hlab].
    destruct m as [lbl g t2 t3 e4 e95 nw df ts ix ev pkt last].
    unfold at_label_live in Hlab.
    cbn [pc mem nvic_exti4 nvic_exti9_5 diff] in *.
    pose proof (occupancy_range g) as Hocc.
    destruct lbl; cbn [main_step] in Hstep.
    all: repeat match type of Hstep with
           | context [if ?c then _ else _] => destruct c eqn:?
           end.
    all: injection Hstep as <- <-; rewrite ?app_nil_r.
    all: try (eapply Inv_live_local;
              [exact HI | exact HL | reflexivity ..| ];
              unfold at_label_live; cbn; try exact I).
    all: try (eapply Inv_live_marker;
              [exact HI | exact HL | exact I | reflexivity
              | cbn; auto | cbn; auto
              | try (apply wire_ok_quiet; [assumption | discriminate]) | ];
              unfold at_label_live; cbn; try exact I).
    + (* line 169 *) lia.
    + (* line 174, the packet is allocated *)
      unfold EVENT_CHUNK_SIZE in *.
      assert (0 < MIN 16 df <= 16 /\ MIN 16 df <= df) as [Hts Hle].
      { unfold MIN in *. destruct (16 <? df) eqn:E; lia. }
      apply (filling_intro _ _ []
               ((fun k => u8 (stack e k))
                  <$> seq 0 (Z.to_nat (u32 (MIN 16 df * 4)))));
        cbn [i to_send mem usb_packet];
        unfold EVENT_CHUNK_SIZE; try lia;
        first [ apply suffix_nil
              | reflexivity
              | rewrite length_fmap, length_seq, u32_small by lia; lia ].
    + (* line 183, into the body *)
      split; [exact Hlab | lia].
    + (* line 183, out of the loop *)
      split; [exact Hlab |]. destruct Hlab as [? _]. cbn in *. lia.
    + (* line 185 *)
      destruct Hlab as [Hf Hlt].
      split; [exact Hf | split; [exact Hlt | reflexivity]].
    + (* line 186 *)
      destruct Hlab as [(Hi & Hts & Hle & chunk & rest & Hsuf & Hlen
                         & Hpkt & Hrest) [Hlt Hev]].
      cbn [i to_send event mem usb_packet] in *.
      unfold EVENT_CHUNK_SIZE in Hts.
      destruct (consume_pending g Hring ltac:(lia))
        as (Hring' & Hocc' & Hpend).
      split; cbn [nvic_exti4 nvic_exti9_5].
      * apply wire_ok_quiet; [assumption | discriminate].
      * rewrite pushed_app, dropped_app. cbn. rewrite !app_nil_r.
        assumption.
      * intros E. apply in_snoc_l. auto.
      * intros E. apply in_snoc_l. auto.
      * left. split; cbn [mem].
        -- apply not_in_snoc; [assumption | discriminate].
        -- apply not_in_snoc; [assumption | discriminate].
        -- assumption.
        -- rewrite popped_app, stored_app. cbn. rewrite app_nil_r.
           rewrite <- app_assoc. cbn. rewrite Hev, <- Hpend. assumption.
        -- unfold at_label_live. cbn [pc].
           eapply (filling_intro _ _ (chunk ++ [ev]) (drop 4 rest));
             cbn [i to_send mem usb_packet];
             rewrite ?(u32_small (ix + 1)) by lia;
             unfold EVENT_CHUNK_SIZE; try lia.
           ++ rewrite popped_app. cbn. apply suffix_app. assumption.
           ++ rewrite length_app. cbn. lia.
           ++ rewrite Hpkt, store_event_app.
              ** rewrite serialize_app, <- app_assoc. reflexivity.
              ** lia.
              ** rewrite serialize_length. lia.
              ** lia.
           ++ rewrite length_drop. lia.
    + (* line 194, the transport is busy *)
      apply (wire_ok_handed _ _ _ Hwire (proj1 Hlab) (proj2 Hlab)).
    + split; [| apply Hlab].
      eapply filling_frame; [..| apply Hlab]; try reflexivity.
      rewrite popped_app. apply app_nil_r.
    + (* line 194, the packet is accepted *)
      apply (wire_ok_handed _ _ _ Hwire (proj1 Hlab) (proj2 Hlab)).
    + (* line 204 *) reflexivity.
    + (* line 205 *) auto.
    + (* line 206 *)
      destruct Hlab as [-> ->]. destruct Hring as [Hlen _ Hrd _].
      split; cbn [nvic_exti4 nvic_exti9_5].
      * apply wire_ok_quiet; [assumption | discriminate].
      * rewrite pushed_app, dropped_app. cbn. rewrite !app_nil_r.
        assumption.
      * intros _. apply in_snoc_l. auto.
      * intros _. apply in_snoc_l. auto.
      * right. split; cbn [mem pc reset_write event_buffer read_index
                             write_index nvic_exti4 nvic_exti9_5];
          try assumption; try reflexivity.
        all: first
               [ apply in_snoc
               | right; split; [reflexivity |];
                 apply not_in_snoc; [assumption | discriminate]
               | rewrite popped_app, stored_app; cbn; rewrite !app_nil_r;
                 exists (pending g); symmetry; assumption
               | exact I ].
    + (* line 207 *) contradiction.
  - (* the capture is stopped *)
    pose proof HD as [Htr Hlen Hrng Hd4 Hd95 Hw0 Hr0 Hpre Hlab].
    destruct m as [lbl g t2 t3 e4 e95 nw df ts ix ev pkt last].
    unfold at_label_dead in Hlab.
    cbn [pc mem nvic_exti4 nvic_exti9_5 diff] in *.
    destruct lbl; try contradiction; cbn [main_step] in Hstep.
    all: repeat match type of Hstep with
           | context [if ?c then _ else _] => destruct c eqn:?
           end.
    all: injection Hstep as <- <-; rewrite ?app_nil_r.
    all: try (eapply Inv_dead_local;
              [exact HI | exact HD | reflexivity | reflexivity | reflexivity
              | cbn; discriminate | unfold at_label_dead; cbn; try exact I
              | cbn; discriminate ]).
    all: try (eapply Inv_dead_marker;
              [exact HI | exact HD | exact I | reflexivity
              | cbn; auto | cbn; auto | cbn; discriminate
              | exact I
              | apply wire_ok_quiet; [assumption | discriminate] ]).
    + (* line 169 *)
      destruct Hr0 as [Hr0 | [? _]]; [| discriminate].
      unfold occupancy. rewrite Hw0, Hr0. reflexivity.
    + (* line 174, nothing to send *)
      subst df. discriminate.
    + (* line 206 *)
      destruct Hr0 as [Hr0 | [? _]]; [| discriminate].
      eapply Inv_dead_reset; [exact HI | exact HD | auto | ..];
        cbn; auto.
    + (* line 207 *)
      eapply Inv_dead_reset; [exact HI | exact HD | auto | ..];
        cbn; auto.
Qed.

Lemma step_preserves ev m tr m' t :
  Inv m tr -> step ev m = (m', t) -> Inv m' (tr ++ t).
Proof.
  destruct ev as [irq GPIO_Pin h pin_state | e].
  - apply irq_preserves.
  - apply main_preserves.
Qed.

Lemma run_app evs1 evs2 m :
  run (evs1 ++ evs2) m
  = let '(m1, t1) := run evs1 m in
    let '(m2, t2) := run evs2 m1 in
    (m2, t1 ++ t2).
Proof.
  revert m. induction evs1 as [| ev evs1 IH]; intros m; cbn [run app].
  - destruct (run evs2 m). reflexivity.
  - destruct (step ev m) as [m1 t1]. rewrite IH.
    destruct (run evs1 m1) as [m2 t2]. destruct (run evs2 m2) as [m3 t3].
    rewrite app_assoc. reflexivity.
Qed.

Lemma run_preserves evs m tr m' t :
  Inv m tr -> run evs m = (m', t) -> Inv m' (tr ++ t).
Proof.
  revert m tr m' t.
  induction evs as [| ev evs IH]; intros m tr m' t HI Hrun; cbn [run] in Hrun.
  - injection Hrun as <- <-. rewrite app_nil_r. assumption.
  - destruct (step ev m) as [m1 t1] eqn:Hstep.
    destruct (run evs m1) as [m2 t2] eqn:Hrest.
    injection Hrun as <- <-. rewrite app_assoc.
    eapply IH; [| exact Hrest]. eapply step_preserves; eassumption.
Qed.

(** Every state reached from boot satisfies the invariant. *)
Lemma reachable_Inv evs m tr : run evs boot = (m, tr) -> Inv m tr.
Proof.
  intros Hrun. change tr with ([] ++ tr).
  eapply run_preserves; [apply Inv_boot | exact Hrun].
Qed.

End Preservation.

Lemma Inv_prefix m tr : Inv m tr -> popped tr `prefix_of` stored tr.
Proof.
  intros [_ _ _ _ [[_ _ _ Hfifo _] | HD]].
  - exists (pending (mem m)). symmetry. assumption.
  - apply HD.
Qed.

Lemma Inv_occupancy m tr :
  Inv m tr -> pc m <> L207 -> 0 <= occupancy (mem m) <= MAX_EVENTS.
Proof.
  intros [_ _ _ _ [[_ _ Hring _ _] | HD]] Hpc.
  - pose proof (occupancy_range (mem m)). destruct Hring. lia.
  - destruct HD as [_ _ _ _ _ Hw [Hr | [? _]] _ _]; [| contradiction].
    unfold occupancy. rewrite Hw, Hr. vm_compute. split; discriminate.
Qed.

Lemma serialize_group chunk k w :
  chunk !! k = Some w ->
  take 4 (drop (4 * k) (serialize chunk)) = le_bytes w.
Proof.
  revert k. induction chunk as [| x chunk IH]; intros k Hk; [discriminate |].
  destruct k as [| k].
  - injection Hk as ->. reflexivity.
  - cbn [lookup list_lookup] in Hk.
    replace (4 * S k)%nat with (4 + 4 * k)%nat by lia.
    rewrite serialize_cons. cbn [le_bytes app drop Nat.add].
    apply IH. exact Hk.
Qed.

(** ** The ring buffer between interrupt and main loop *)

(** C1. In every execution from boot, under any interleaving of edge
    interrupts with the steps of the main loop: the words stored are a
    subsequence of the words pushed, in push order; the words the
    consumer has popped are the first of the words stored, in the order
    they were stored; until the stop resets the cursors, the popped words
    followed by the words still pending in the ring are exactly the words
    stored; and when no more than 1024 pushes were attempted, every one of
    them was stored. *)
Theorem fifo_order `{PinMasks} (evs : list event_t) (m : machine)
    (tr : list action) :
  run evs boot = (m, tr) ->
  stored tr `sublist_of` pushed tr
  /\ popped tr `prefix_of` stored tr
  /\ (WriteReset ∉ tr -> popped tr ++ pending (mem m) = stored tr)
  /\ ((length (pushed tr) <= Z.to_nat MAX_EVENTS)%nat ->
      stored tr = pushed tr).
Proof.
  intros Hrun. pose proof (reachable_Inv _ _ _ Hrun) as HI.
  split; [apply stored_sublist_pushed |].
  split; [eapply Inv_prefix; eassumption |].
  split.
  - intros Hnw. destruct (inv_phase _ _ HI) as [HL | HD].
    + apply HL.
    + destruct HD. contradiction.
  - intros Hn. apply none_dropped. apply (inv_accepted _ _ HI Hn).
Qed.

(** C2. In every state reached from boot by interrupts and steps of the
    main loop, as long as the stop has not reset [write_index], the
    unsigned difference of the cursors is between 0 and 1024; it is so
    after the stop too, except between its two assignments (lines 206 and
    207); a push whose test of line 113 fails leaves the globals as they
    were; and on a full ring the callback stores nothing, whatever the
    pin. *)
Theorem occupancy_bound `{PinMasks} (evs : list event_t) (m : machine)
    (tr : list action) :
  run evs boot = (m, tr) ->
  (WriteReset ∉ tr -> 0 <= occupancy (mem m) <= MAX_EVENTS)
  /\ (pc m <> L207 -> 0 <= occupancy (mem m) <= MAX_EVENTS)
  /\ (forall g data,
        MAX_EVENTS < u32 (u32 (write_index g + 1) - read_index g) ->
        push data g = (g, [Dropped data]))
  /\ (pc m <> L207 -> occupancy (mem m) = MAX_EVENTS ->
      forall GPIO_Pin h pin_state,
        fst (HAL_GPIO_EXTI_Callback GPIO_Pin h pin_state (mem m)) = mem m
        /\ stored (snd (HAL_GPIO_EXTI_Callback GPIO_Pin h pin_state (mem m)))
           = []).
Proof.
  intros Hrun. pose proof (reachable_Inv _ _ _ Hrun) as HI.
  split.
  { intros Hnw. apply (Inv_occupancy _ _ HI).
    destruct (inv_phase _ _ HI) as [HL | HD].
    - intros E. pose proof (live_label _ _ HL) as Hlab.
      unfold at_label_live in Hlab. rewrite E in Hlab. exact Hlab.
    - destruct HD. contradiction. }
  split; [apply (Inv_occupancy _ _ HI) |]. split.
  - intros g data Hfull. unfold push.
    destruct (Z.leb_spec (u32 (u32 (write_index g + 1) - read_index g))
                MAX_EVENTS); [lia | reflexivity].
  - intros Hpc Hfull GPIO_Pin h pin_state.
    unfold HAL_GPIO_EXTI_Callback.
    destruct (channel_of_pin GPIO_Pin); [| split; reflexivity].
    destruct (inv_phase _ _ HI) as [HL | HD].
    + rewrite push_full; [split; reflexivity | apply HL | assumption].
    + destruct HD as [_ _ _ _ _ Hw [Hr | [? _]] _ _]; [| contradiction].
      unfold occupancy in Hfull. rewrite Hw, Hr in Hfull.
      vm_compute in Hfull. discriminate.
Qed.

(** ** The retry loop of line 194 *)

Section Retry.
Context `{PinMasks}.

(** The handler only touches the globals, and only stores or drops. *)
Lemma irq_frame irq GPIO_Pin h pin_state m m' t :
  step (Irq irq GPIO_Pin h pin_state) m = (m', t) ->
  pc m' = pc m /\ now m' = now m /\ diff m' = diff m
  /\ to_send m' = to_send m /\ i m' = i m /\ event m' = event m
  /\ usb_packet m' = usb_packet m
  /\ last_usb_send_time m' = last_usb_send_time m
  /\ nvic_exti4 m' = nvic_exti4 m /\ nvic_exti9_5 m' = nvic_exti9_5 m
  /\ Forall is_push t.
Proof.
  cbn [step]. destruct (irq_enabled irq m).
  - destruct (HAL_GPIO_EXTI_Callback GPIO_Pin h pin_state (mem m))
      as [g tr] eqn:Hcb.
    intros [= <- <-]. cbn. repeat split.
    unfold HAL_GPIO_EXTI_Callback, push in Hcb.
    repeat case_match; injection Hcb as <- <-; repeat constructor.
  - intros [= <- <-]. repeat split. constructor.
Qed.

Lemma transmits_pushes t : Forall is_push t -> transmits t = [].
Proof.
  induction 1 as [| a t Ha _ IH]; [reflexivity |].
  destruct a; try contradiction; exact IH.
Qed.

Lemma popped_pushes t : Forall is_push t -> popped t = [].
Proof.
  induction 1 as [| a t Ha _ IH]; [reflexivity |].
  destruct a; try contradiction; exact IH.
Qed.

Lemma pushes_not_in t a : Forall is_push t -> ~ is_push a -> a ∉ t.
Proof.
  intros Hall Ha Hin. rewrite Forall_forall in Hall.
  apply Ha, Hall, Hin.
Qed.

Lemma retry_loop evs : forall K m m' tr,
  run evs m = (m', tr) ->
  (pc m = L194 \/ pc m = L195 /\ K = 0%nat) ->
  answers evs `prefix_of`
    (if decide (pc m = L194) then replicate K USBD_BUSY ++ [USBD_OK]
     else []) ->
  transmits tr
  = (fun r => (handed (usb_packet m) (to_send m), r)) <$> answers evs
  /\ (forall x, LastSend x ∉ tr)
  /\ last_usb_send_time m' = last_usb_send_time m
  /\ now m' = now m
  /\ pc m' = (if decide (USBD_OK ∈ answers evs) then L195 else pc m).
Proof.
  induction evs as [| ev evs IH]; intros K m m' tr Hrun Hpc Hans;
    cbn [run] in Hrun.
  - injection Hrun as <- <-. cbn. repeat split.
    intros x. apply not_elem_of_nil.
  - destruct (step ev m) as [m1 t1] eqn:Hstep.
    destruct (run evs m1) as [m2 t2] eqn:Hrest.
    injection Hrun as <- <-.
    destruct ev as [irq GPIO_Pin h pin_state | e].
    + (* an interrupt *)
      apply irq_frame in Hstep
        as (Ep & En & _ & Et & _ & _ & Eu & El & _ & _ & Hpush).
      cbn [answers omap list_omap] in *. fold (answers evs) in *.
      destruct (IH K m1 m2 t2) as (IHt & IHl & IHlast & IHnow & IHpc);
        [assumption | rewrite Ep; assumption | rewrite Ep; assumption |].
      rewrite transmits_app, (transmits_pushes _ Hpush), IHt, Eu, Et.
      split; [reflexivity |]. split; [| split; [| split]];
        try congruence.
      * intros x. rewrite elem_of_app. intros [Hin | Hin].
        -- eapply pushes_not_in; [exact Hpush | | exact Hin]. auto.
        -- eapply IHl. exact Hin.
      * rewrite IHpc, Ep. reflexivity.
    + (* a step of the main loop *)
      cbn [answers omap list_omap] in *. fold (answers evs) in *.
      destruct Hpc as [Hpc | [Hpc ->]].
      2:{ rewrite Hpc in Hans. cbn in Hans.
          apply prefix_nil_inv in Hans. discriminate. }
      rewrite Hpc in Hans. cbn in Hans.
      destruct m as [lbl g t2' t3 e4 e95 nw df ts ix ev pkt last].
      cbn [pc] in Hpc. subst lbl. cbn [step main_step] in Hstep.
      injection Hstep as <- <-.
      cbn [usb_packet to_send last_usb_send_time now pc] in *.
      destruct K as [| K]; cbn [replicate app] in Hans.
      * apply prefix_cons_inv_1 in Hans as Hr.
        apply prefix_cons_inv_2 in Hans.
        rewrite Hr in *. rewrite decide_False in Hrest by discriminate.
        destruct (IH 0%nat _ _ _ Hrest)
          as (IHt & IHl & IHlast & IHnow & IHpc);
          [right; split; reflexivity
          | cbn [pc]; rewrite decide_False by discriminate; exact Hans |].
        cbn in *. fold (transmits t2). rewrite IHt.
        split; [reflexivity |]. split; [| split; [| split]];
          try assumption.
        -- intros x. rewrite elem_of_cons. intros [? | Hin];
             [discriminate | eapply IHl; exact Hin].
        -- rewrite decide_True by (apply elem_of_cons; auto).
           rewrite IHpc. case_decide; reflexivity.
      * apply prefix_cons_inv_1 in Hans as Hr.
        apply prefix_cons_inv_2 in Hans.
        rewrite Hr in *. rewrite decide_True in Hrest by reflexivity.
        destruct (IH K _ _ _ Hrest)
          as (IHt & IHl & IHlast & IHnow & IHpc);
          [left; reflexivity
          | cbn [pc]; rewrite decide_True by reflexivity; exact Hans |].
        cbn in *. fold (transmits t2). rewrite IHt.
        split; [reflexivity |]. split; [| split; [| split]];
          try assumption.
        -- intros x. rewrite elem_of_cons. intros [? | Hin];
             [discriminate | eapply IHl; exact Hin].
        -- rewrite IHpc.
           destruct (decide (USBD_OK ∈ answers evs)) as [Hin | Hnin].
           ++ rewrite decide_True by (apply elem_of_cons; auto).
              reflexivity.
           ++ rewrite decide_False; [reflexivity |].
              rewrite elem_of_cons. intros [? | ?];
                [discriminate | contradiction].
Qed.

End Retry.

(** C5. From line 194, under any interleaving with interrupts: if the
    transport answers busy to the first K calls and ok to the next, the
    trace holds exactly K+1 calls, every one with the same bytes;
    [last_usb_send_time] keeps its value through every prefix of the
    execution and no assignment of line 195 is in the trace; the main loop
    is then at line 195, whose step assigns [now]. *)
Theorem busy_retry `{PinMasks} (K : nat) (evs : list event_t)
    (m m' : machine) (tr : list action) :
  pc m = L194 ->
  answers evs = replicate K USBD_BUSY ++ [USBD_OK] ->
  run evs m = (m', tr) ->
  let packet := handed (usb_packet m) (to_send m) in
  transmits tr = replicate K (packet, USBD_BUSY) ++ [(packet, USBD_OK)]
  /\ length (transmits tr) = S K
  /\ (forall x, LastSend x ∉ tr)
  /\ (forall evs1 evs2,
        evs = evs1 ++ evs2 ->
        last_usb_send_time (fst (run evs1 m)) = last_usb_send_time m)
  /\ pc m' = L195
  /\ forall e,
       snd (main_step e m') = [LastSend (now m)]
       /\ last_usb_send_time (fst (main_step e m')) = now m.
Proof.
  intros Hpc Hans Hrun packet.
  destruct (retry_loop evs K m m' tr Hrun (or_introl Hpc))
    as (Ht & Hl & Hlast & Hnow & Hpc').
  { rewrite decide_True by assumption. rewrite Hans. reflexivity. }
  assert (transmits tr
          = replicate K (packet, USBD_BUSY) ++ [(packet, USBD_OK)]) as Ht'.
  { rewrite Ht, Hans, fmap_app, fmap_replicate. reflexivity. }
  rewrite decide_True in Hpc'
    by (rewrite Hans, elem_of_app, list_elem_of_singleton; auto).
  split; [exact Ht' |]. split.
  { rewrite Ht', length_app, length_replicate. cbn. lia. }
  split; [exact Hl |]. split; [| split; [exact Hpc' |]].
  - intros evs1 evs2 ->.
    destruct (run evs1 m) as [m1 t1] eqn:Hrun1. cbn [fst].
    eapply (retry_loop evs1 K m m1 t1 Hrun1 (or_introl Hpc)).
    rewrite decide_True by assumption. rewrite <- Hans.
    unfold answers. rewrite omap_app. apply prefix_app_r. reflexivity.
  - intros e. destruct m' as [lbl g t2 t3 e4 e95 nw df ts ix ev pkt last].
    cbn [pc now] in *. subst lbl nw. split; reflexivity.
Qed.

(** ** The session stop *)

Lemma order_ok_nil : order_ok [].
Proof. intros [| ? ?] ? ? E; discriminate. Qed.

Lemma order_ok_snoc tr a :
  order_ok tr ->
  (a = WriteReset \/ a = ReadReset ->
   DisableIRQ EXTI4_IRQn ∈ tr /\ DisableIRQ EXTI9_5_IRQn ∈ tr) ->
  order_ok (tr ++ [a]).
Proof.
  intros Hok Ha t1 b t2 E Hb.
  apply snoc_split in E as [(_ & -> & ->) | (t2' & _ & ->)].
  - auto.
  - eapply Hok; [reflexivity | assumption].
Qed.

Lemma order_ok_pushes tr t :
  order_ok tr -> Forall is_push t -> order_ok (tr ++ t).
Proof.
  intros Hok. induction t as [| a t IH] using rev_ind; intros Hall.
  - rewrite app_nil_r. assumption.
  - apply Forall_app in Hall as [Ht Ha]. rewrite app_assoc.
    apply order_ok_snoc; [auto |].
    apply Forall_inv in Ha. intros [-> | ->]; contradiction.
Qed.

Lemma Inv_resets_off m tr :
  Inv m tr -> pc m = L206 \/ pc m = L207 \/ WriteReset ∈ tr -> irqs_off m.
Proof.
  intros [_ _ _ _ [[Hnw _ _ _ Hlab] | HD]] Hpc.
  - unfold at_label_live in Hlab.
    destruct Hpc as [E | [E | E]]; [| | contradiction];
      rewrite E in Hlab; [exact Hlab | contradiction].
  - destruct HD. split; assumption.
Qed.

Section Stop.
Context `{PinMasks}.

Lemma order_preserves ev m tr m' t :
  Inv m tr -> order_ok tr -> step ev m = (m', t) -> order_ok (tr ++ t).
Proof.
  intros HI Hok Hstep.
  destruct ev as [irq GPIO_Pin h pin_state | e].
  - apply irq_frame in Hstep. apply order_ok_pushes; [assumption |].
    apply Hstep.
  - pose proof (Inv_resets_off _ _ HI) as Hoff.
    pose proof (inv_exti4 _ _ HI) as H4.
    pose proof (inv_exti9_5 _ _ HI) as H95.
    destruct m as [lbl g t2 t3 e4 e95 nw df ts ix ev pkt last].
    cbn [step] in Hstep. unfold irqs_off in Hoff.
    cbn [pc nvic_exti4 nvic_exti9_5] in *.
    destruct lbl; cbn [main_step] in Hstep;
      repeat match type of Hstep with
        | context [if ?c then _ else _] => destruct c eqn:?
        end;
      injection Hstep as <- <-; rewrite ?app_nil_r; try assumption;
      apply order_ok_snoc; try assumption;
      try (intros [? | ?]; discriminate).
    + intros _. destruct Hoff as [E4 E95]; auto.
    + intros _. destruct Hoff as [E4 E95]; auto.
Qed.

Lemma reachable_order evs m tr : run evs boot = (m, tr) -> order_ok tr.
Proof.
  assert (forall evs m tr m' t,
            Inv m tr -> order_ok tr -> run evs m = (m', t) ->
            order_ok (tr ++ t)) as Hgen.
  { clear. intros evs. induction evs as [| ev evs IH];
      intros m tr m' t HI Hok Hrun; cbn [run] in Hrun.
    - injection Hrun as <- <-. rewrite app_nil_r. assumption.
    - destruct (step ev m) as [m1 t1] eqn:Hstep.
      destruct (run evs m1) as [m2 t2] eqn:Hrest.
      injection Hrun as <- <-. rewrite app_assoc.
      eapply IH; [| | exact Hrest].
      + eapply step_preserves; eassumption.
      + eapply order_preserves; eassumption. }
  intros Hrun. change tr with ([] ++ tr).
  eapply Hgen; [apply Inv_boot | apply order_ok_nil | exact Hrun].
Qed.

(** With both lines disabled no handler runs: nothing is pushed and
    the buffer keeps its contents, whatever happens next. *)
Lemma irqs_off_step ev m m' t :
  irqs_off m -> step ev m = (m', t) ->
  irqs_off m' /\ pushed t = []
  /\ event_buffer (mem m') = event_buffer (mem m).
Proof.
  intros [E4 E95] Hstep.
  destruct ev as [irq GPIO_Pin h pin_state | e]; cbn [step] in Hstep.
  - assert (irq_enabled irq m = false) as Hen by (destruct irq; assumption).
    rewrite Hen in Hstep. injection Hstep as <- <-.
    split; [split; assumption | split; reflexivity].
  - destruct m as [lbl g t2 t3 e4 e95 nw df ts ix ev pkt last].
    cbn [nvic_exti4 nvic_exti9_5] in *. subst e4 e95.
    destruct lbl; cbn [main_step] in Hstep;
      repeat match type of Hstep with
        | context [if ?c then _ else _] => destruct c eqn:?
        end;
      injection Hstep as <- <-; repeat split.
Qed.

Lemma irqs_off_run evs : forall m m' t,
  irqs_off m -> run evs m = (m', t) ->
  irqs_off m' /\ pushed t = []
  /\ event_buffer (mem m') = event_buffer (mem m).
Proof.
  induction evs as [| ev evs IH]; intros m m' t Hoff Hrun;
    cbn [run] in Hrun.
  - injection Hrun as <- <-. split; [assumption | split; reflexivity].
  - destruct (step ev m) as [m1 t1] eqn:Hstep.
    destruct (run evs m1) as [m2 t2] eqn:Hrest.
    injection Hrun as <- <-.
    destruct (irqs_off_step _ _ _ _ Hoff Hstep) as (Hoff1 & Hp1 & Hb1).
    destruct (IH _ _ _ Hoff1 Hrest) as (Hoff2 & Hp2 & Hb2).
    rewrite pushed_app, Hp1, Hp2, Hb2, Hb1.
    split; [assumption | split; reflexivity].
Qed.

(** Once the stop sequence is entered nothing is popped, transmitted
    or time-stamped as sent any more. *)
Lemma halting_step ev m tr m' t :
  Inv m tr -> stopping m \/ WriteReset ∈ tr -> step ev m = (m', t) ->
  (stopping m' \/ WriteReset ∈ tr ++ t)
  /\ Forall (fun a => ~ is_delivery a) t.
Proof.
  intros HI Hhalt Hstep.
  destruct ev as [irq GPIO_Pin h pin_state | e].
  - apply irq_frame in Hstep
      as (Ep & _ & _ & _ & _ & _ & _ & _ & _ & _ & Hpush).
    split.
    + destruct Hhalt as [Hs | Hw].
      * left. unfold stopping in *. rewrite Ep. assumption.
      * right. apply elem_of_app. auto.
    + eapply Forall_impl; [exact Hpush |].
      intros a Ha Hd. destruct a; contradiction.
  - cbn [step] in Hstep.
    assert (stopping m \/ Dead m tr) as [Hs | HD].
    { destruct Hhalt as [Hs | Hw]; [auto |].
      destruct (inv_phase _ _ HI) as [HL | HD]; [| auto].
      destruct HL. contradiction. }
    + destruct m as [lbl g t2 t3 e4 e95 nw df ts ix ev pkt last].
      unfold stopping in *. cbn [pc] in *.
      destruct lbl; try contradiction; cbn [main_step] in Hstep;
        injection Hstep as <- <-; (split; [| repeat constructor; auto]);
        try (left; exact I).
      right. apply in_snoc.
    + pose proof HD as [Htr _ _ _ _ _ _ _ Hlab].
      destruct m as [lbl g t2 t3 e4 e95 nw df ts ix ev pkt last].
      unfold at_label_dead, stopping in *. cbn [pc diff] in *.
      destruct lbl; try contradiction; cbn [main_step] in Hstep;
        repeat match type of Hstep with
          | context [if ?c then _ else _] => destruct c eqn:?
          end;
        try (subst df; discriminate);
        injection Hstep as <- <-;
        (split; [right; apply elem_of_app; auto
                | repeat constructor; auto]).
Qed.

Lemma halting_run evs : forall m tr m' t,
  Inv m tr -> stopping m \/ WriteReset ∈ tr -> run evs m = (m', t) ->
  Forall (fun a => ~ is_delivery a) t.
Proof.
  induction evs as [| ev evs IH]; intros m tr m' t HI Hhalt Hrun;
    cbn [run] in Hrun.
  - injection Hrun as <- <-. constructor.
  - destruct (step ev m) as [m1 t1] eqn:Hstep.
    destruct (run evs m1) as [m2 t2] eqn:Hrest.
    injection Hrun as <- <-.
    destruct (halting_step _ _ _ _ _ HI Hhalt Hstep) as [Hhalt1 Ht1].
    apply Forall_app. split; [assumption |].
    eapply IH; [| exact Hhalt1 | exact Hrest].
    eapply step_preserves; eassumption.
Qed.

(** The stop sequence run alone. *)
Lemma stop_sequence m e es :
  pc m = L200 -> 2 ^ 29 <= get_32bit_timer (TIM e) ->
  length es = 6%nat ->
  exists m',
    main_run (e :: es) m = (m', stop_actions)
    /\ pc m' = L167
    /\ write_index (mem m') = 0 /\ read_index (mem m') = 0
    /\ irqs_off m'.
Proof.
  intros Hpc Ht Hlen.
  destruct es as [| e1 [| e2 [| e3 [| e4 [| e5 [| e6 [| ? ?]]]]]]];
    try discriminate.
  destruct m as [lbl g t2 t3 n4 n95 nw df ts ix ev pkt last].
  cbn [pc] in Hpc. subst lbl.
  unfold main_run. cbn [fmap list_fmap run step main_step].
  destruct (Z.leb_spec (2 ^ 29) (get_32bit_timer (TIM e))); [| lia].
  eexists. split; [reflexivity |]. repeat split.
Qed.

End Stop.

Lemma no_delivery_popped t :
  Forall (fun a => ~ is_delivery a) t -> popped t = [].
Proof.
  induction 1 as [| a t Ha _ IH]; [reflexivity |].
  destruct a; cbn in *; try exact IH. exfalso. auto.
Qed.

Lemma no_delivery_transmits t :
  Forall (fun a => ~ is_delivery a) t -> transmits t = [].
Proof.
  induction 1 as [| a t Ha _ IH]; [reflexivity |].
  destruct a; cbn in *; try exact IH. exfalso. auto.
Qed.

(** The callback does not test the tick: until line 204 has run, an edge
    is stored whatever the count, its timestamp cut to 29 bits. *)
Lemma late_edge_is_stored :
  snd (Sample.run [Sample.edge0 (2 ^ 29 + 7) GPIO_PIN_SET] boot)
  = [Stored 0x80000007].
Proof. vm_compute. reflexivity. Qed.

(** C8. In every execution from boot: each reset of a cursor comes
    after both interrupt lines were disabled, and the main loop stands at
    line 206 or 207 only with both lines disabled; with both lines
    disabled no interrupt has any effect, nothing is pushed and the buffer
    keeps its contents in whatever follows; once [write_index] is reset it
    reads 0 in every later state and nothing is stored; once [read_index]
    is reset both cursors read 0; and at line 200 a tick of at least
    [2^29] starts the stop, which run alone stops the timers, disables the
    two lines, resets the cursors in this order and leaves both at 0. *)
Theorem session_stop `{PinMasks} (evs : list event_t) (m : machine)
    (tr : list action) :
  run evs boot = (m, tr) ->
  order_ok tr
  /\ (pc m = L206 \/ pc m = L207 \/ WriteReset ∈ tr -> irqs_off m)
  /\ (irqs_off m ->
      forall evs' m' tr',
        run evs' m = (m', tr') ->
        irqs_off m' /\ pushed tr' = []
        /\ event_buffer (mem m') = event_buffer (mem m)
        /\ forall irq GPIO_Pin h pin_state,
             step (Irq irq GPIO_Pin h pin_state) m' = (m', []))
  /\ (WriteReset ∈ tr ->
      forall evs' m' tr',
        run evs' m = (m', tr') ->
        write_index (mem m') = 0 /\ stored tr' = [])
  /\ (ReadReset ∈ tr ->
      write_index (mem m) = 0 /\ read_index (mem m) = 0)
  /\ (pc m = L200 ->
      forall e es,
        2 ^ 29 <= get_32bit_timer (TIM e) -> length es = 6%nat ->
        exists m',
          main_run (e :: es) m = (m', stop_actions)
          /\ pc m' = L167
          /\ write_index (mem m') = 0 /\ read_index (mem m') = 0
          /\ irqs_off m').
Proof.
  intros Hrun. pose proof (reachable_Inv _ _ _ Hrun) as HI.
  split; [eapply reachable_order; eassumption |].
  split; [apply (Inv_resets_off _ _ HI) |].
  split; [| split; [| split]].
  - intros Hoff evs' m' tr' Hrun'.
    destruct (irqs_off_run _ _ _ _ Hoff Hrun') as (Hoff' & Hp & Hb).
    repeat split; try assumption; try apply Hoff'.
    intros irq GPIO_Pin h pin_state. cbn [step].
    destruct Hoff' as [E4 E95].
    assert (irq_enabled irq m' = false) as -> by (destruct irq; assumption).
    reflexivity.
  - intros Hw evs' m' tr' Hrun'.
    assert (run (evs ++ evs') boot = (m', tr ++ tr')) as Hall.
    { rewrite run_app, Hrun, Hrun'. reflexivity. }
    pose proof (reachable_Inv _ _ _ Hall) as HI'.
    destruct (inv_phase _ _ HI') as [HL | HD].
    + destruct HL as [Hnw _ _ _ _]. exfalso. apply Hnw.
      apply elem_of_app. auto.
    + split; [apply HD |].
      pose proof (Inv_resets_off _ _ HI (or_intror (or_intror Hw))) as Hoff.
      destruct (irqs_off_run _ _ _ _ Hoff Hrun') as (_ & Hp & _).
      pose proof (stored_le_pushed tr') as Hle. rewrite Hp in Hle.
      apply length_zero_iff_nil. cbn in Hle. lia.
  - intros Hr. destruct (inv_phase _ _ HI) as [HL | HD].
    + destruct HL. contradiction.
    + destruct HD as [_ _ _ _ _ Hw [Hr0 | [_ Hn]] _ _];
        [auto | contradiction].
  - intros Hpc e es Ht Hlen. apply stop_sequence; assumption.
Qed.

(** C10. When the stop fires at line 200 while events are pending,
    whatever follows pops nothing, transmits nothing and records no send;
    the events pending at that moment were stored and are popped by no
    step of the whole execution; once [read_index] is reset both cursors
    are 0 and nothing is pending; and the stop run alone performs its six
    actions and ends with both cursors 0. *)
Theorem stop_discards_pending `{PinMasks} (evs evs' : list event_t)
    (e : input) (m m' : machine) (tr tr' : list action) :
  run evs boot = (m, tr) ->
  pc m = L200 ->
  2 ^ 29 <= get_32bit_timer (TIM e) ->
  0 < occupancy (mem m) ->
  run (Main e :: evs') m = (m', tr') ->
  popped tr' = [] /\ transmits tr' = [] /\ (forall x, LastSend x ∉ tr')
  /\ pending (mem m) <> []
  /\ popped (tr ++ tr') ++ pending (mem m) = stored tr
  /\ (ReadReset ∈ tr' ->
      write_index (mem m') = 0 /\ read_index (mem m') = 0
      /\ pending (mem m') = [])
  /\ (forall es,
        length es = 6%nat ->
        exists m2,
          main_run (e :: es) m = (m2, stop_actions)
          /\ write_index (mem m2) = 0 /\ read_index (mem m2) = 0
          /\ pending (mem m2) = []).
Proof.
  intros Hrun Hpc Ht Hocc Hrun'.
  pose proof (reachable_Inv _ _ _ Hrun) as HI.
  assert (Live m tr) as HL.
  { destruct (inv_phase _ _ HI) as [HL | HD]; [assumption |].
    destruct HD as [_ _ _ _ _ Hw [Hr | [E _]] _ _]; [| congruence].
    unfold occupancy in Hocc. rewrite Hw, Hr in Hocc.
    vm_compute in Hocc. discriminate. }
  assert (forall g, write_index g = 0 -> read_index g = 0 -> pending g = [])
    as Hempty.
  { intros g Hw Hr. unfold pending, occupancy. rewrite Hw, Hr. reflexivity. }
  assert (Forall (fun a => ~ is_delivery a) tr') as Hnone.
  { cbn [run] in Hrun'.
    destruct (step (Main e) m) as [m1 t1] eqn:Hstep.
    destruct (run evs' m1) as [m2 t2] eqn:Hrest.
    injection Hrun' as <- <-.
    pose proof (step_preserves _ _ _ _ _ HI Hstep) as HI1.
    assert (stopping m1 /\ t1 = []) as [Hs ->].
    { destruct m as [lbl g t2' t3 e4 e95 nw df ts ix ev pkt last].
      cbn [pc] in Hpc. subst lbl. cbn [step main_step] in Hstep.
      destruct (Z.leb_spec (2 ^ 29) (get_32bit_timer (TIM e))); [| lia].
      injection Hstep as <- <-. split; [exact I | reflexivity]. }
    rewrite app_nil_r in HI1. cbn [app].
    eapply halting_run; [exact HI1 | left; exact Hs | exact Hrest]. }
  split; [apply no_delivery_popped; assumption |].
  split; [apply no_delivery_transmits; assumption |].
  split.
  { intros x Hin. rewrite Forall_forall in Hnone.
    apply (Hnone _ Hin). exact I. }
  split.
  { intros E. apply (f_equal length) in E.
    rewrite pending_length in E. cbn in E. lia. }
  split.
  { rewrite popped_app, (no_delivery_popped _ Hnone), app_nil_r.
    apply HL. }
  split.
  - intros Hr.
    assert (run (evs ++ Main e :: evs') boot = (m', tr ++ tr')) as Hall.
    { rewrite run_app, Hrun, Hrun'. reflexivity. }
    pose proof (reachable_Inv _ _ _ Hall) as HI'.
    destruct (inv_phase _ _ HI') as [HL' | HD].
    + destruct HL' as [_ Hnr _ _ _]. exfalso. apply Hnr.
      apply elem_of_app. auto.
    + destruct HD as [_ _ _ _ _ Hw [Hr0 | [_ Hn]] _ _].
      * auto.
      * exfalso. apply Hn. apply elem_of_app. auto.
  - intros es Hlen.
    destruct (stop_sequence m e es Hpc Ht Hlen)
      as (m2 & Hm2 & _ & Hw & Hr & _).
    exists m2. auto.
Qed.

(** ** The transmitter run alone *)

Section Quiet.
Context `{PinMasks}.

Lemma main_run_cons e es m :
  main_run (e :: es) m
  = let '(m1, t1) := main_step e m in
    let '(m2, t2) := main_run es m1 in
    (m2, t1 ++ t2).
Proof. reflexivity. Qed.

Lemma main_run_app es1 es2 m :
  main_run (es1 ++ es2) m
  = let '(m1, t1) := main_run es1 m in
    let '(m2, t2) := main_run es2 m1 in
    (m2, t1 ++ t2).
Proof. unfold main_run. rewrite fmap_app. apply run_app. Qed.

(** The [for] loop of lines 183-191, entered with [k] events to go. *)
Lemma drain_loop e (k : nat) :
  forall g t2 t3 e4 e95 nw df ts ix ev front rest last,
    ring_wf g -> 0 <= ix -> ts = ix + Z.of_nat k -> ts <= 16 ->
    Z.of_nat k <= occupancy g ->
    Z.of_nat (length front) = 4 * ix -> length rest = (4 * k)%nat ->
    exists g' ev',
      main_run (replicate (3 * k + 1) e)
        (Machine L183 g t2 t3 e4 e95 nw df ts ix ev (front ++ rest) last)
      = (Machine L194 g' t2 t3 e4 e95 nw df ts ts ev'
           (front ++ serialize (take k (pending g))) last,
         Popped <$> take k (pending g))
      /\ ring_wf g'
      /\ pending g' = drop k (pending g)
      /\ occupancy g' = occupancy g - Z.of_nat k.
Proof.
  induction k as [| k IH];
    intros g t2 t3 e4 e95 nw df ts ix ev front rest last
      Hwf Hix Hts Hle Hocc Hfront Hrest.
  - exists g, ev. rewrite Z.add_0_r in Hts. subst ts.
    apply length_zero_iff_nil in Hrest. subst rest.
    cbn [Nat.mul Nat.add replicate]. rewrite main_run_cons.
    cbn [main_step]. rewrite Z.ltb_irrefl.
    cbn. rewrite Z.sub_0_r. auto.
  - replace (3 * S k + 1)%nat with (S (S (S (3 * k + 1)))) by lia.
    cbn [replicate]. rewrite main_run_cons. cbn [main_step].
    destruct (Z.ltb_spec ix ts); [| lia].
    rewrite main_run_cons. cbn [main_step].
    rewrite main_run_cons. cbn [main_step].
    destruct (consume_pending g Hwf ltac:(lia)) as (Hwf' & Hocc' & Hpend).
    rewrite store_event_app by lia.
    rewrite (u32_small (ix + 1)) by lia.
    destruct (IH (consume g) t2 t3 e4 e95 nw df ts (ix + 1)
                (load g (read_index g))
                (front ++ le_bytes (load g (read_index g)))
                (drop 4 rest) last)
      as (g' & ev' & Hrun & Hwf'' & Hpend' & Hocc''); try assumption;
      try lia.
    { rewrite length_app, le_bytes_length. lia. }
    { rewrite length_drop. lia. }
    exists g', ev'.
    rewrite <- app_assoc in Hrun. rewrite Hrun.
    rewrite Hpend. cbn [take drop fmap list_fmap app].
    rewrite serialize_cons, <- !app_assoc.
    split; [reflexivity | split; [assumption | split; [assumption | lia]]].
Qed.

(** The calls of line 194 the transport answers busy. *)
Lemma busy_loop e (busy : nat) g t2 t3 e4 e95 nw df ts ix ev pkt last :
  main_run (replicate busy (answering USBD_BUSY e))
    (Machine L194 g t2 t3 e4 e95 nw df ts ix ev pkt last)
  = (Machine L194 g t2 t3 e4 e95 nw df ts ix ev pkt last,
     replicate busy (Transmit (handed pkt ts) USBD_BUSY)).
Proof.
  induction busy as [| busy IH]; [reflexivity |].
  cbn [replicate]. rewrite main_run_cons. cbn [main_step answering
    CDC_Transmit_FS]. rewrite decide_True by reflexivity.
  rewrite IH. reflexivity.
Qed.

(** One pass of the loop body, alone and below the stop threshold:
    it drains the [fire_size] oldest pending events, hands their
    serialisation to the transport until it is accepted, and leaves the
    others pending. *)
Lemma quiet_pass e (busy : nat) m :
  pc m = L167 -> ring_wf (mem m) ->
  get_32bit_timer (TIM e) < 2 ^ 29 ->
  let n := Z.to_nat (fire_size e m) in
  let chunk := take n (pending (mem m)) in
  exists m',
    main_run (pass_inputs (fire_size e m) busy e) m
    = (m', pass_trace chunk busy (u32 (HAL_GetTick e)))
    /\ pc m' = L167 /\ ring_wf (mem m')
    /\ pending (mem m') = drop n (pending (mem m))
    /\ occupancy (mem m') = occupancy (mem m) - fire_size e m
    /\ length chunk = n
    /\ last_usb_send_time m'
       = (if 0 <? fire_size e m then u32 (HAL_GetTick e)
          else last_usb_send_time m)
    /\ nvic_exti4 m' = nvic_exti4 m /\ nvic_exti9_5 m' = nvic_exti9_5 m.
Proof.
  intros Hpc Hwf Ht. cbv zeta.
  destruct m as [lbl g t2 t3 e4 e95 nw df ts ix ev pkt last].
  cbn [pc mem last_usb_send_time nvic_exti4 nvic_exti9_5] in *.
  subst lbl.
  pose proof (occupancy_range g) as Hor.
  pose proof (wf_occupancy _ Hwf) as Hmax. unfold MAX_EVENTS in Hmax.
  remember (fire_size e
              (Machine L167 g t2 t3 e4 e95 nw df ts ix ev pkt last))
    as fs eqn:Hfs.
  unfold fire_size, EVENT_CHUNK_SIZE in Hfs.
  cbn [mem last_usb_send_time] in Hfs.
  assert (0 <= fs <= 16 /\ fs <= occupancy g) as [Hn Hnocc].
  { subst fs. unfold MIN. destruct (trigger _ _ _); [| lia].
    destruct (Z.ltb_spec 16 (occupancy g)); lia. }
  set (n := Z.to_nat fs).
  set (chunk := take n (pending g)).
  assert (length chunk = n) as Hchunk.
  { unfold chunk. rewrite length_take, pending_length. lia. }
  unfold pass_inputs.
  destruct (Z.ltb_spec 0 fs) as [Hpos | Hzero].
  - (* the pass fires *)
    destruct (trigger (occupancy g) (u32 (HAL_GetTick e)) last) eqn:Htrig;
      [| lia].
    cbn [replicate app].
    do 3 (rewrite main_run_cons; cbn [main_step]).
    rewrite Htrig. unfold EVENT_CHUNK_SIZE. rewrite <- Hfs.
    destruct (Z.ltb_spec 0 fs); [| lia].
    rewrite main_run_app.
    destruct (drain_loop e n g t2 t3 e4 e95 (u32 (HAL_GetTick e))
                (occupancy g) fs 0 ev []
                ((fun k => u8 (stack e k))
                   <$> seq 0 (Z.to_nat (u32 (fs * 4))))
                last)
      as (g' & ev' & Hrun & Hwf' & Hpend & Hocc); try assumption;
      try (unfold n; lia); try reflexivity.
    { rewrite length_fmap, length_seq, u32_small by lia. unfold n. lia. }
    cbn [app] in Hrun. fold n. rewrite Hrun.
    rewrite main_run_app, busy_loop.
    rewrite main_run_cons. cbn [main_step answering CDC_Transmit_FS].
    rewrite decide_False by discriminate.
    do 2 (rewrite main_run_cons; cbn [main_step]).
    destruct (Z.leb_spec (2 ^ 29) (get_32bit_timer (TIM e))); [lia |].
    assert (handed (serialize (take n (pending g))) fs
            = serialize chunk) as ->.
    { unfold handed. apply take_ge. fold chunk.
      rewrite serialize_length, Hchunk.
      rewrite (u32_small (_ * 4)), u16_small by lia. unfold n. lia. }
    assert (pass_trace chunk busy (u32 (HAL_GetTick e))
            = (Popped <$> chunk)
              ++ replicate busy (Transmit (serialize chunk) USBD_BUSY)
              ++ [Transmit (serialize chunk) USBD_OK;
                  LastSend (u32 (HAL_GetTick e))]) as ->.
    { unfold pass_trace. destruct chunk; [cbn in Hchunk; lia |].
      reflexivity. }
    eexists. split.
    { cbn [main_run fmap list_fmap run]. fold chunk. reflexivity. }
    cbn [pc mem last_usb_send_time nvic_exti4 nvic_exti9_5].
    split; [reflexivity |]. split; [assumption |].
    split; [assumption |]. split; [unfold n in Hocc; lia |].
    split; [assumption |]. auto.
  - (* the pass does not fire *)
    assert (fs = 0) as Hsize by lia.
    assert (n = 0%nat) as Hn0 by (unfold n; lia).
    assert (chunk = []) as Hc0 by (unfold chunk; rewrite Hn0; reflexivity).
    rewrite Hc0, Hn0.
    cbn [replicate].
    do 3 (rewrite main_run_cons; cbn [main_step]).
    unfold EVENT_CHUNK_SIZE.
    destruct (trigger (occupancy g) (u32 (HAL_GetTick e)) last).
    + rewrite <- Hfs, Hsize. cbn [Z.ltb Z.compare].
      rewrite main_run_cons; cbn [main_step].
      destruct (Z.leb_spec (2 ^ 29) (get_32bit_timer (TIM e))); [lia |].
      eexists. split; [reflexivity |].
      cbn [pc mem last_usb_send_time nvic_exti4 nvic_exti9_5 drop].
      split; [reflexivity |]. split; [assumption |].
      split; [reflexivity |]. split; [lia |]. auto.
    + rewrite main_run_cons; cbn [main_step].
      destruct (Z.leb_spec (2 ^ 29) (get_32bit_timer (TIM e))); [lia |].
      eexists. split; [reflexivity |].
      cbn [pc mem last_usb_send_time nvic_exti4 nvic_exti9_5 drop].
      split; [reflexivity |]. split; [assumption |].
      split; [reflexivity |]. split; [lia |]. auto.
Qed.

End Quiet.

Lemma MIN_min a b : MIN a b = Z.min a b.
Proof. unfold MIN. destruct (Z.ltb_spec a b); lia. Qed.

(** C6. The main loop running alone below the stop threshold, with 40
    events pending at line 167: the first pass pops the 16 oldest and
    hands the transport their 64 bytes, again after each busy answer; the
    second pass does the same with the next 16; the 8 that remain stay
    pending through a pass whose interval test fails, and a pass whose
    interval test holds sends them. In general a pass whose trigger holds
    pops the min(16, occupancy) oldest pending events, sends those and
    leaves the others pending. *)
Theorem chunking `{PinMasks} (m : machine) (e1 e2 e3 : input)
    (b1 b2 b3 : nat) :
  pc m = L167 ->
  ring_wf (mem m) ->
  occupancy (mem m) = 40 ->
  get_32bit_timer (TIM e1) < 2 ^ 29 ->
  get_32bit_timer (TIM e2) < 2 ^ 29 ->
  get_32bit_timer (TIM e3) < 2 ^ 29 ->
  let q := pending (mem m) in
  (exists m1 m2,
     main_run (pass_inputs 16 b1 e1) m
     = (m1, pass_trace (take 16 q) b1 (u32 (HAL_GetTick e1)))
     /\ length (take 16 q) = 16%nat
     /\ length (serialize (take 16 q)) = 64%nat
     /\ pc m1 = L167 /\ pending (mem m1) = drop 16 q
     /\ main_run (pass_inputs 16 b2 e2) m1
        = (m2, pass_trace (take 16 (drop 16 q)) b2 (u32 (HAL_GetTick e2)))
     /\ length (take 16 (drop 16 q)) = 16%nat
     /\ pc m2 = L167 /\ pending (mem m2) = drop 32 q
     /\ length (pending (mem m2)) = 8%nat
     /\ (u32 (u32 (HAL_GetTick e3) - u32 (HAL_GetTick e2))
         < USB_SEND_INTERVAL_MS ->
         exists m3,
           main_run (pass_inputs 0 b3 e3) m2 = (m3, [])
           /\ pc m3 = L167 /\ pending (mem m3) = drop 32 q)
     /\ (USB_SEND_INTERVAL_MS
         <= u32 (u32 (HAL_GetTick e3) - u32 (HAL_GetTick e2)) ->
         exists m3,
           main_run (pass_inputs 8 b3 e3) m2
           = (m3, pass_trace (drop 32 q) b3 (u32 (HAL_GetTick e3)))
           /\ pc m3 = L167 /\ pending (mem m3) = []))
  /\ (forall m0 e busy,
        pc m0 = L167 -> ring_wf (mem m0) ->
        get_32bit_timer (TIM e) < 2 ^ 29 ->
        trigger (occupancy (mem m0)) (u32 (HAL_GetTick e))
          (last_usb_send_time m0) = true ->
        let n := Z.min EVENT_CHUNK_SIZE (occupancy (mem m0)) in
        exists m',
          main_run (pass_inputs n busy e) m0
          = (m', pass_trace (take (Z.to_nat n) (pending (mem m0))) busy
                   (u32 (HAL_GetTick e)))
          /\ length (take (Z.to_nat n) (pending (mem m0))) = Z.to_nat n
          /\ pc m' = L167
          /\ pending (mem m') = drop (Z.to_nat n) (pending (mem m0))
          /\ occupancy (mem m') = occupancy (mem m0) - n).
Proof.
  intros Hpc Hwf Hocc Ht1 Ht2 Ht3 q.
  assert (length q = 40%nat) as Hq.
  { unfold q. rewrite pending_length, Hocc. reflexivity. }
  split.
  - (* the first pass *)
    assert (fire_size e1 m = 16) as Hf1.
    { unfold fire_size, trigger. rewrite Hocc. reflexivity. }
    destruct (quiet_pass e1 b1 m Hpc Hwf Ht1)
      as (m1 & Hrun1 & Hpc1 & Hwf1 & Hpend1 & Hocc1 & Hlen1 & Hlast1 & _).
    rewrite Hf1 in *. change (Z.to_nat 16) with 16%nat in *.
    fold q in Hrun1, Hpend1, Hlen1. cbn [Z.ltb Z.compare] in Hlast1.
    (* the second pass *)
    assert (fire_size e2 m1 = 16) as Hf2.
    { unfold fire_size, trigger. rewrite Hocc1, Hocc. reflexivity. }
    destruct (quiet_pass e2 b2 m1 Hpc1 Hwf1 Ht2)
      as (m2 & Hrun2 & Hpc2 & Hwf2 & Hpend2 & Hocc2 & Hlen2 & Hlast2 & _).
    rewrite Hf2 in *. change (Z.to_nat 16) with 16%nat in *.
    rewrite Hpend1 in Hrun2, Hpend2, Hlen2. rewrite drop_drop in Hpend2.
    cbn [Z.ltb Z.compare Nat.add] in Hlast2, Hpend2.
    rewrite Hocc1, Hocc in Hocc2.
    exists m1, m2.
    split; [exact Hrun1 |]. split; [exact Hlen1 |].
    split; [rewrite serialize_length, Hlen1; reflexivity |].
    split; [exact Hpc1 |]. split; [exact Hpend1 |].
    split; [exact Hrun2 |]. split; [exact Hlen2 |].
    split; [exact Hpc2 |]. split; [exact Hpend2 |].
    split; [rewrite pending_length, Hocc2; reflexivity |].
    (* the third pass *)
    pose proof (quiet_pass e3 b3 m2 Hpc2 Hwf2 Ht3)
      as (m3 & Hrun3 & Hpc3 & Hwf3 & Hpend3 & Hocc3 & Hlen3 & _).
    assert (fire_size e3 m2
            = if USB_SEND_INTERVAL_MS
                 <=? u32 (u32 (HAL_GetTick e3) - u32 (HAL_GetTick e2))
              then 8 else 0) as Hf3.
    { unfold fire_size, trigger. rewrite Hocc2, Hlast2.
      destruct (_ <=? u32 _); reflexivity. }
    rewrite Hf3 in *. rewrite Hpend2 in Hrun3, Hpend3.
    split; intros Hint.
    + destruct (Z.leb_spec USB_SEND_INTERVAL_MS
                  (u32 (u32 (HAL_GetTick e3) - u32 (HAL_GetTick e2))));
        [lia |].
      exists m3. auto.
    + destruct (Z.leb_spec USB_SEND_INTERVAL_MS
                  (u32 (u32 (HAL_GetTick e3) - u32 (HAL_GetTick e2))));
        [| lia].
      change (Z.to_nat 8) with 8%nat in *.
      rewrite take_ge in Hrun3 by (rewrite length_drop; lia).
      rewrite drop_drop in Hpend3.
      rewrite drop_ge in Hpend3 by lia.
      exists m3. auto.
  - (* any pass that fires *)
    intros m0 e busy Hpc0 Hwf0 Ht0 Htrig n.
    destruct (quiet_pass e busy m0 Hpc0 Hwf0 Ht0)
      as (m' & Hrun & Hpc' & _ & Hpend & Hocc' & Hlen & _).
    assert (fire_size e m0 = n) as Hf.
    { unfold fire_size. rewrite Htrig. apply MIN_min. }
    rewrite Hf in *. exists m'. auto 10.
Qed.

(** ** Worked executions *)

Lemma fifo_order_witness :
  let tr := snd (Sample.run Sample.capture boot) in
  let m := fst (Sample.run Sample.capture boot) in
  popped tr = [0x800003E8; 0x200007D0]
  /\ (stored tr `sublist_of` pushed tr
      /\ popped tr `prefix_of` stored tr
      /\ (WriteReset ∉ tr -> popped tr ++ pending (mem m) = stored tr)
      /\ ((length (pushed tr) <= Z.to_nat MAX_EVENTS)%nat ->
          stored tr = pushed tr)).
Proof.
  split; [vm_compute; reflexivity |].
  apply (@fifo_order stm32f1_pins Sample.capture).
  apply surjective_pairing.
Defined.

Lemma occupancy_bound_witness :
  let m := fst (Sample.run Sample.to_the_send boot) in
  occupancy (mem m) = 0
  /\ ((WriteReset ∉ snd (Sample.run Sample.to_the_send boot) ->
       0 <= occupancy (mem m) <= MAX_EVENTS)
      /\ (pc m <> L207 -> 0 <= occupancy (mem m) <= MAX_EVENTS)
      /\ (forall g data,
            MAX_EVENTS < u32 (u32 (write_index g + 1) - read_index g) ->
            push data g = (g, [Dropped data]))
      /\ (pc m <> L207 -> occupancy (mem m) = MAX_EVENTS ->
          forall GPIO_Pin h pin_state,
            fst (@HAL_GPIO_EXTI_Callback stm32f1_pins GPIO_Pin h pin_state
                   (mem m)) = mem m
            /\ stored (snd (@HAL_GPIO_EXTI_Callback stm32f1_pins GPIO_Pin h
                              pin_state (mem m))) = [])).
Proof.
  split; [vm_compute; reflexivity |].
  apply (@occupancy_bound stm32f1_pins Sample.to_the_send _
           (snd (Sample.run Sample.to_the_send boot))).
  apply surjective_pairing.
Defined.

Lemma busy_retry_witness :
  let m := fst (Sample.run Sample.to_the_send boot) in
  let tr := snd (Sample.run Sample.retries m) in
  let packet := [0xE8; 0x03; 0x00; 0x80; 0xD0; 0x07; 0x00; 0x20] in
  transmits tr = [(packet, USBD_BUSY); (packet, USBD_BUSY); (packet, USBD_OK)]
  /\ forall x, LastSend x ∉ tr.
Proof.
  pose proof (@busy_retry stm32f1_pins 2 Sample.retries
                (fst (Sample.run Sample.to_the_send boot))
                (fst (Sample.run Sample.retries
                        (fst (Sample.run Sample.to_the_send boot))))
                (snd (Sample.run Sample.retries
                        (fst (Sample.run Sample.to_the_send boot)))))
    as Hretry.
  destruct Hretry as (Ht & _ & Hl & _).
  - vm_compute. reflexivity.
  - vm_compute. reflexivity.
  - apply surjective_pairing.
  - split; [| exact Hl]. rewrite Ht. vm_compute. reflexivity.
Defined.

Lemma session_stop_witness :
  let evs := Sample.before_stop ++ [Main Sample.late] ++ Sample.after_stop in
  let m := fst (Sample.run evs boot) in
  let tr := snd (Sample.run evs boot) in
  tr = Stored 0x800003E8 :: stop_actions
  /\ write_index (mem m) = 0 /\ read_index (mem m) = 0.
Proof.
  split; [vm_compute; reflexivity |].
  destruct (@session_stop stm32f1_pins
              (Sample.before_stop ++ [Main Sample.late] ++ Sample.after_stop)
              (fst (Sample.run
                      (Sample.before_stop ++ [Main Sample.late]
                       ++ Sample.after_stop) boot))
              (snd (Sample.run
                      (Sample.before_stop ++ [Main Sample.late]
                       ++ Sample.after_stop) boot)))
    as (_ & _ & _ & _ & Hread & _).
  - apply surjective_pairing.
  - apply Hread. vm_compute. apply list_elem_of_In. cbn. tauto.
Defined.

Lemma stop_discards_pending_witness :
  let m := fst (Sample.run Sample.before_stop boot) in
  let tr := snd (Sample.run Sample.before_stop boot) in
  let tr' := snd (Sample.run (Main Sample.late :: Sample.after_stop) m) in
  pending (mem m) = [0x800003E8]
  /\ stored tr = [0x800003E8]
  /\ popped (tr ++ tr') = [] /\ transmits tr' = [].
Proof.
  split; [vm_compute; reflexivity |]. split; [vm_compute; reflexivity |].
  destruct (@stop_discards_pending stm32f1_pins Sample.before_stop
              Sample.after_stop Sample.late
              (fst (Sample.run Sample.before_stop boot))
              (fst (Sample.run (Main Sample.late :: Sample.after_stop)
                      (fst (Sample.run Sample.before_stop boot))))
              (snd (Sample.run Sample.before_stop boot))
              (snd (Sample.run (Main Sample.late :: Sample.after_stop)
                      (fst (Sample.run Sample.before_stop boot)))))
    as (Hp & Ht & _ & _ & Hfifo & _).
  - apply surjective_pairing.
  - vm_compute. reflexivity.
  - vm_compute. discriminate.
  - vm_compute. reflexivity.
  - apply surjective_pairing.
  - split; [| exact Ht].
    apply (f_equal length) in Hfifo. rewrite length_app in Hfifo.
    apply length_zero_iff_nil.
    assert (length (pending
                      (mem (fst (Sample.run Sample.before_stop boot))))
            = 1%nat) as E1 by (vm_compute; reflexivity).
    assert (length (stored (snd (Sample.run Sample.before_stop boot)))
            = 1%nat) as E2 by (vm_compute; reflexivity).
    cbv zeta. lia.
Defined.

Lemma chunking_witness :
  let m := fst (Sample.run Sample.forty boot) in
  let q := pending (mem m) in
  length q = 40%nat
  /\ exists m1,
       main_run (H := stm32f1_pins)
         (pass_inputs 16 1 (Sample.env 1 USBD_OK 5000)) m
       = (m1, pass_trace (take 16 q) 1 1)
       /\ pending (mem m1) = drop 16 q.
Proof.
  split; [vm_compute; reflexivity |].
  destruct (@chunking stm32f1_pins (fst (Sample.run Sample.forty boot))
              (Sample.env 1 USBD_OK 5000) (Sample.env 2 USBD_OK 5100)
              (Sample.env 3 USBD_OK 5200) 1 0 0)
    as [(m1 & m2 & Hrun1 & _ & _ & _ & Hpend1 & _) _].
  - vm_compute. reflexivity.
  - apply (live_ring _ (snd (Sample.run Sample.forty boot))).
    destruct (inv_phase _ _ (@reachable_Inv stm32f1_pins Sample.forty _ _
                               (surjective_pairing _))) as [HL | HD].
    + exact HL.
    + exfalso. destruct HD as [Hin _ _ _ _ _ _ _ _]. revert Hin.
      vm_compute. intros Hin. apply list_elem_of_In in Hin.
      repeat (destruct Hin as [Hin | Hin]; [discriminate |]).
      exact Hin.
  - vm_compute. reflexivity.
  - vm_compute. reflexivity.
  - vm_compute. reflexivity.
  - vm_compute. reflexivity.
  - exists m1. split; [exact Hrun1 | exact Hpend1].
Defined.


(** * Further properties *)

(** ** TimeBase on a chained pair *)

(** X1. On a chained pair whose count does not decrease, advances by less
    than [2^16] between the two high reads and does not wrap between the
    second high read and the re-read: when no wrap fell between the high
    reads the call returns the count at the read of the low counter, and
    when one did it returns the count at the re-read. *)
Theorem timer_snapshot (c : nat -> Z) :
  (forall k, c k <= c (S k)) ->
  c 2%nat - c 0%nat < 2 ^ 16 ->
  c 3%nat / 2 ^ 16 = c 2%nat / 2 ^ 16 ->
  (c 2%nat / 2 ^ 16 = c 0%nat / 2 ^ 16 ->
   get_32bit_timer (chained c) = u32 (c 1%nat))
  /\ (c 2%nat / 2 ^ 16 <> c 0%nat / 2 ^ 16 ->
      get_32bit_timer (chained c) = u32 (c 3%nat)).
Proof.
  intros Hmono Hone Hq.
  pose proof (Hmono 0%nat). pose proof (Hmono 1%nat). pose proof (Hmono 2%nat).
  rewrite get_32bit_timer_eq. cbn [chained TIM2_CNT TIM3_CNT].
  unfold u16, u32 in *. rewrite !Z.mod_mod by lia.
  split; intros Hw; case_decide as E; zsolve.
Qed.

Lemma timer_snapshot_witness :
  get_32bit_timer (chained (fun k => 0x0003FFFE + Z.of_nat k)) = 0x00040001
  /\ get_32bit_timer (chained (fun k => 0x00030000 + Z.of_nat k)) = 0x00030001.
Proof.
  pose (c1 := fun k => 0x0003FFFE + Z.of_nat k).
  pose (c2 := fun k => 0x00030000 + Z.of_nat k).
  assert (forall b, (forall k : nat, b + Z.of_nat k <= b + Z.of_nat (S k)))
    as Hmono by (intros; lia).
  split.
  - apply (timer_snapshot c1); [apply Hmono | reflexivity | reflexivity |].
    vm_compute. discriminate.
  - apply (timer_snapshot c2); [apply Hmono | reflexivity | reflexivity |].
    reflexivity.
Defined.

(** X2. The call corrects one wrap only: when the low counter wraps
    between the two high reads and once more between the second high read
    and the re-read, the value returned is [2^16] behind the count at the
    re-read. *)
Theorem timer_second_wrap (c : nat -> Z) :
  c 2%nat / 2 ^ 16 = c 0%nat / 2 ^ 16 + 1 ->
  c 3%nat / 2 ^ 16 = c 2%nat / 2 ^ 16 + 1 ->
  get_32bit_timer (chained c) = u32 (c 3%nat - 2 ^ 16).
Proof.
  intros H1 H2.
  rewrite get_32bit_timer_eq. cbn [chained TIM2_CNT TIM3_CNT].
  unfold u16, u32 in *. rewrite !Z.mod_mod by lia.
  case_decide as E; zsolve.
Qed.

Lemma timer_second_wrap_witness :
  get_32bit_timer (chained (fun k => 0x0003FFFF + 0x8000 * Z.of_nat k))
  = u32 (0x0003FFFF + 0x8000 * 3 - 2 ^ 16).
Proof.
  apply (timer_second_wrap (fun k => 0x0003FFFF + 0x8000 * Z.of_nat k));
    reflexivity.
Defined.

(** ** EdgeCapture, field by field *)

Lemma channel_of_pin_range `{PinMasks} GPIO_Pin channel :
  channel_of_pin GPIO_Pin = Some channel -> 0 <= channel <= 3.
Proof.
  unfold channel_of_pin. intros E.
  repeat case_match; simplify_eq; lia.
Qed.

(** X3. Two event words are equal exactly when they have the same edge,
    the same channel and timestamps that agree modulo [2^29]: line 110
    keeps the low 29 bits of the tick and nothing else of it, so ticks
    [2^29] apart give one word. *)
Theorem event_word_fields (edge channel time edge' channel' time' : Z) :
  0 <= edge <= 1 -> 0 <= channel <= 3 ->
  0 <= edge' <= 1 -> 0 <= channel' <= 3 ->
  event_word edge channel time = event_word edge' channel' time'
  <-> edge = edge' /\ channel = channel'
      /\ time mod 2 ^ 29 = time' mod 2 ^ 29.
Proof.
  intros He Hc He' Hc'.
  rewrite !event_word_eq by assumption.
  pose proof (Z.mod_pos_bound time (2 ^ 29) ltac:(lia)).
  pose proof (Z.mod_pos_bound time' (2 ^ 29) ltac:(lia)).
  split.
  - intros E. lia.
  - intros (-> & -> & ->). reflexivity.
Qed.

Lemma event_word_fields_witness :
  event_word 1 2 5 = event_word 1 2 (2 ^ 29 + 5).
Proof.
  apply (event_word_fields 1 2 5 1 2 (2 ^ 29 + 5)); [lia | lia | lia | lia |].
  split; [reflexivity | split; reflexivity].
Defined.

(** X4. What the handler does for a channel pin, on a well-formed ring.
    The word is the edge in bit 31, the channel in bits 30-29 and the tick
    modulo [2^29]. With room, the word is added behind the pending events,
    the write index advances by one modulo [2^32] and the read index is
    left alone; with the ring full, the globals are unchanged and the word
    is lost. *)
Theorem callback_effect `{PinMasks}
    (GPIO_Pin : Z) (h : counters) (pin_state : GPIO_PinState)
    (g : globals) (channel : Z) :
  ring_wf g ->
  channel_of_pin GPIO_Pin = Some channel ->
  let w := (edge_of pin_state * 4 + channel) * 2 ^ 29
           + get_32bit_timer h mod 2 ^ 29 in
  (occupancy g < MAX_EVENTS ->
   exists g',
     HAL_GPIO_EXTI_Callback GPIO_Pin h pin_state g = (g', [Stored w])
     /\ ring_wf g'
     /\ read_index g' = read_index g
     /\ write_index g' = u32 (write_index g + 1)
     /\ occupancy g' = occupancy g + 1
     /\ pending g' = pending g ++ [w])
  /\ (occupancy g = MAX_EVENTS ->
      HAL_GPIO_EXTI_Callback GPIO_Pin h pin_state g = (g, [Dropped w])).
Proof.
  intros Hwf Hch w.
  pose proof (channel_of_pin_range _ _ Hch) as Hr.
  pose proof (edge_of_range pin_state) as He.
  unfold HAL_GPIO_EXTI_Callback. rewrite Hch.
  rewrite event_word_eq by assumption. fold w.
  split.
  - intros Hroom.
    destruct (push_room g w Hwf Hroom) as (g' & E & Hwf' & Hrd & Hocc & Hp & _).
    exists g'. split; [exact E |].
    split; [exact Hwf' |]. split; [exact Hrd |].
    split; [| split; [exact Hocc | exact Hp]].
    unfold push in E.
    rewrite (push_test g Hwf) in E.
    destruct (occupancy g + 1 <=? MAX_EVENTS) eqn:T.
    + inversion E. reflexivity.
    + discriminate.
  - intros Hfull. apply push_full; assumption.
Qed.

Lemma callback_effect_witness :
  HAL_GPIO_EXTI_Callback (H := stm32f1_pins) 0x0040
    (Sample.at_tick (2 ^ 29 + 9)) GPIO_PIN_SET (mem boot)
  = (fst (HAL_GPIO_EXTI_Callback (H := stm32f1_pins) 0x0040
            (Sample.at_tick (2 ^ 29 + 9)) GPIO_PIN_SET (mem boot)),
     [Stored 0xC0000009]).
Proof.
  destruct (callback_effect (H := stm32f1_pins) 0x0040
              (Sample.at_tick (2 ^ 29 + 9)) GPIO_PIN_SET (mem boot) 2
              ring_wf_boot eq_refl) as [Hroom _].
  destruct Hroom as (g' & E & _); [vm_compute; reflexivity |].
  rewrite E. reflexivity.
Defined.

(** ** The ring with no consumer *)

Section Capacity.
Context `{PinMasks}.

Lemma edges_frame evs : forall m m' t,
  Forall mapped_edge evs -> run evs m = (m', t) ->
  pc m' = pc m /\ nvic_exti4 m' = nvic_exti4 m
  /\ nvic_exti9_5 m' = nvic_exti9_5 m /\ Forall is_push t.
Proof.
  induction evs as [| ev evs IH]; intros m m' t Hall Hrun.
  - cbn in Hrun. inversion Hrun; subst. repeat split; constructor.
  - inversion Hall as [| ? ? Hev Hevs]; subst.
    cbn [run] in Hrun.
    destruct (step ev m) as [m1 t1] eqn:E1.
    destruct (run evs m1) as [m2 t2] eqn:E2.
    inversion Hrun; subst.
    destruct ev as [irq pin h ps | e]; [| destruct Hev].
    destruct (irq_frame _ _ _ _ _ _ _ E1)
      as (Hpc & _ & _ & _ & _ & _ & _ & _ & H4 & H95 & Hp).
    destruct (IH _ _ _ Hevs E2) as (Hpc' & H4' & H95' & Hp').
    split; [congruence |]. split; [congruence |]. split; [congruence |].
    apply Forall_app; split; assumption.
Qed.

Lemma take_snoc_le {A} (n : nat) (l : list A) (x : A) :
  (length l < n)%nat -> take n (l ++ [x]) = take n l ++ [x].
Proof.
  intros Hl. rewrite !take_ge by (rewrite ?length_app; cbn; lia).
  reflexivity.
Qed.

Lemma take_snoc_ge {A} (n : nat) (l : list A) (x : A) :
  (n <= length l)%nat -> take n (l ++ [x]) = take n l.
Proof. intros Hl. apply take_app_le. exact Hl. Qed.

Lemma drop_snoc_le {A} (n : nat) (l : list A) (x : A) :
  (length l < n)%nat -> drop n (l ++ [x]) = [].
Proof. intros Hl. apply drop_ge. rewrite length_app. cbn. lia. Qed.

Lemma drop_snoc_ge {A} (n : nat) (l : list A) (x : A) :
  (n <= length l)%nat -> drop n (l ++ [x]) = drop n l ++ [x].
Proof. intros Hl. apply drop_app_le. exact Hl. Qed.

(** X5. With the main loop not running, of the edges that arrive on
    channel pins after the start the first [MAX_EVENTS] are stored, in
    order, and every later one is dropped: the ring holds 1024 events,
    all of its slots. *)
Theorem ring_capacity (evs : list event_t) (m : machine)
    (tr : list action) :
  Forall mapped_edge evs ->
  run evs boot = (m, tr) ->
  length (pushed tr) = length evs
  /\ stored tr = take (Z.to_nat MAX_EVENTS) (pushed tr)
  /\ dropped tr = drop (Z.to_nat MAX_EVENTS) (pushed tr)
  /\ pending (mem m) = stored tr.
Proof.
  revert m tr. induction evs as [| ev evs IH] using rev_ind;
    intros m tr Hall Hrun.
  - cbn in Hrun. inversion Hrun; subst. vm_compute. auto.
  - apply Forall_app in Hall as [Hevs Hev].
    rewrite run_app in Hrun.
    destruct (run evs boot) as [m1 t1] eqn:E1.
    destruct (IH _ _ Hevs eq_refl) as (Hlen & Hst & Hdr & Hpend).
    pose proof (reachable_Inv _ _ _ E1) as HInv.
    destruct (edges_frame _ _ _ _ Hevs E1) as (_ & H4 & H95 & Hpush).
    assert (ring_wf (mem m1)) as Hwf.
    { destruct (inv_phase _ _ HInv) as [HL | HD].
      - apply HL.
      - exfalso. revert HD. intros [Hin _ _ _ _ _ _ _ _].
        exact (pushes_not_in t1 WriteReset Hpush (fun x : False => x) Hin). }
    inversion Hev as [| ? ? Hm _]; subst.
    destruct ev as [irq pin h ps | e]; [| destruct Hm].
    destruct Hm as [ch Hch].
    cbn [run step] in Hrun.
    assert (irq_enabled irq m1 = true) as Hen.
    { destruct irq; cbn; [rewrite H4 | rewrite H95]; reflexivity. }
    rewrite Hen in Hrun.
    pose proof (pending_length (mem m1)) as Hpl.
    rewrite Hpend, Hst, length_take in Hpl.
    pose proof (wf_occupancy _ Hwf) as Hocc.
    pose proof (occupancy_range (mem m1)) as Hor.
    unfold MAX_EVENTS in *.
    unfold HAL_GPIO_EXTI_Callback in Hrun. rewrite Hch in Hrun.
    rewrite length_app. cbn [length].
    destruct (decide (occupancy (mem m1) < 1024)) as [Hlt | Hge].
    + destruct (push_room (mem m1)
                  (event_word (edge_of ps) ch (get_32bit_timer h)) Hwf Hlt)
        as (g' & E & _ & _ & _ & Hp' & _).
      rewrite E in Hrun. inversion Hrun; subst. cbn [mem].
      rewrite ?app_nil_r, pushed_app, stored_app, dropped_app. cbn.
      assert (length (pushed t1) < 1024)%nat as Hl by lia.
      rewrite length_app. cbn [length].
      rewrite take_snoc_le, drop_snoc_le by exact Hl.
      rewrite Hp', Hpend, Hdr, <- Hst, drop_ge by lia.
      split; [lia | auto].
    + assert (occupancy (mem m1) = MAX_EVENTS) as Hocc' by (unfold MAX_EVENTS; lia).
      rewrite (push_full (mem m1)
                 (event_word (edge_of ps) ch (get_32bit_timer h)) Hwf Hocc')
        in Hrun.
      inversion Hrun; subst.
      rewrite ?app_nil_r, pushed_app, stored_app, dropped_app. cbn.
      assert (1024 <= length (pushed t1))%nat as Hl by lia.
      rewrite length_app. cbn [length].
      rewrite take_snoc_ge, drop_snoc_ge by exact Hl.
      rewrite app_nil_r, Hpend, Hdr, <- Hst.
      split; [lia | auto].
Qed.

End Capacity.

Lemma ring_capacity_witness :
  length (pushed (snd (run (H := stm32f1_pins) Worked.flood boot)))
  = length Worked.flood
  /\ stored (snd (run (H := stm32f1_pins) Worked.flood boot))
     = take (Z.to_nat MAX_EVENTS)
         (pushed (snd (run (H := stm32f1_pins) Worked.flood boot)))
  /\ dropped (snd (run (H := stm32f1_pins) Worked.flood boot))
     = drop (Z.to_nat MAX_EVENTS)
         (pushed (snd (run (H := stm32f1_pins) Worked.flood boot)))
  /\ pending (mem (fst (run (H := stm32f1_pins) Worked.flood boot)))
     = stored (snd (run (H := stm32f1_pins) Worked.flood boot)).
Proof.
  refine (ring_capacity (H := stm32f1_pins) Worked.flood _ _ _
            (surjective_pairing _)).
  apply Forall_fmap, Forall_forall. intros k _.
  exists 0. reflexivity.
Defined.

(** ** Array accesses *)

(** X6. In every state the machine reaches the ring has its 1024 slots
    and a masked cursor is an index into it; where line 186 is about to
    write the four bytes of an event, the packet array has [to_send * 4]
    bytes and the last of the four indices is one of them; where line 194
    calls the transport, the length it passes is that of the whole
    array. *)
Theorem accesses_in_bounds `{PinMasks} (evs : list event_t) (m : machine)
    (tr : list action) :
  run evs boot = (m, tr) ->
  length (event_buffer (mem m)) = Z.to_nat MAX_EVENTS
  /\ (forall k, (slot k < length (event_buffer (mem m)))%nat)
  /\ (pc m = L186 ->
      0 < to_send m <= EVENT_CHUNK_SIZE
      /\ length (usb_packet m) = Z.to_nat (to_send m * 4)
      /\ (Z.to_nat (u32 (u32 (i m * 4) + 3)) < length (usb_packet m))%nat)
  /\ (pc m = L194 ->
      length (usb_packet m) = Z.to_nat (to_send m * 4)
      /\ handed (usb_packet m) (to_send m) = usb_packet m).
Proof.
  intros Hrun. pose proof (reachable_Inv _ _ _ Hrun) as HInv.
  assert (length (event_buffer (mem m)) = Z.to_nat MAX_EVENTS) as Hlen.
  { destruct (inv_phase _ _ HInv) as [HL | HD].
    - apply (wf_length _ (live_ring _ _ HL)).
    - apply (dead_length _ _ HD). }
  assert (forall l, pc m = l -> l = L186 \/ l = L194 ->
            filling m tr /\ (l = L186 -> i m < to_send m)
            /\ (l = L194 -> i m = to_send m)) as Hfill.
  { intros l Hpc Hl.
    destruct (inv_phase _ _ HInv) as [HL | HD].
    - pose proof (live_label _ _ HL) as Hlab.
      unfold at_label_live in Hlab. rewrite Hpc in Hlab.
      destruct Hl as [-> | ->].
      + destruct Hlab as (Hf & Hlt & _).
        split; [exact Hf |]. split; [auto | discriminate].
      + destruct Hlab as (Hf & Heq).
        split; [exact Hf |]. split; [discriminate | auto].
    - pose proof (dead_label _ _ HD) as Hlab.
      unfold at_label_dead in Hlab. rewrite Hpc in Hlab.
      destruct Hl as [-> | ->]; destruct Hlab. }
  split; [exact Hlen |].
  split; [intros k; rewrite Hlen; apply slot_lt |].
  unfold EVENT_CHUNK_SIZE.
  split.
  - intros Hpc.
    destruct (Hfill _ Hpc (or_introl eq_refl))
      as ((Hi & Hts & _ & chunk & rest & _ & Hc & Hpkt & Hrest) & Hlt & _).
    specialize (Hlt eq_refl). unfold EVENT_CHUNK_SIZE in *.
    assert (length (usb_packet m) = Z.to_nat (to_send m * 4)) as Hl.
    { rewrite Hpkt, length_app, serialize_length. lia. }
    split; [lia |]. split; [exact Hl |].
    rewrite Hl, (u32_small (i m * 4)), u32_small by lia. lia.
  - intros Hpc.
    destruct (Hfill _ Hpc (or_intror eq_refl))
      as ((Hi & Hts & _ & chunk & rest & _ & Hc & Hpkt & Hrest) & _ & Heq).
    specialize (Heq eq_refl). unfold EVENT_CHUNK_SIZE in *.
    assert (length (usb_packet m) = Z.to_nat (to_send m * 4)) as Hl.
    { rewrite Hpkt, length_app, serialize_length. lia. }
    split; [exact Hl |].
    unfold handed. apply take_ge.
    rewrite Hl, (u32_small (to_send m * 4)), u16_small by lia. lia.
Qed.

Lemma accesses_in_bounds_witness :
  let r := Sample.run (take 10 Sample.capture) boot in
  pc (fst r) = L186
  /\ (Z.to_nat (u32 (u32 (i (fst r) * 4) + 3))
      < length (usb_packet (fst r)))%nat.
Proof.
  intros r.
  pose proof (accesses_in_bounds (H := stm32f1_pins)
                (take 10 Sample.capture) (fst r) (snd r)
                (surjective_pairing r)) as (_ & _ & H186 & _).
  assert (pc (fst r) = L186) as Hpc by (vm_compute; reflexivity).
  split; [exact Hpc |].
  apply (H186 Hpc).
Defined.

(** ** Packets *)

Lemma le_bytes_inj w w' :
  word32 w -> word32 w' -> le_bytes w = le_bytes w' -> w = w'.
Proof.
  intros Hw Hw' E.
  pose proof (le_bytes_value w Hw) as V.
  pose proof (le_bytes_value w' Hw') as V'.
  rewrite E in V. unfold le_bytes in V, V'. lia.
Qed.

Lemma serialize_inj a : forall b,
  Forall word32 a -> Forall word32 b -> serialize a = serialize b -> a = b.
Proof.
  induction a as [| w a IH]; intros [| w' b] Ha Hb E.
  - reflexivity.
  - apply (f_equal length) in E. rewrite !serialize_length in E.
    cbn in E. lia.
  - apply (f_equal length) in E. rewrite !serialize_length in E.
    cbn in E. lia.
  - rewrite !serialize_cons in E.
    apply app_inj_1 in E as [E1 E2]; [| rewrite !le_bytes_length; reflexivity].
    inversion Ha; inversion Hb; subst.
    f_equal; [apply le_bytes_inj; assumption | apply IH; assumption].
Qed.

Section Splitting.
Context `{PinMasks}.

Lemma step_short ev m m' t :
  step ev m = (m', t) -> t = [] \/ exists a, t = [a].
Proof.
  destruct ev as [irq pin h ps | e]; cbn [step]; intros E.
  - destruct (irq_enabled irq m); [| inversion E; auto].
    unfold HAL_GPIO_EXTI_Callback, push in E.
    destruct (channel_of_pin pin);
      [destruct (_ <=? _) |]; cbn in E; inversion E; subst; eauto.
  - destruct m as [lbl g t2 t3 e4 e95 nw df ts ix ev pkt last].
    destruct lbl; cbn in E; repeat case_match; inversion E; subst; eauto.
Qed.

(** An action of a trace is the action of one step of the execution. *)
Lemma run_split evs : forall m0 m tr t1 a t2,
  run evs m0 = (m, tr) ->
  tr = t1 ++ a :: t2 ->
  exists evs1 ev evs2 m1 m2,
    evs = evs1 ++ ev :: evs2
    /\ run evs1 m0 = (m1, t1)
    /\ step ev m1 = (m2, [a])
    /\ run evs2 m2 = (m, t2).
Proof.
  induction evs as [| ev evs IH]; intros m0 m tr t1 a t2 Hrun Htr;
    cbn [run] in Hrun.
  - inversion Hrun; subst. destruct t1; discriminate.
  - destruct (step ev m0) as [m1 t] eqn:E1.
    destruct (run evs m1) as [m' t'] eqn:E2.
    injection Hrun as -> <-.
    destruct (step_short _ _ _ _ E1) as [-> | [b ->]].
    + cbn in Htr.
      destruct (IH _ _ _ _ _ _ E2 Htr)
        as (evs1 & ev' & evs2 & n1 & n2 & -> & R1 & S & R2).
      exists (ev :: evs1), ev', evs2, n1, n2.
      split; [reflexivity |].
      split; [| split; assumption].
      cbn [run]. rewrite E1, R1. reflexivity.
    + destruct t1 as [| b' t1]; cbn in Htr; inversion Htr; subst.
      * exists [], ev, evs, m0, m1.
        split; [reflexivity |]. split; [reflexivity |].
        split; assumption.
      * destruct (IH _ _ _ _ _ _ E2 eq_refl)
          as (evs1 & ev' & evs2 & n1 & n2 & -> & R1 & S & R2).
        exists (ev :: evs1), ev', evs2, n1, n2.
        split; [reflexivity |].
        split; [| split; assumption].
        cbn [run]. rewrite E1, R1. reflexivity.
Qed.

End Splitting.

Section Words.
Context `{PinMasks}.

Lemma main_step_stores e m m' t :
  main_step e m = (m', t) -> stored t = [] /\ pushed t = [].
Proof.
  destruct m as [lbl g t2 t3 e4 e95 nw df ts ix ev pkt last].
  destruct lbl; cbn; intros E; repeat case_match; inversion E; subst;
    split; reflexivity.
Qed.

Lemma step_stores_words ev m m' t :
  step ev m = (m', t) -> Forall word32 (stored t).
Proof.
  destruct ev as [irq pin h ps | e]; cbn [step]; intros E.
  - destruct (irq_enabled irq m).
    + unfold HAL_GPIO_EXTI_Callback in E.
      destruct (channel_of_pin pin) as [ch |] eqn:Hch.
      * pose proof (event_word_range (edge_of ps) ch (get_32bit_timer h)
                      (edge_of_range ps) (channel_of_pin_range _ _ Hch)).
        unfold push in E.
        destruct (_ <=? _); cbn in E; inversion E; subst; cbn.
        -- constructor; [assumption | constructor].
        -- constructor.
      * inversion E. constructor.
    + inversion E. constructor.
  - apply main_step_stores in E as [-> _]. constructor.
Qed.

Lemma run_stores_words evs : forall m m' t,
  run evs m = (m', t) -> Forall word32 (stored t).
Proof.
  induction evs as [| ev evs IH]; intros m m' t Hrun; cbn [run] in Hrun.
  - inversion Hrun. constructor.
  - destruct (step ev m) as [m1 t1] eqn:E1.
    destruct (run evs m1) as [m2 t2] eqn:E2.
    inversion Hrun; subst. rewrite stored_app.
    apply Forall_app; split;
      [eapply step_stores_words | eapply IH]; eassumption.
Qed.

(** X7. A packet handed to the transport has between 4 and 64 bytes,
    never none, and determines its events: it is the serialisation of one
    list of 32-bit words only, the events consumed last before the call,
    each of which the handler had stored. *)
Theorem packet_decodes (evs : list event_t) (m : machine)
    (tr t1 t2 : list action) (p : list Z) (r : USBD_StatusTypeDef) :
  run evs boot = (m, tr) ->
  tr = t1 ++ Transmit p r :: t2 ->
  (4 <= length p <= 64)%nat
  /\ exists chunk,
       chunk `suffix_of` popped t1
       /\ Forall word32 chunk
       /\ (forall w, w ∈ chunk -> w ∈ stored t1)
       /\ p = serialize chunk
       /\ forall ws, Forall word32 ws -> serialize ws = p -> ws = chunk.
Proof.
  intros Hrun Htr.
  pose proof (reachable_Inv _ _ _ Hrun) as HInv.
  destruct (inv_wire _ _ HInv _ _ _ _ Htr) as (chunk & Hsuf & Hlen & Hp).
  destruct (run_split _ _ _ _ _ _ _ Hrun Htr)
    as (evs1 & ev & evs2 & m1 & m2 & _ & R1 & _ & _).
  pose proof (run_stores_words _ _ _ _ R1) as Hw.
  pose proof (Inv_prefix _ _ (reachable_Inv _ _ _ R1)) as Hpre.
  assert (forall w, w ∈ chunk -> w ∈ stored t1) as Hin.
  { intros w Hwc.
    destruct Hsuf as [front Hfront]. destruct Hpre as [rest Hrest].
    rewrite Hrest, Hfront. rewrite !elem_of_app. auto. }
  assert (Forall word32 chunk) as Hwc.
  { apply Forall_forall. intros w Hc.
    rewrite Forall_forall in Hw. apply Hw, Hin, Hc. }
  unfold EVENT_CHUNK_SIZE in Hlen.
  split; [rewrite Hp, serialize_length; lia |].
  exists chunk. split; [exact Hsuf |]. split; [exact Hwc |].
  split; [exact Hin |]. split; [exact Hp |].
  intros ws Hws Hser. apply serialize_inj; [assumption | assumption |].
  congruence.
Qed.

End Words.

Lemma packet_decodes_witness :
  exists chunk,
    chunk `suffix_of` [0x800003E8; 0x200007D0]
    /\ Forall word32 chunk
    /\ (forall w, w ∈ chunk -> w ∈ [0x800003E8; 0x200007D0])
    /\ [0xE8; 0x03; 0x00; 0x80; 0xD0; 0x07; 0x00; 0x20] = serialize chunk
    /\ forall ws, Forall word32 ws ->
         serialize ws = [0xE8; 0x03; 0x00; 0x80; 0xD0; 0x07; 0x00; 0x20] ->
         ws = chunk.
Proof.
  apply (packet_decodes (H := stm32f1_pins) Sample.capture
           (fst (Sample.run Sample.capture boot))
           (snd (Sample.run Sample.capture boot))
           [Stored 0x800003E8; Stored 0x200007D0;
            Popped 0x800003E8; Popped 0x200007D0]
           (drop 5 (snd (Sample.run Sample.capture boot)))
           [0xE8; 0x03; 0x00; 0x80; 0xD0; 0x07; 0x00; 0x20] USBD_OK).
  - exact (surjective_pairing _).
  - vm_compute. reflexivity.
Defined.

(** ** The interval test *)

(** X8. The interval test of line 174 measures the milliseconds elapsed
    since the last send also across the wrap of the 32-bit tick: with the
    last send at [last] and [elapsed] milliseconds gone since, the pass
    fires when 16 events or more are queued or [elapsed] is 2 or more,
    wherever [last + elapsed] falls. *)
Theorem interval_across_wrap (diff last elapsed : Z) :
  0 <= last < 2 ^ 32 ->
  0 <= elapsed < 2 ^ 32 ->
  trigger diff (u32 (last + elapsed)) last
  = (EVENT_CHUNK_SIZE <=? diff) || (USB_SEND_INTERVAL_MS <=? elapsed).
Proof.
  intros Hl He. unfold trigger.
  replace (u32 (u32 (last + elapsed) - last)) with elapsed;
    [reflexivity |].
  unfold u32. zsolve.
Qed.

Lemma interval_across_wrap_witness :
  trigger 3 (u32 (0xFFFFFFFF + 2)) 0xFFFFFFFF = true
  /\ trigger 3 (u32 (0xFFFFFFFF + 1)) 0xFFFFFFFF = false.
Proof.
  split.
  - rewrite (interval_across_wrap 3 0xFFFFFFFF 2); [reflexivity | lia | lia].
  - rewrite (interval_across_wrap 3 0xFFFFFFFF 1); [reflexivity | lia | lia].
Defined.

(** ** When the send time is taken *)

Section SendTime.
Context `{PinMasks}.

Lemma run_snoc evs ev m :
  run (evs ++ [ev]) m
  = let '(m1, t1) := run evs m in
    let '(m2, t) := step ev m1 in
    (m2, t1 ++ t).
Proof.
  rewrite run_app. destruct (run evs m) as [m1 t1]. cbn [run].
  destruct (step ev m1) as [m2 t]. rewrite app_nil_r. reflexivity.
Qed.

Lemma main_step_to_L195 e m m' t :
  main_step e m = (m', t) -> pc m' = L195 ->
  pc m = L194 /\ t = [Transmit (handed (usb_packet m) (to_send m)) USBD_OK].
Proof.
  destruct m as [lbl g t2 t3 e4 e95 nw df ts ix ev pkt last].
  destruct lbl; cbn; intros E Hpc; repeat case_match; inversion E; subst;
    try discriminate.
  destruct (CDC_Transmit_FS e); [auto | discriminate].
Qed.

Lemma main_step_last_send e m m' x :
  main_step e m = (m', [LastSend x]) -> pc m = L195 /\ x = now m.
Proof.
  destruct m as [lbl g t2 t3 e4 e95 nw df ts ix ev pkt last].
  destruct lbl; cbn; intros E; repeat case_match; inversion E; subst.
  auto.
Qed.

Lemma main_step_accept e m m' p :
  main_step e m = (m', [Transmit p USBD_OK]) -> pc m' = L195.
Proof.
  destruct m as [lbl g t2 t3 e4 e95 nw df ts ix ev pkt last].
  destruct lbl; cbn; intros E; repeat case_match; inversion E; subst;
    try reflexivity; congruence.
Qed.

Lemma at_L195 evs : forall m tr,
  run evs boot = (m, tr) -> pc m = L195 ->
  exists t0 p pushes,
    tr = t0 ++ Transmit p USBD_OK :: pushes /\ Forall is_push pushes.
Proof.
  induction evs as [| ev evs IH] using rev_ind; intros m tr Hrun Hpc.
  - inversion Hrun; subst. discriminate.
  - rewrite run_snoc in Hrun.
    destruct (run evs boot) as [m1 t1] eqn:E1.
    destruct (step ev m1) as [m2 t] eqn:E2.
    inversion Hrun; subst. clear Hrun.
    destruct ev as [irq pin h ps | e].
    + destruct (irq_frame _ _ _ _ _ _ _ E2)
        as (Hpc' & _ & _ & _ & _ & _ & _ & _ & _ & _ & Hp).
      destruct (IH _ _ eq_refl ltac:(congruence))
        as (t0 & p & pushes & -> & Hpushes).
      exists t0, p, (pushes ++ t).
      split; [rewrite <- app_assoc; reflexivity |].
      apply Forall_app; split; assumption.
    + cbn [step] in E2.
      destruct (main_step_to_L195 _ _ _ _ E2 Hpc) as [_ ->].
      eexists t1, _, []. split; [reflexivity | constructor].
Qed.

Lemma after_L195 evs : forall m0 m t,
  pc m0 = L195 -> run evs m0 = (m, t) ->
  Forall is_push t /\ pc m = L195
  \/ exists pushes rest,
       t = pushes ++ LastSend (now m0) :: rest /\ Forall is_push pushes.
Proof.
  induction evs as [| ev evs IH]; intros m0 m t Hpc Hrun; cbn [run] in Hrun.
  - inversion Hrun; subst. left. split; [constructor | assumption].
  - destruct (step ev m0) as [m1 t1] eqn:E1.
    destruct (run evs m1) as [m2 t2] eqn:E2.
    inversion Hrun; subst. clear Hrun.
    destruct ev as [irq pin h ps | e].
    + destruct (irq_frame _ _ _ _ _ _ _ E1)
        as (Hpc' & Hnow & _ & _ & _ & _ & _ & _ & _ & _ & Hp).
      destruct (IH m1 _ _ ltac:(congruence) E2)
        as [[Hall Hend] | (pushes & rest & -> & Hpushes)].
      * left. split; [apply Forall_app; split; assumption | assumption].
      * right. exists (t1 ++ pushes), rest. rewrite Hnow.
        split; [rewrite <- app_assoc; reflexivity |].
        apply Forall_app; split; assumption.
    + right. cbn [step] in E1.
      destruct m0 as [lbl g t2' t3 e4 e95 nw df ts ix ev pkt last].
      cbn in Hpc. subst lbl. cbn in E1. inversion E1; subst.
      exists [], t2. split; [reflexivity | constructor].
Qed.

(** X9. The time of the last send is taken only when the transport has
    accepted a packet, and each time it has: in the trace of an execution
    a write of [last_usb_send_time] (line 195) comes behind an accepted
    call of line 194 with nothing but pushes of the handler in between,
    and an accepted call is followed, pushes apart, by that write, unless
    the execution ends before it at line 195. *)
Theorem send_time_after_accept (evs : list event_t) (m : machine)
    (tr : list action) :
  run evs boot = (m, tr) ->
  (forall t1 x t2,
     tr = t1 ++ LastSend x :: t2 ->
     exists t0 p pushes,
       t1 = t0 ++ Transmit p USBD_OK :: pushes /\ Forall is_push pushes)
  /\ (forall t1 p t2,
        tr = t1 ++ Transmit p USBD_OK :: t2 ->
        Forall is_push t2 /\ pc m = L195
        \/ exists pushes x rest,
             t2 = pushes ++ LastSend x :: rest /\ Forall is_push pushes).
Proof.
  intros Hrun. split.
  - intros t1 x t2 Htr.
    destruct (run_split _ _ _ _ _ _ _ Hrun Htr)
      as (evs1 & ev & evs2 & m1 & m2 & _ & R1 & S & _).
    destruct ev as [irq pin h ps | e].
    + destruct (irq_frame _ _ _ _ _ _ _ S)
        as (_ & _ & _ & _ & _ & _ & _ & _ & _ & _ & Hp).
      inversion Hp as [| ? ? Hx _]; subst. destruct Hx.
    + cbn [step] in S. apply main_step_last_send in S as [Hpc _].
      exact (at_L195 _ _ _ R1 Hpc).
  - intros t1 p t2 Htr.
    destruct (run_split _ _ _ _ _ _ _ Hrun Htr)
      as (evs1 & ev & evs2 & m1 & m2 & _ & _ & S & R2).
    assert (pc m2 = L195) as Hpc.
    { destruct ev as [irq pin h ps | e].
      - destruct (irq_frame _ _ _ _ _ _ _ S)
          as (_ & _ & _ & _ & _ & _ & _ & _ & _ & _ & Hp).
        inversion Hp as [| ? ? Hx _]; subst. destruct Hx.
      - cbn [step] in S. exact (main_step_accept _ _ _ _ S). }
    destruct (after_L195 _ _ _ _ Hpc R2)
      as [Hl | (pushes & rest & -> & Hpushes)].
    + left. exact Hl.
    + right. exists pushes, (now m2), rest. split; [reflexivity | assumption].
Qed.

End SendTime.

Lemma send_time_after_accept_witness :
  let r := Sample.run Sample.capture boot in
  exists t0 p pushes,
    take 5 (snd r) = t0 ++ Transmit p USBD_OK :: pushes
    /\ Forall is_push pushes.
Proof.
  intros r.
  destruct (send_time_after_accept (H := stm32f1_pins) Sample.capture
              (fst r) (snd r) (surjective_pairing r)) as [Hlast _].
  apply (Hlast (take 5 (snd r)) 5 (drop 6 (snd r))).
  vm_compute. reflexivity.
Defined.

(** ** The byte stream the transport accepts *)

Lemma accepted_app a b : accepted (a ++ b) = accepted a ++ accepted b.
Proof. unfold accepted. apply omap_app. Qed.

Lemma accepted_pushes t : Forall is_push t -> accepted t = [].
Proof.
  induction 1 as [| a t Ha _ IH]; [reflexivity |].
  destruct a; try destruct Ha; exact IH.
Qed.

Section Stream.
Context `{PinMasks}.

Lemma stream_step ev m tr m' t :
  Inv m tr -> stream_inv m tr -> step ev m = (m', t) ->
  stream_inv m' (tr ++ t).
Proof.
  intros HInv (done & cur & Hpop & Hacc & Hcur) E.
  destruct ev as [irq pin h ps | e].
  - destruct (irq_frame _ _ _ _ _ _ _ E)
      as (Hpc & _ & _ & _ & Hi & _ & _ & _ & _ & _ & Hp).
    exists done, cur.
    rewrite popped_app, accepted_app, (popped_pushes _ Hp),
      (accepted_pushes _ Hp), !app_nil_r, Hpc, Hi.
    auto.
  - cbn [step] in E.
    assert (pc m = L186 \/ pc m = L194 ->
            filling m tr
            /\ (pc m = L194 -> i m = to_send m)) as Hfill.
    { intros Hl.
      destruct (inv_phase _ _ HInv) as [HL | HD].
      - pose proof (live_label _ _ HL) as Hlab.
        unfold at_label_live in Hlab.
        destruct Hl as [Hl | Hl]; rewrite Hl in Hlab.
        + split; [apply Hlab | congruence].
        + split; [apply Hlab | intros _; apply Hlab].
      - pose proof (dead_label _ _ HD) as Hlab.
        unfold at_label_dead in Hlab.
        destruct Hl as [Hl | Hl]; rewrite Hl in Hlab; destruct Hlab. }
    destruct m as [lbl g t2 t3 e4 e95 nw df ts ix ev pkt last].
    cbn [pc i to_send usb_packet] in *.
    destruct lbl; cbn [main_step] in E; cbn [in_fire] in Hcur.
    + (* L167 *)
      inversion E; subst. rewrite app_nil_r. exists done, cur. auto.
    + (* L169 *)
      inversion E; subst. rewrite app_nil_r. exists done, cur. auto.
    + (* L174 *)
      repeat case_match; inversion E; subst; rewrite app_nil_r;
        exists done, cur; auto.
    + (* L183 *)
      repeat case_match; inversion E; subst; rewrite app_nil_r;
        exists done, cur; auto.
    + (* L185 *)
      inversion E; subst. rewrite app_nil_r. exists done, cur. auto.
    + (* L186 *)
      inversion E; subst.
      destruct (Hfill (or_introl eq_refl)) as ((Hi & Hts & _) & _).
      cbn [i to_send] in Hi, Hts. unfold EVENT_CHUNK_SIZE in Hts.
      exists done, (cur ++ [ev]).
      rewrite popped_app, accepted_app, app_nil_r. cbn [pc i in_fire].
      split; [rewrite Hpop, <- app_assoc; reflexivity |].
      split; [exact Hacc |].
      rewrite length_app, u32_small by lia. cbn. lia.
    + (* L194 *)
      inversion E; subst. clear E.
      destruct (CDC_Transmit_FS e) eqn:R.
      * (* accepted *)
        destruct (Hfill (or_intror eq_refl))
          as ((Hi & Hts & _ & chunk & rest & Hsuf & Hlen & Hpkt & Hrest)
              & Heq).
        specialize (Heq eq_refl).
        cbn [i to_send usb_packet mem] in *.
        unfold EVENT_CHUNK_SIZE in Hts.
        assert (rest = []) as -> by (apply length_zero_iff_nil; lia).
        rewrite app_nil_r in Hpkt.
        assert (chunk = cur) as ->.
        { destruct Hsuf as [front Hfront]. rewrite Hpop in Hfront.
          symmetry in Hfront.
          apply app_inj_2 in Hfront as [_ ?]; [assumption | lia]. }
        assert (handed pkt ts = serialize cur) as Hh.
        { unfold handed. rewrite Hpkt. apply take_ge.
          rewrite serialize_length.
          rewrite (u32_small (ts * 4)), u16_small by lia. lia. }
        exists (done ++ cur), [].
        rewrite popped_app, accepted_app.
        cbn [accepted omap popped]. rewrite ?app_nil_r.
        split; [exact Hpop |].
        split; [| rewrite decide_False by discriminate; reflexivity].
        rewrite join_app, serialize_app, Hacc, Hh. cbn.
        rewrite app_nil_r. reflexivity.
      * (* busy *)
        exists done, cur.
        rewrite popped_app, accepted_app.
        cbn [accepted omap popped]. rewrite ?app_nil_r.
        rewrite decide_True by reflexivity. auto.
    + (* L195 *)
      inversion E; subst. exists done, cur.
      rewrite popped_app, accepted_app. cbn. rewrite !app_nil_r. auto.
    + (* L200 *)
      repeat case_match; inversion E; subst; rewrite app_nil_r;
        exists done, cur; auto.
    + inversion E; subst. exists done, cur.
      rewrite popped_app, accepted_app. cbn. rewrite !app_nil_r. auto.
    + inversion E; subst. exists done, cur.
      rewrite popped_app, accepted_app. cbn. rewrite !app_nil_r. auto.
    + inversion E; subst. exists done, cur.
      rewrite popped_app, accepted_app. cbn. rewrite !app_nil_r. auto.
    + inversion E; subst. exists done, cur.
      rewrite popped_app, accepted_app. cbn. rewrite !app_nil_r. auto.
    + inversion E; subst. exists done, cur.
      rewrite popped_app, accepted_app. cbn. rewrite !app_nil_r. auto.
    + inversion E; subst. exists done, cur.
      rewrite popped_app, accepted_app. cbn. rewrite !app_nil_r. auto.
Qed.

Lemma reachable_stream evs : forall m tr,
  run evs boot = (m, tr) -> stream_inv m tr.
Proof.
  induction evs as [| ev evs IH] using rev_ind; intros m tr Hrun.
  - inversion Hrun; subst. exists [], []. auto.
  - rewrite run_snoc in Hrun.
    destruct (run evs boot) as [m1 t1] eqn:E1.
    destruct (step ev m1) as [m2 t] eqn:E2.
    inversion Hrun; subst.
    eapply stream_step; [| apply IH; reflexivity | exact E2].
    exact (reachable_Inv _ _ _ E1).
Qed.

(** X10. The packets the transport has accepted, put end to end, are the
    serialisation of the events consumed so far, without the at most 16
    of the fire in progress: no byte is added, lost, repeated or moved,
    whatever the transport answered in between. Outside a fire the two
    streams are equal, and at any time the accepted bytes are the
    beginning of the serialisation of the events stored. *)
Theorem byte_stream (evs : list event_t) (m : machine)
    (tr : list action) :
  run evs boot = (m, tr) ->
  (exists cur,
     cur `suffix_of` popped tr
     /\ (length cur <= Z.to_nat EVENT_CHUNK_SIZE)%nat
     /\ serialize (popped tr) = mjoin (accepted tr) ++ serialize cur)
  /\ (in_fire (pc m) = false ->
      mjoin (accepted tr) = serialize (popped tr))
  /\ mjoin (accepted tr) `prefix_of` serialize (stored tr).
Proof.
  intros Hrun.
  pose proof (reachable_Inv _ _ _ Hrun) as HInv.
  destruct (reachable_stream _ _ _ Hrun) as (done & cur & Hpop & Hacc & Hcur).
  assert (in_fire (pc m) = true -> 0 <= i m <= EVENT_CHUNK_SIZE) as Hi.
  { intros Hf.
    destruct (inv_phase _ _ HInv) as [HL | HD].
    - pose proof (live_label _ _ HL) as Hlab. unfold at_label_live in Hlab.
      destruct (pc m); try discriminate;
        [destruct Hlab as (? & ? & _)
        | destruct Hlab as ((? & ? & _) & _)
        | destruct Hlab as ((? & ? & _) & _)
        | destruct Hlab as ((? & ? & _) & _)]; lia.
    - pose proof (dead_label _ _ HD) as Hlab. unfold at_label_dead in Hlab.
      destruct (pc m); try discriminate; destruct Hlab. }
  split; [| split].
  - exists cur. split; [exists done; exact Hpop |].
    split.
    + destruct (in_fire (pc m)); [specialize (Hi eq_refl) |]; lia.
    + rewrite Hpop, serialize_app, Hacc. reflexivity.
  - intros Hout. rewrite Hout in Hcur.
    assert (cur = []) as -> by (apply length_zero_iff_nil; lia).
    rewrite Hpop, app_nil_r. exact Hacc.
  - destruct (Inv_prefix _ _ HInv) as [rest Hrest].
    rewrite Hrest, Hpop, Hacc, <- app_assoc, serialize_app.
    eexists. reflexivity.
Qed.

End Stream.

Lemma byte_stream_witness :
  mjoin (accepted (snd (Sample.run Sample.capture boot)))
  = serialize (popped (snd (Sample.run Sample.capture boot))).
Proof.
  destruct (byte_stream (H := stm32f1_pins) Sample.capture _ _
              (surjective_pairing (Sample.run Sample.capture boot)))
    as (_ & Hout & _).
  apply Hout. vm_compute. reflexivity.
Defined.

(** ** The events of one packet *)

Lemma since_accept_nil : since_accept [] [] [].
Proof. split; [reflexivity |]. split; [auto | reflexivity]. Qed.

Lemma since_accept_quiet tr t0 fire t :
  since_accept tr t0 fire -> accepted t = [] ->
  since_accept (tr ++ t) t0 (fire ++ t).
Proof.
  intros (-> & Ht0 & Hacc) Ht.
  split; [rewrite app_assoc; reflexivity |]. split; [exact Ht0 |].
  rewrite accepted_app, Hacc, Ht. reflexivity.
Qed.

Lemma since_accept_accepted tr p :
  since_accept (tr ++ [Transmit p USBD_OK]) (tr ++ [Transmit p USBD_OK]) [].
Proof.
  split; [rewrite app_nil_r; reflexivity |].
  split; [right; eauto | reflexivity].
Qed.

(** The last accepted call splits a trace in one way only. *)
Lemma since_accept_unique tr t0 fire t0' fire' :
  since_accept tr t0 fire -> since_accept tr t0' fire' ->
  t0 = t0' /\ fire = fire'.
Proof.
  intros (E & Ht0 & Hacc) (E' & Ht0' & Hacc').
  assert (forall a b, accepted b = [] ->
            length (accepted (a ++ b)) = length (accepted a)) as Hcount.
  { intros a b Hb. rewrite accepted_app, Hb, app_nil_r. reflexivity. }
  assert (forall (x y fx fy : list action),
            x ++ fx = y ++ fy -> accepted fx = [] -> accepted fy = [] ->
            (y = [] \/ exists y' p0, y = y' ++ [Transmit p0 USBD_OK]) ->
            (length y <= length x)%nat) as Hle.
  { intros x y fx fy Exy Hfx Hfy Hy.
    destruct (Nat.le_gt_cases (length y) (length x)) as [? | Hlt];
      [assumption | exfalso].
    destruct Hy as [-> | (y' & p0 & ->)]; [cbn in Hlt; lia |].
    rewrite length_app in Hlt. cbn in Hlt.
    assert (exists mid, y' = x ++ mid) as [mid Hmid].
    { exists (drop (length x) y').
      rewrite <- (take_drop (length x) y') at 1. f_equal.
      transitivity (take (length x) (x ++ fx));
        [| rewrite take_app_length; reflexivity].
      rewrite Exy, <- app_assoc, take_app_le by lia. reflexivity. }
    subst y'. rewrite <- !app_assoc in Exy.
    apply app_inv_head in Exy. subst fx.
    rewrite !accepted_app in Hfx. cbn in Hfx.
    destruct (accepted mid); discriminate. }
  assert (length t0 = length t0') as Hlen.
  { apply Nat.le_antisymm.
    - apply (Hle t0' t0 fire' fire); congruence.
    - apply (Hle t0 t0' fire fire'); congruence. }
  rewrite E in E'.
  apply app_inj_1 in E' as [? ?]; [auto | exact Hlen].
Qed.

Section Fire.
Context `{PinMasks}.

Lemma fire_step ev m tr m' t :
  Inv m tr -> fire_inv m tr -> step ev m = (m', t) ->
  fire_inv m' (tr ++ t).
Proof.
  intros HInv (t0 & fire & Hsa & Hcur) E.
  destruct ev as [irq pin h ps | e].
  - destruct (irq_frame _ _ _ _ _ _ _ E)
      as (Hpc & _ & _ & _ & Hi & _ & _ & _ & _ & _ & Hp).
    exists t0, (fire ++ t).
    split; [apply since_accept_quiet;
            [exact Hsa | apply accepted_pushes; exact Hp] |].
    rewrite popped_app, (popped_pushes _ Hp), app_nil_r, Hpc, Hi.
    exact Hcur.
  - cbn [step] in E.
    assert (pc m = L186 -> 0 <= i m < 16) as Hrange.
    { intros Hl.
      destruct (inv_phase _ _ HInv) as [HL | HD].
      - pose proof (live_label _ _ HL) as Hlab.
        unfold at_label_live in Hlab. rewrite Hl in Hlab.
        destruct Hlab as ((? & ? & _) & ? & _).
        unfold EVENT_CHUNK_SIZE in *. lia.
      - pose proof (dead_label _ _ HD) as Hlab.
        unfold at_label_dead in Hlab. rewrite Hl in Hlab. destruct Hlab. }
    assert (forall a, accepted [a] = [] -> popped [a] = [] ->
              in_fire (pc m') = in_fire (pc m) ->
              (in_fire (pc m) = true -> i m' = i m) ->
              fire_inv m' (tr ++ [a])) as Hmark.
    { intros a Ha Hpa Hf Hi. exists t0, (fire ++ [a]).
      split; [apply since_accept_quiet; assumption |].
      rewrite popped_app, Hpa, app_nil_r, Hf.
      destruct (in_fire (pc m)); [rewrite Hi by reflexivity |]; exact Hcur. }
    assert (in_fire (pc m') = in_fire (pc m) ->
            (in_fire (pc m) = true -> i m' = i m) ->
            fire_inv m' (tr ++ [])) as Hsilent.
    { intros Hf Hi. rewrite app_nil_r. exists t0, fire.
      split; [exact Hsa |]. rewrite Hf.
      destruct (in_fire (pc m)); [rewrite Hi by reflexivity |]; exact Hcur. }
    destruct m as [lbl g t2 t3 e4 e95 nw df ts ix ev pkt last].
    cbn [pc i] in *.
    destruct lbl; cbn [main_step] in E; cbn [in_fire] in Hcur.
    + (* L167 *) injection E as <- <-. apply Hsilent; [reflexivity | auto].
    + (* L169 *) injection E as <- <-. apply Hsilent; [reflexivity | auto].
    + (* L174 *)
      repeat case_match; injection E as <- <-;
        try (apply Hsilent; [reflexivity | discriminate]).
      rewrite app_nil_r. exists t0, fire. split; [exact Hsa |].
      cbn [pc in_fire i]. exact Hcur.
    + (* L183 *)
      repeat case_match; injection E as <- <-;
        (apply Hsilent; [reflexivity | auto]).
    + (* L185 *) injection E as <- <-. apply Hsilent; [reflexivity | auto].
    + (* L186 *)
      injection E as <- <-. specialize (Hrange eq_refl).
      exists t0, (fire ++ [Popped ev]).
      split; [apply since_accept_quiet; [exact Hsa | reflexivity] |].
      rewrite popped_app, length_app.
      change (popped [Popped ev]) with [ev]. cbn [pc i in_fire length].
      rewrite u32_small by lia. lia.
    + (* L194 *)
      injection E as <- <-.
      destruct (CDC_Transmit_FS e) eqn:R.
      * exists (tr ++ [Transmit (handed pkt ts) USBD_OK]), [].
        split; [apply since_accept_accepted |].
        rewrite decide_False by discriminate. reflexivity.
      * rewrite decide_True by reflexivity.
        exists t0, (fire ++ [Transmit (handed pkt ts) USBD_BUSY]).
        split; [apply since_accept_quiet; [exact Hsa | reflexivity] |].
        rewrite popped_app. cbn [popped omap]. rewrite app_nil_r.
        exact Hcur.
    + (* L195 *) injection E as <- <-. apply Hmark; auto; discriminate.
    + (* L200 *)
      repeat case_match; injection E as <- <-;
        (apply Hsilent; [reflexivity | discriminate]).
    + injection E as <- <-. apply Hmark; auto; discriminate.
    + injection E as <- <-. apply Hmark; auto; discriminate.
    + injection E as <- <-. apply Hmark; auto; discriminate.
    + injection E as <- <-. apply Hmark; auto; discriminate.
    + injection E as <- <-. apply Hmark; auto; discriminate.
    + injection E as <- <-. apply Hmark; auto; discriminate.
Qed.

Lemma reachable_fire evs : forall m tr,
  run evs boot = (m, tr) -> fire_inv m tr.
Proof.
  induction evs as [| ev evs IH] using rev_ind; intros m tr Hrun.
  - inversion Hrun; subst. exists [], []. split; [apply since_accept_nil |].
    reflexivity.
  - rewrite run_snoc in Hrun.
    destruct (run evs boot) as [m1 t1] eqn:E1.
    destruct (step ev m1) as [m2 t] eqn:E2.
    inversion Hrun; subst.
    eapply fire_step; [| apply IH; reflexivity | exact E2].
    exact (reachable_Inv _ _ _ E1).
Qed.

Lemma main_step_transmit e m m' p r :
  main_step e m = (m', [Transmit p r]) ->
  pc m = L194 /\ p = handed (usb_packet m) (to_send m).
Proof.
  destruct m as [lbl g t2 t3 e4 e95 nw df ts ix ev pkt last].
  destruct lbl; cbn; intros E; repeat case_match; inversion E; subst; auto.
Qed.

(** C7. Every packet handed to the transport, in any execution from
    boot, is the concatenation of the four little-endian bytes of each of
    the events of its fire: the events consumed since the last call the
    transport accepted, all of them, between 1 and 16, in the order they
    were consumed, which is the order they were stored in. Its length is
    four times their number, a multiple of 4, and its k-th group of four
    bytes is the encoding, least significant byte first, of the k-th of
    them, the stored event that has as many before it as were consumed
    in earlier fires plus k. *)
Theorem wire_format (evs : list event_t) (m : machine)
    (tr t1 t2 : list action) (p : list Z) (r : USBD_StatusTypeDef) :
  run evs boot = (m, tr) ->
  tr = t1 ++ Transmit p r :: t2 ->
  exists t0 fire,
    since_accept t1 t0 fire
    /\ (forall t0' fire', since_accept t1 t0' fire' -> fire' = fire)
    /\ (0 < length (popped fire) <= Z.to_nat EVENT_CHUNK_SIZE)%nat
    /\ p = serialize (popped fire)
    /\ length p = (4 * length (popped fire))%nat
    /\ (length p mod 4 = 0)%nat
    /\ forall k w,
         popped fire !! k = Some w ->
         stored t1 !! (length (popped t0) + k)%nat = Some w
         /\ take 4 (drop (4 * k) p)
            = [ w mod 256; (w / 2 ^ 8) mod 256; (w / 2 ^ 16) mod 256;
                (w / 2 ^ 24) mod 256 ].
Proof.
  intros Hrun Htr.
  destruct (run_split _ _ _ _ _ _ _ Hrun Htr)
    as (evs1 & ev & evs2 & m1 & m2 & _ & R1 & S & _).
  pose proof (reachable_Inv _ _ _ R1) as HInv.
  destruct (reachable_fire _ _ _ R1) as (t0 & fire & Hsa & Hcur).
  destruct ev as [irq pin h ps | e].
  { destruct (irq_frame _ _ _ _ _ _ _ S)
      as (_ & _ & _ & _ & _ & _ & _ & _ & _ & _ & Hp).
    inversion Hp as [| ? ? Hx _]; subst. destruct Hx. }
  cbn [step] in S. apply main_step_transmit in S as [Hpc ->].
  rewrite Hpc in Hcur. cbn [in_fire] in Hcur.
  destruct (inv_phase _ _ HInv) as [HL | HD];
    [| pose proof (dead_label _ _ HD) as Hlab;
       unfold at_label_dead in Hlab; rewrite Hpc in Hlab; destruct Hlab].
  pose proof (live_label _ _ HL) as Hlab.
  unfold at_label_live in Hlab. rewrite Hpc in Hlab.
  destruct Hlab
    as ((Hi & Hts & _ & chunk & rest & Hsuf & Hlen & Hpkt & Hrest) & Heq).
  unfold EVENT_CHUNK_SIZE in *.
  assert (rest = []) as -> by (apply length_zero_iff_nil; lia).
  rewrite app_nil_r in Hpkt.
  assert (chunk = popped fire) as ->.
  { destruct Hsa as (E & _ & _).
    destruct Hsuf as [front Hfront].
    rewrite E, popped_app in Hfront. symmetry in Hfront.
    apply app_inj_2 in Hfront as [_ ?]; [assumption | lia]. }
  assert (handed (usb_packet m1) (to_send m1) = serialize (popped fire))
    as ->.
  { unfold handed. rewrite Hpkt. apply take_ge.
    rewrite serialize_length.
    rewrite (u32_small (to_send m1 * 4)), u16_small by lia. lia. }
  exists t0, fire.
  split; [exact Hsa |].
  split; [intros t0' fire' Hsa';
          apply (since_accept_unique _ _ _ _ _ Hsa' Hsa) |].
  split; [lia |]. split; [reflexivity |].
  rewrite serialize_length.
  split; [reflexivity |].
  split; [rewrite Nat.mul_comm; apply Nat.Div0.mod_mul |].
  intros k w Hk. split; [| apply serialize_group; exact Hk].
  destruct (Inv_prefix _ _ HInv) as [more Hmore].
  destruct Hsa as (E & _ & _).
  rewrite Hmore. rewrite E at 1. rewrite popped_app, <- app_assoc.
  rewrite lookup_app_r by lia.
  replace (length (popped t0) + k - length (popped t0))%nat with k by lia.
  apply lookup_app_l_Some. exact Hk.
Qed.

End Fire.

Lemma wire_format_witness :
  exists t0 fire,
    since_accept [Stored 0x800003E8; Stored 0x200007D0;
                  Popped 0x800003E8; Popped 0x200007D0] t0 fire
    /\ (forall t0' fire',
          since_accept [Stored 0x800003E8; Stored 0x200007D0;
                        Popped 0x800003E8; Popped 0x200007D0] t0' fire' ->
          fire' = fire)
    /\ (0 < length (popped fire) <= Z.to_nat EVENT_CHUNK_SIZE)%nat
    /\ [0xE8; 0x03; 0x00; 0x80; 0xD0; 0x07; 0x00; 0x20]
       = serialize (popped fire)
    /\ length [0xE8; 0x03; 0x00; 0x80; 0xD0; 0x07; 0x00; 0x20]
       = (4 * length (popped fire))%nat
    /\ (length [0xE8; 0x03; 0x00; 0x80; 0xD0; 0x07; 0x00; 0x20] mod 4
        = 0)%nat
    /\ forall k w,
         popped fire !! k = Some w ->
         stored [Stored 0x800003E8; Stored 0x200007D0;
                 Popped 0x800003E8; Popped 0x200007D0]
           !! (length (popped t0) + k)%nat = Some w
         /\ take 4 (drop (4 * k)
                      [0xE8; 0x03; 0x00; 0x80; 0xD0; 0x07; 0x00; 0x20])
            = [ w mod 256; (w / 2 ^ 8) mod 256; (w / 2 ^ 16) mod 256;
                (w / 2 ^ 24) mod 256 ].
Proof.
  apply (@wire_format stm32f1_pins Sample.capture
           (fst (Sample.run Sample.capture boot))
           (snd (Sample.run Sample.capture boot))
           [Stored 0x800003E8; Stored 0x200007D0;
            Popped 0x800003E8; Popped 0x200007D0]
           [LastSend 5]
           [0xE8; 0x03; 0x00; 0x80; 0xD0; 0x07; 0x00; 0x20] USBD_OK).
  - apply surjective_pairing.
  - vm_compute. reflexivity.
Defined.

(** ** What keeps the capture running *)

Section Running.
Context `{PinMasks}.

Lemma running_step ev m m' t :
  below_threshold ev ->
  tim2_run m = true -> tim3_run m = true ->
  nvic_exti4 m = true -> nvic_exti9_5 m = true ->
  ~ stopping m -> pc m <> L207 ->
  step ev m = (m', t) ->
  tim2_run m' = true /\ tim3_run m' = true
  /\ nvic_exti4 m' = true /\ nvic_exti9_5 m' = true
  /\ ~ stopping m' /\ pc m' <> L207
  /\ Forall (fun a => ~ is_stop a) t.
Proof.
  intros Hev H2 H3 H4 H95 Hns H207 E.
  destruct ev as [irq pin h ps | e].
  - cbn [step] in E.
    destruct (irq_enabled irq m).
    + destruct (HAL_GPIO_EXTI_Callback pin h ps (mem m)) as [g tr] eqn:C.
      inversion E; subst. cbn.
      repeat (split; [assumption |]).
      unfold HAL_GPIO_EXTI_Callback, push in C.
      destruct (channel_of_pin pin);
        [destruct (_ <=? _) |]; inversion C; subst;
        repeat constructor; auto.
    + inversion E; subst. repeat (split; [assumption |]). constructor.
  - cbn [step below_threshold] in E, Hev.
    destruct m as [lbl g t2 t3 e4 e95 nw df ts ix ev pkt last].
    cbn in H2, H3, H4, H95, Hns, H207. subst.
    destruct lbl; cbn [main_step] in E;
      try (exfalso; apply Hns; exact I);
      try (exfalso; apply H207; reflexivity).
    all: try (apply Z.leb_gt in Hev; rewrite Hev in E).
    all: repeat case_match; inversion E; subst; cbn;
      repeat (split; [first [reflexivity | discriminate | tauto] |]);
      repeat constructor; auto.
Qed.

Lemma running_run evs : forall m m' t,
  Forall below_threshold evs ->
  tim2_run m = true -> tim3_run m = true ->
  nvic_exti4 m = true -> nvic_exti9_5 m = true ->
  ~ stopping m -> pc m <> L207 ->
  run evs m = (m', t) ->
  tim2_run m' = true /\ tim3_run m' = true
  /\ nvic_exti4 m' = true /\ nvic_exti9_5 m' = true
  /\ ~ stopping m' /\ pc m' <> L207
  /\ Forall (fun a => ~ is_stop a) t.
Proof.
  induction evs as [| ev evs IH]; intros m m' t Hall H2 H3 H4 H95 Hns H207 E;
    cbn [run] in E.
  - inversion E; subst. repeat (split; [assumption |]). constructor.
  - inversion Hall as [| ? ? Hev Hevs]; subst.
    destruct (step ev m) as [m1 t1] eqn:E1.
    destruct (run evs m1) as [m2 t2] eqn:E2.
    inversion E; subst.
    destruct (running_step _ _ _ _ Hev H2 H3 H4 H95 Hns H207 E1)
      as (A2 & A3 & A4 & A95 & Ans & A207 & At).
    destruct (IH _ _ _ Hevs A2 A3 A4 A95 Ans A207 E2)
      as (B2 & B3 & B4 & B95 & Bns & B207 & Bt).
    repeat (split; [assumption |]).
    apply Forall_app; split; assumption.
Qed.

Lemma running_live evs m tr :
  Forall below_threshold evs -> run evs boot = (m, tr) -> Live m tr.
Proof.
  intros Hall Hrun.
  destruct (running_run evs boot m tr Hall eq_refl eq_refl eq_refl eq_refl
              (fun x => x) ltac:(discriminate) Hrun)
    as (_ & _ & _ & _ & _ & _ & At).
  destruct (inv_phase _ _ (reachable_Inv _ _ _ Hrun)) as [HL | HD].
  - exact HL.
  - exfalso. pose proof (dead_trace _ _ HD) as Hin.
    rewrite Forall_forall in At. exact (At _ Hin I).
Qed.

(** X11. Only a tick of [2^29] or more read at line 200 ends the
    capture: in an execution in which every read of line 200 is below
    [2^29], whatever else happens, no timer is stopped, no interrupt line
    is disabled and no cursor is reset; both timers run and both lines are
    enabled in the state reached, the ring is well formed and holds in
    order the stored events not yet consumed. *)
Theorem capture_keeps_running (evs : list event_t) (m : machine)
    (tr : list action) :
  Forall below_threshold evs ->
  run evs boot = (m, tr) ->
  Forall (fun a => ~ is_stop a) tr
  /\ tim2_run m = true /\ tim3_run m = true
  /\ nvic_exti4 m = true /\ nvic_exti9_5 m = true
  /\ ring_wf (mem m)
  /\ popped tr ++ pending (mem m) = stored tr.
Proof.
  intros Hall Hrun.
  destruct (running_run evs boot m tr Hall eq_refl eq_refl eq_refl eq_refl
              (fun x => x) ltac:(discriminate) Hrun)
    as (A2 & A3 & A4 & A95 & _ & _ & At).
  split; [exact At |]. repeat (split; [assumption |]).
  pose proof (running_live _ _ _ Hall Hrun) as HL.
  split; [apply HL | apply HL].
Qed.

End Running.

Lemma capture_keeps_running_witness :
  Forall (fun a => ~ is_stop a) (snd (Sample.run Sample.capture boot))
  /\ tim2_run (fst (Sample.run Sample.capture boot)) = true
  /\ tim3_run (fst (Sample.run Sample.capture boot)) = true
  /\ nvic_exti4 (fst (Sample.run Sample.capture boot)) = true
  /\ nvic_exti9_5 (fst (Sample.run Sample.capture boot)) = true
  /\ ring_wf (mem (fst (Sample.run Sample.capture boot)))
  /\ popped (snd (Sample.run Sample.capture boot))
     ++ pending (mem (fst (Sample.run Sample.capture boot)))
     = stored (snd (Sample.run Sample.capture boot)).
Proof.
  refine (capture_keeps_running (H := stm32f1_pins) Sample.capture _ _ _
            (surjective_pairing (Sample.run Sample.capture boot))).
  unfold Sample.capture.
  apply Forall_app. split.
  - repeat constructor.
  - apply Forall_fmap, Forall_forall. intros e He.
    apply elem_of_replicate in He as [-> _].
    vm_compute. reflexivity.
Defined.

(** ** Draining a backlog *)

Lemma popped_Popped l : popped (Popped <$> l) = l.
Proof. induction l as [| x l IH]; [reflexivity | cbn; f_equal; exact IH]. Qed.

Lemma accepted_Popped l : accepted (Popped <$> l) = [].
Proof. induction l as [| x l IH]; [reflexivity | exact IH]. Qed.

Lemma popped_busy n p : popped (replicate n (Transmit p USBD_BUSY)) = [].
Proof. induction n as [| n IH]; [reflexivity | exact IH]. Qed.

Lemma accepted_busy n p : accepted (replicate n (Transmit p USBD_BUSY)) = [].
Proof. induction n as [| n IH]; [reflexivity | exact IH]. Qed.

Lemma pass_trace_reads chunk busy x :
  chunk <> [] ->
  popped (pass_trace chunk busy x) = chunk
  /\ accepted (pass_trace chunk busy x) = [serialize chunk].
Proof.
  intros Hne. unfold pass_trace. destruct chunk as [| w chunk]; [done |].
  rewrite !popped_app, !accepted_app, popped_Popped, accepted_Popped,
    popped_busy, accepted_busy.
  cbn. rewrite app_nil_r. auto.
Qed.

Section Backlog.
Context `{PinMasks}.

(** X12. A backlog goes out 16 events at a time whatever the clock
    reads: when at least [16 * n] events are pending, [n] passes of the
    loop body, with the tick at line 200 below [2^29] and the transport
    busy any number of times, consume the [16 * n] oldest events in order,
    get exactly [n] packets of 64 bytes accepted, which put end to end are
    the serialisation of those events, and leave the others pending. *)
Theorem backlog_drain (ps : list (input * nat)) (m : machine) :
  pc m = L167 ->
  ring_wf (mem m) ->
  Forall (fun p => get_32bit_timer (TIM (fst p)) < 2 ^ 29) ps ->
  EVENT_CHUNK_SIZE * Z.of_nat (length ps) <= occupancy (mem m) ->
  let n := (16 * length ps)%nat in
  exists m' tr,
    passes ps m = (m', tr)
    /\ pc m' = L167 /\ ring_wf (mem m')
    /\ popped tr = take n (pending (mem m))
    /\ pending (mem m') = drop n (pending (mem m))
    /\ mjoin (accepted tr) = serialize (take n (pending (mem m)))
    /\ length (accepted tr) = length ps
    /\ Forall (fun p => length p = 64%nat) (accepted tr).
Proof.
  revert m. induction ps as [| [e busy] ps IH]; intros m Hpc Hwf Hall Hocc n.
  - exists m, []. cbn. rewrite drop_0.
    repeat (split; [first [reflexivity | assumption] |]). constructor.
  - inversion Hall as [| ? ? He Hps]; subst. cbn [fst] in He.
    unfold EVENT_CHUNK_SIZE in *. cbn [length] in Hocc.
    assert (fire_size e m = 16) as Hfs.
    { unfold fire_size, trigger, EVENT_CHUNK_SIZE.
      replace (16 <=? occupancy (mem m)) with true
        by (symmetry; apply Z.leb_le; lia).
      cbn. rewrite MIN_min. lia. }
    destruct (quiet_pass e busy m Hpc Hwf He)
      as (m1 & E1 & Hpc1 & Hwf1 & Hp1 & Ho1 & Hl1 & _).
    rewrite Hfs in *. change (Z.to_nat 16) with 16%nat in *.
    assert (take 16 (pending (mem m)) <> []) as Hne.
    { intros E. rewrite E in Hl1. discriminate. }
    destruct (pass_trace_reads _ busy (u32 (HAL_GetTick e)) Hne)
      as [Hpop1 Hacc1].
    destruct (IH m1 Hpc1 Hwf1 Hps ltac:(lia))
      as (m2 & t2 & E2 & Hpc2 & Hwf2 & Hpop2 & Hp2 & Hacc2 & Hlen2 & Hsz2).
    exists m2, (pass_trace (take 16 (pending (mem m))) busy
                  (u32 (HAL_GetTick e)) ++ t2).
    cbn [passes]. rewrite Hfs, E1, E2.
    split; [reflexivity |]. split; [exact Hpc2 |]. split; [exact Hwf2 |].
    rewrite popped_app, accepted_app, Hpop1, Hacc1, Hpop2, Hp2, Hp1.
    rewrite join_app, Hacc2, Hp1, length_app, Hlen2.
    cbn [mjoin list_join length]. rewrite app_nil_r, <- serialize_app.
    subst n. cbn [length].
    replace (16 * S (length ps))%nat with (16 + 16 * length ps)%nat by lia.
    rewrite take_take_drop, drop_drop.
    repeat (split; [reflexivity |]).
    apply Forall_app. split; [| exact Hsz2].
    constructor; [| constructor].
    rewrite serialize_length, Hl1. reflexivity.
Qed.

End Backlog.

Lemma backlog_drain_witness :
  exists m' tr,
    passes (H := stm32f1_pins)
      [(Sample.env 0 USBD_OK 0, 1%nat); (Sample.env 0 USBD_OK 0, 0%nat)]
      (fst (Sample.run Sample.forty boot)) = (m', tr)
    /\ popped tr = take 32 (pending (mem (fst (Sample.run Sample.forty boot))))
    /\ length (accepted tr) = 2%nat
    /\ length (pending (mem m')) = 8%nat.
Proof.
  destruct (backlog_drain (H := stm32f1_pins)
              [(Sample.env 0 USBD_OK 0, 1%nat); (Sample.env 0 USBD_OK 0, 0%nat)]
              (fst (Sample.run Sample.forty boot)))
    as (m' & tr & E & _ & _ & Hpop & Hpend & _ & Hlen & _).
  - vm_compute. reflexivity.
  - apply (live_ring _ (snd (Sample.run Sample.forty boot))).
    apply (running_live (H := stm32f1_pins) Sample.forty);
      [| exact (surjective_pairing _)].
    apply Forall_fmap, Forall_forall. intros k _. exact I.
  - repeat constructor.
  - vm_compute. discriminate.
  - exists m', tr. split; [exact E |]. split; [exact Hpop |].
    split; [exact Hlen |]. rewrite Hpend. vm_compute. reflexivity.
Defined.

(** ** Start-up *)

Import Startup.

Section StartupFacts.
Context `{PinMasks}.

Lemma serve_frame s x :
  exti4 (serve s x) = exti4 s /\ exti9_5 (serve s x) = exti9_5 s
  /\ primask (serve s x) = primask s
  /\ tim2 (serve s x) = tim2 s /\ tim3 (serve s x) = tim3 s
  /\ made (serve s x) = made s.
Proof.
  unfold serve. destruct (negb (primask s) && _); [| auto 10].
  destruct (HAL_GPIO_EXTI_Callback _ _ _ _). cbn. auto 10.
Qed.

Lemma serves_frame xs : forall s,
  exti4 (foldl serve s xs) = exti4 s
  /\ exti9_5 (foldl serve s xs) = exti9_5 s
  /\ primask (foldl serve s xs) = primask s
  /\ tim2 (foldl serve s xs) = tim2 s /\ tim3 (foldl serve s xs) = tim3 s
  /\ made (foldl serve s xs) = made s.
Proof.
  induction xs as [| x xs IH]; intros s; cbn [foldl]; [auto 10 |].
  destruct (IH (serve s x)) as (A & B & C & D & E & F).
  destruct (serve_frame s x) as (A' & B' & C' & D' & E' & F').
  repeat split; congruence.
Qed.

Lemma after_made hal c s : made (after hal c s) = made s ++ [c].
Proof.
  unfold after. destruct (serves_frame (fst (hal c))
    (effect c (snd (hal c))
       (State (ram s) (exti4 s) (exti9_5 s) (primask s) (tim2 s)
          (tim3 s) (made s ++ [c]) (log s))))
    as (_ & _ & _ & _ & _ & ->).
  destruct c as [| | | | | | | | | [|] | | | | | | [|] |]; reflexivity.
Qed.

Lemma after_exti4 hal c s :
  exti4 (after hal c s)
  = if decide (c = HAL_NVIC_EnableIRQ EXTI4_IRQn) then true else exti4 s.
Proof.
  unfold after. destruct (serves_frame (fst (hal c))
    (effect c (snd (hal c))
       (State (ram s) (exti4 s) (exti9_5 s) (primask s) (tim2 s)
          (tim3 s) (made s ++ [c]) (log s))))
    as (-> & _).
  destruct c as [| | | | | | | | | [|] | | | | | | [|] |]; reflexivity.
Qed.

Lemma after_exti9_5 hal c s :
  exti9_5 (after hal c s)
  = if decide (c = HAL_NVIC_EnableIRQ EXTI9_5_IRQn) then true
    else exti9_5 s.
Proof.
  unfold after. destruct (serves_frame (fst (hal c))
    (effect c (snd (hal c))
       (State (ram s) (exti4 s) (exti9_5 s) (primask s) (tim2 s)
          (tim3 s) (made s ++ [c]) (log s))))
    as (_ & -> & _).
  destruct c as [| | | | | | | | | [|] | | | | | | [|] |]; reflexivity.
Qed.

Lemma after_primask hal c s :
  primask (after hal c s)
  = if decide (c = __disable_irq) then true else primask s.
Proof.
  unfold after. destruct (serves_frame (fst (hal c))
    (effect c (snd (hal c))
       (State (ram s) (exti4 s) (exti9_5 s) (primask s) (tim2 s)
          (tim3 s) (made s ++ [c]) (log s))))
    as (_ & _ & -> & _).
  destruct c as [| | | | | | | | | [|] | | | | | | [|] |]; reflexivity.
Qed.

Lemma after_tim2 hal c s :
  tim2 (after hal c s)
  = bool_decide (c = HAL_TIM_Base_Start htim2)
    && bool_decide (snd (hal c) = HAL_OK)
    || tim2 s.
Proof.
  unfold after. destruct (serves_frame (fst (hal c))
    (effect c (snd (hal c))
       (State (ram s) (exti4 s) (exti9_5 s) (primask s) (tim2 s)
          (tim3 s) (made s ++ [c]) (log s))))
    as (_ & _ & _ & -> & _).
  destruct c as [| | | | | | | | | [|] | | | | | | [|] |];
    try reflexivity;
    cbn [effect tim2 tim3];
    (destruct (decide (snd (hal _) = HAL_OK)) as [E | E];
     [rewrite (bool_decide_eq_true_2 _ E)
     | rewrite (bool_decide_eq_false_2 _ E)];
     reflexivity).
Qed.

Lemma after_tim3 hal c s :
  tim3 (after hal c s)
  = bool_decide (c = HAL_TIM_Base_Start htim3)
    && bool_decide (snd (hal c) = HAL_OK)
    || tim3 s.
Proof.
  unfold after. destruct (serves_frame (fst (hal c))
    (effect c (snd (hal c))
       (State (ram s) (exti4 s) (exti9_5 s) (primask s) (tim2 s)
          (tim3 s) (made s ++ [c]) (log s))))
    as (_ & _ & _ & _ & -> & _).
  destruct c as [| | | | | | | | | [|] | | | | | | [|] |];
    try reflexivity;
    cbn [effect tim2 tim3];
    (destruct (decide (snd (hal _) = HAL_OK)) as [E | E];
     [rewrite (bool_decide_eq_true_2 _ E)
     | rewrite (bool_decide_eq_false_2 _ E)];
     reflexivity).
Qed.

Lemma reach_reset hal : reach hal reset.
Proof. exists []. split; [constructor | reflexivity]. Qed.

Lemma arrived_mono hal s s' ev :
  (forall c, c ∈ made s -> c ∈ made s') ->
  arrived hal s ev -> arrived hal s' ev.
Proof. intros Hsub (c & x & Hc & Hx & E). exists c, x. auto. Qed.

Lemma reach_serve hal c s x :
  c ∈ made s -> x ∈ fst (hal c) -> reach hal s -> reach hal (serve s x).
Proof.
  intros Hc Hx (evs & Harr & Hrun).
  destruct (serve_frame s x) as (_ & _ & _ & _ & _ & Hmade).
  unfold serve in *.
  destruct (negb (primask s) && _) eqn:G.
  - destruct (HAL_GPIO_EXTI_Callback (GPIO_Pin x) (ticks x) (pin_state x)
                (ram s)) as [g tr] eqn:C.
    exists (evs ++ [Irq_of x]). cbn [ram log made] in *. split.
    + apply Forall_app. split.
      * eapply Forall_impl; [exact Harr |].
        intros ev. apply arrived_mono. intros c'. cbn. auto.
      * constructor; [| constructor].
        exists c, x. cbn. auto.
    + rewrite run_snoc, Hrun. unfold Irq_of. cbn [step irq_enabled].
      assert (irq_enabled (line x)
                (Machine L167 (ram s) true true true true 0 0 0 0 0 [] 0)
              = true) as -> by (destruct (line x); reflexivity).
      cbn [mem]. rewrite C. reflexivity.
  - exists evs. auto.
Qed.

Lemma reach_serves hal c xs : forall s,
  c ∈ made s -> (forall x, x ∈ xs -> x ∈ fst (hal c)) ->
  reach hal s -> reach hal (foldl serve s xs).
Proof.
  induction xs as [| x xs IH]; intros s Hc Hxs Hr; cbn [foldl]; [exact Hr |].
  apply IH.
  - destruct (serve_frame s x) as (_ & _ & _ & _ & _ & ->). exact Hc.
  - intros y Hy. apply Hxs. apply elem_of_cons. auto.
  - apply (reach_serve hal c); [exact Hc | | exact Hr].
    apply Hxs. apply elem_of_cons. auto.
Qed.

Lemma reach_after hal c s : reach hal s -> reach hal (after hal c s).
Proof.
  intros (evs & Harr & Hrun). unfold after.
  apply (reach_serves hal c).
  - destruct c as [| | | | | | | | | [|] | | | | | | [|] |]; cbn;
      apply elem_of_app; right; apply list_elem_of_singleton; reflexivity.
  - auto.
  - exists evs. split.
    + eapply Forall_impl; [exact Harr |].
      intros ev. apply arrived_mono. intros c' Hc'.
      destruct c as [| | | | | | | | | [|] | | | | | | [|] |]; cbn;
        apply elem_of_app; auto.
    + destruct c as [| | | | | | | | | [|] | | | | | | [|] |]; exact Hrun.
Qed.

Lemma serve_masked s x : primask s = true -> serve s x = s.
Proof. intros Hm. unfold serve. rewrite Hm. reflexivity. Qed.

Ltac unfold_init :=
  unfold main_init, SystemClock_Config, MX_TIM2_Init, MX_TIM3_Init,
    MX_GPIO_Init, checked, Error_Handler, bind, ret, invoke, hang;
  cbv beta iota.

Ltac test_passes Hok :=
  match goal with
  | |- context [decide (snd (?hal ?c) <> HAL_OK)] =>
      let Hbad := fresh "Hbad" in
      destruct (decide (snd (hal c) <> HAL_OK)) as [Hbad | _];
      [exfalso; apply Hbad, Hok; unfold tested; repeat constructor
      | cbv beta iota]
  end.

(** X13. When each of the nine calls whose result the start-up tests
    returns [HAL_OK], whatever the other calls return and whatever edges
    arrive, [main] reaches its loop having made its 21 calls in order,
    with interrupts unmasked and both lines enabled. The results of the
    two [HAL_TIM_Base_Start] are not looked at (lines 156-157): the loop
    is entered also when one does not return [HAL_OK], and a counter is
    then running exactly when its call returned [HAL_OK]. The two lines
    are enabled (lines 379, 382) before the timers are configured and
    started, so edges are served during the start-up: the globals and
    what the handler did are what interrupts alone, each an edge that
    arrived during a call of the start-up, produce from [boot], and with
    both counters started the entry state is that state. *)
Theorem startup_enters_loop (hal : hal_env) :
  Forall (fun c => snd (hal c) = HAL_OK) tested ->
  exists s evs,
    main_init hal reset = (Some tt, s)
    /\ made s = all_calls
    /\ primask s = false
    /\ exti4 s = true /\ exti9_5 s = true
    /\ (tim2 s = true <-> snd (hal (HAL_TIM_Base_Start htim2)) = HAL_OK)
    /\ (tim3 s = true <-> snd (hal (HAL_TIM_Base_Start htim3)) = HAL_OK)
    /\ Forall (arrived hal s) evs
    /\ run evs boot
       = (Machine L167 (ram s) true true true true 0 0 0 0 0 [] 0, log s)
    /\ (tim2 s = true -> tim3 s = true ->
        run evs boot = (enter s, log s)).
Proof.
  intros Hall.
  assert (forall c, c ∈ tested -> snd (hal c) = HAL_OK) as Hok
    by (apply Forall_forall; exact Hall).
  unfold_init.
  do 9 test_passes Hok.
  eexists.
  match goal with
  | |- exists evs, (_, ?s) = _ /\ _ =>
      assert (reach hal s) as (evs & Harr & Hrun)
        by (repeat apply reach_after; apply reach_reset);
      exists evs
  end.
  split; [reflexivity |].
  split; [rewrite !after_made; reflexivity |].
  split; [rewrite !after_primask; reflexivity |].
  split; [rewrite !after_exti4; reflexivity |].
  split; [rewrite !after_exti9_5; reflexivity |].
  split.
  { transitivity
      (bool_decide (snd (hal (HAL_TIM_Base_Start htim2)) = HAL_OK) || false
       = true);
      [rewrite !after_tim2; reflexivity |].
    rewrite orb_false_r. apply bool_decide_eq_true. }
  split.
  { transitivity
      (bool_decide (snd (hal (HAL_TIM_Base_Start htim3)) = HAL_OK) || false
       = true);
      [rewrite !after_tim3; reflexivity |].
    rewrite orb_false_r. apply bool_decide_eq_true. }
  split; [exact Harr |].
  split; [exact Hrun |].
  intros H2 H3. rewrite Hrun. unfold enter.
  rewrite H2, H3, !after_exti4, !after_exti9_5.
  reflexivity.
Qed.

Ltac test_fails hal c k Hbad :=
  eexists; exists (take k all_calls), c, (drop (S k) all_calls);
  split; [reflexivity |];
  split; [unfold tested; repeat constructor |];
  split; [exact Hbad |];
  split; [reflexivity |];
  split; [rewrite !after_made; reflexivity |];
  split; [rewrite !after_primask; reflexivity |];
  split; [rewrite !after_tim2; reflexivity |];
  split; [rewrite !after_tim3; reflexivity |];
  intros xs; induction xs as [| ? ? ?]; cbn [foldl];
    [reflexivity
    | rewrite serve_masked by (rewrite !after_primask; reflexivity);
      assumption].

Ltac test_call hal c k :=
  let Hbad := fresh "Hbad" in
  let Hgood := fresh "Hgood" in
  destruct (decide (snd (hal c) <> HAL_OK)) as [Hbad | Hgood];
  cbv beta iota;
  [test_fails hal c k Hbad | apply dec_stable in Hgood].

(** X14. When one of the nine tested calls does not return [HAL_OK],
    the start-up makes the calls up to the first such call, then
    [__disable_irq] (line 401), and never returns: the loop is not
    entered, the counters are never started, and with interrupts masked
    no edge that arrives later is served, so nothing more is stored and
    what the handler stored before is never sent. *)
Theorem startup_failure (hal : hal_env) :
  Exists (fun c => snd (hal c) <> HAL_OK) tested ->
  exists s pre c post,
    all_calls = pre ++ c :: post
    /\ c ∈ tested
    /\ snd (hal c) <> HAL_OK
    /\ main_init hal reset = (None, s)
    /\ made s = pre ++ [c; __disable_irq]
    /\ primask s = true
    /\ tim2 s = false /\ tim3 s = false
    /\ forall xs, foldl serve s xs = s.
Proof.
  intros Hex. unfold_init.
  test_call hal HAL_RCC_OscConfig 1%nat.
  test_call hal HAL_RCC_ClockConfig 2%nat.
  test_call hal HAL_RCCEx_PeriphCLKConfig 3%nat.
  test_call hal (HAL_TIM_Base_Init htim2 13 65535) 12%nat.
  test_call hal (HAL_TIM_ConfigClockSource htim2) 13%nat.
  test_call hal (HAL_TIMEx_MasterConfigSynchronization htim2) 14%nat.
  test_call hal (HAL_TIM_Base_Init htim3 0 65535) 16%nat.
  test_call hal (HAL_TIM_SlaveConfigSynchro htim3) 17%nat.
  test_call hal (HAL_TIMEx_MasterConfigSynchronization htim3) 18%nat.
  exfalso. apply Exists_exists in Hex as (c & Hin & Hbad).
  unfold tested in Hin.
  repeat (apply elem_of_cons in Hin as [-> | Hin]; [contradiction |]).
  apply elem_of_nil in Hin. exact Hin.
Qed.

End StartupFacts.

Lemma startup_enters_loop_witness :
  exists s,
    main_init (H := stm32f1_pins)
      (failing (HAL_TIM_Base_Start htim2)) reset = (Some tt, s)
    /\ made s = all_calls
    /\ exti4 s = true /\ exti9_5 s = true
    /\ tim2 s <> true /\ tim3 s = true.
Proof.
  destruct (startup_enters_loop (H := stm32f1_pins)
              (failing (HAL_TIM_Base_Start htim2)))
    as (s & evs & E & Hmade & _ & H4 & H95 & H2 & H3 & _).
  - unfold tested. repeat (constructor; [reflexivity |]). constructor.
  - exists s. split; [exact E |]. split; [exact Hmade |].
    split; [exact H4 |]. split; [exact H95 |].
    split.
    + intros Hs. apply H2 in Hs. revert Hs. vm_compute. discriminate.
    + apply H3. reflexivity.
Defined.

Lemma startup_failure_witness :
  exists s pre c post,
    all_calls = pre ++ c :: post
    /\ c ∈ tested
    /\ snd (failing (HAL_TIM_SlaveConfigSynchro htim3) c) <> HAL_OK
    /\ main_init (H := stm32f1_pins)
         (failing (HAL_TIM_SlaveConfigSynchro htim3)) reset = (None, s)
    /\ made s = pre ++ [c; __disable_irq]
    /\ primask s = true
    /\ tim2 s = false /\ tim3 s = false
    /\ forall xs, foldl (serve (H := stm32f1_pins)) s xs = s.
Proof.
  apply (startup_failure (H := stm32f1_pins)
           (failing (HAL_TIM_SlaveConfigSynchro htim3))).
  unfold tested. do 7 apply Exists_cons_tl. apply Exists_cons_hd.
  vm_compute. discriminate.
Defined.

(** ** The four bytes of line 187-190 *)

(** X15. Lines 187-190 write, into a packet with room for them and for
    [i] below [2^29], the four bytes of the event at offset [4 * i],
    least significant first, and nothing else: the length and every other byte are kept, and the four
    bytes read back give the event. *)
Theorem store_event_layout (i event : Z) (usb_packet : list Z) :
  0 <= i < 2 ^ 29 -> 0 <= event < 2 ^ 32 ->
  4 * i + 4 <= Z.of_nat (length usb_packet) ->
  let p := store_event i event usb_packet in
  length p = length usb_packet
  /\ (forall k : nat,
        (Z.of_nat k < 4 * i \/ 4 * i + 4 <= Z.of_nat k) ->
        p !! k = usb_packet !! k)
  /\ take 4 (drop (Z.to_nat (4 * i)) p) = le_bytes event
  /\ (forall b0 b1 b2 b3,
        take 4 (drop (Z.to_nat (4 * i)) p) = [b0; b1; b2; b3] ->
        event = b0 + 2 ^ 8 * b1 + 2 ^ 16 * b2 + 2 ^ 24 * b3).
Proof.
  intros Hi Hev Hlen p.
  set (n := Z.to_nat (4 * i)).
  assert (length (take n usb_packet) = n) as Hfront
    by (rewrite length_take; lia).
  assert (4 <= length (drop n usb_packet))%nat as Hrest
    by (rewrite length_drop; lia).
  assert (p = take n usb_packet ++ le_bytes event
                ++ drop 4 (drop n usb_packet)) as Hp.
  { subst p. rewrite <- (take_drop n usb_packet) at 1.
    apply store_event_app; [lia | lia | exact Hrest]. }
  assert (take 4 (drop n p) = le_bytes event) as Htake.
  { rewrite Hp, drop_app_length' by (symmetry; exact Hfront).
    rewrite take_app_length' by (symmetry; apply le_bytes_length).
    reflexivity. }
  split; [| split; [| split]].
  - rewrite Hp, !length_app, le_bytes_length, !length_drop, length_take. lia.
  - intros k Hk. rewrite Hp.
    destruct Hk as [Hk | Hk].
    + rewrite lookup_app_l by lia. apply lookup_take_lt. lia.
    + rewrite lookup_app_r by lia.
      rewrite lookup_app_r by (rewrite le_bytes_length; lia).
      rewrite le_bytes_length, Hfront, !lookup_drop.
      f_equal. lia.
  - exact Htake.
  - intros b0 b1 b2 b3 E. rewrite Htake in E.
    pose proof (le_bytes_value event Hev) as V. rewrite E in V. exact V.
Qed.

Lemma store_event_layout_witness :
  store_event 1 0x80C0FFEE [1; 2; 3; 4; 5; 6; 7; 8; 9; 10; 11; 12]
  !! 2%nat = Some 3
  /\ take 4 (drop 4 (store_event 1 0x80C0FFEE
                       [1; 2; 3; 4; 5; 6; 7; 8; 9; 10; 11; 12]))
     = le_bytes 0x80C0FFEE.
Proof.
  destruct (store_event_layout 1 0x80C0FFEE
              [1; 2; 3; 4; 5; 6; 7; 8; 9; 10; 11; 12])
    as (_ & Hkeep & Hbytes & _); [lia | lia | cbn; lia |].
  split; [| exact Hbytes].
  rewrite (Hkeep 2%nat) by lia. reflexivity.
Defined.

(** ** Where the words of the ring come from *)

Section Provenance.
Context `{PinMasks}.

Lemma main_step_no_push e m m' a :
  main_step e m = (m', [a]) -> ~ is_push a.
Proof.
  intros E Hp. apply main_step_stores in E as [_ E].
  destruct a; try destruct Hp; discriminate.
Qed.

Lemma push_origin evs m tr t1 a t2 :
  run evs boot = (m, tr) ->
  tr = t1 ++ a :: t2 ->
  is_push a ->
  exists evs1 irq pin h ps evs2 m1 ch g,
    evs = evs1 ++ Irq irq pin h ps :: evs2
    /\ run evs1 boot = (m1, t1)
    /\ irq_enabled irq m1 = true
    /\ channel_of_pin pin = Some ch
    /\ Live m1 t1
    /\ push (event_word (edge_of ps) ch (get_32bit_timer h)) (mem m1)
       = (g, [a]).
Proof.
  intros Hrun Htr Ha.
  destruct (run_split _ _ _ _ _ _ _ Hrun Htr)
    as (evs1 & ev & evs2 & m1 & m2 & Hevs & R1 & S & _).
  destruct ev as [irq pin h ps | e];
    [| exfalso; exact (main_step_no_push _ _ _ _ S Ha)].
  cbn [step] in S.
  destruct (irq_enabled irq m1) eqn:Hen; [| discriminate].
  unfold HAL_GPIO_EXTI_Callback in S.
  destruct (channel_of_pin pin) as [ch |] eqn:Hch; [| discriminate].
  destruct (push _ (mem m1)) as [g tr'] eqn:P.
  injection S as _ ->.
  exists evs1, irq, pin, h, ps, evs2, m1, ch, g.
  split; [exact Hevs |]. split; [exact R1 |]. split; [exact Hen |].
  split; [exact Hch |]. split; [| exact P].
  destruct (inv_phase _ _ (reachable_Inv _ _ _ R1)) as [HL | HD];
    [exact HL |].
  exfalso. pose proof (dead_exti4 _ _ HD). pose proof (dead_exti9_5 _ _ HD).
  destruct irq; cbn in Hen; congruence.
Qed.

(** X16. An event is dropped only when the ring is full: at a drop the
    stored events outnumber the consumed ones by exactly [MAX_EVENTS], and
    at a store by less. *)
Theorem drop_only_when_full (evs : list event_t) (m : machine)
    (tr t1 t2 : list action) (w : Z) :
  run evs boot = (m, tr) ->
  (tr = t1 ++ Dropped w :: t2 ->
   length (stored t1) = (length (popped t1) + Z.to_nat MAX_EVENTS)%nat)
  /\ (tr = t1 ++ Stored w :: t2 ->
      (length (stored t1) < length (popped t1) + Z.to_nat MAX_EVENTS)%nat).
Proof.
  intros Hrun. split; intros Htr.
  - destruct (push_origin _ _ _ _ _ _ Hrun Htr I)
      as (evs1 & irq & pin & h & ps & evs2 & m1 & ch & g
          & _ & _ & _ & _ & HL & P).
    pose proof (live_ring _ _ HL) as Hwf.
    pose proof (wf_occupancy _ Hwf) as Hocc.
    destruct (decide (occupancy (mem m1) < MAX_EVENTS)) as [Hlt | Hge].
    + destruct (push_room _ (event_word (edge_of ps) ch (get_32bit_timer h))
                  Hwf Hlt) as (g' & E & _).
      rewrite E in P. discriminate.
    + rewrite <- (live_fifo _ _ HL), length_app, pending_length. lia.
  - destruct (push_origin _ _ _ _ _ _ Hrun Htr I)
      as (evs1 & irq & pin & h & ps & evs2 & m1 & ch & g
          & _ & _ & _ & _ & HL & P).
    pose proof (live_ring _ _ HL) as Hwf.
    pose proof (wf_occupancy _ Hwf) as Hocc.
    pose proof (occupancy_range (mem m1)) as Hor.
    destruct (decide (occupancy (mem m1) < MAX_EVENTS)) as [Hlt | Hge].
    + rewrite <- (live_fifo _ _ HL), length_app, pending_length. lia.
    + rewrite push_full in P by (assumption || lia). discriminate.
Qed.

(** X17. Every word in the ring comes from an edge: a store in the trace
    of an execution is the work of one interrupt of the execution, taken
    on an enabled line for one of the four channel pins, and the word
    stored has the level read in bit 31, the channel of the pin in bits
    30-29 and below them the tick read by the handler modulo [2^29]. *)
Theorem stored_words_are_edges (evs : list event_t) (m : machine)
    (tr t1 t2 : list action) (w : Z) :
  run evs boot = (m, tr) ->
  tr = t1 ++ Stored w :: t2 ->
  exists evs1 irq pin h ps evs2 ch,
    evs = evs1 ++ Irq irq pin h ps :: evs2
    /\ snd (run evs1 boot) = t1
    /\ irq_enabled irq (fst (run evs1 boot)) = true
    /\ channel_of_pin pin = Some ch
    /\ w = (edge_of ps * 4 + ch) * 2 ^ 29 + get_32bit_timer h mod 2 ^ 29.
Proof.
  intros Hrun Htr.
  destruct (push_origin _ _ _ _ _ _ Hrun Htr I)
    as (evs1 & irq & pin & h & ps & evs2 & m1 & ch & g
        & Hevs & R1 & Hen & Hch & _ & P).
  exists evs1, irq, pin, h, ps, evs2, ch.
  rewrite R1. cbn [fst snd].
  repeat (split; [assumption || reflexivity |]).
  rewrite <- event_word_eq
    by (apply edge_of_range || exact (channel_of_pin_range _ _ Hch)).
  unfold push in P. destruct (_ <=? _); inversion P. reflexivity.
Qed.

End Provenance.

Lemma drop_only_when_full_witness :
  length (stored (take 1024 (snd (run (H := stm32f1_pins) Worked.flood boot))))
  = (length (popped (take 1024
                       (snd (run (H := stm32f1_pins) Worked.flood boot))))
     + Z.to_nat MAX_EVENTS)%nat.
Proof.
  destruct (drop_only_when_full (H := stm32f1_pins) Worked.flood _ _
              (take 1024 (snd (run (H := stm32f1_pins) Worked.flood boot)))
              (drop 1025 (snd (run (H := stm32f1_pins) Worked.flood boot)))
              (0x80000000 + 1024)
              (surjective_pairing _)) as [Hdrop _].
  apply Hdrop. vm_compute. reflexivity.
Defined.

Lemma stored_words_are_edges_witness :
  exists evs1 irq pin h ps evs2 ch,
    Sample.capture = evs1 ++ Irq irq pin h ps :: evs2
    /\ snd (run (H := stm32f1_pins) evs1 boot) = [Stored 0x800003E8]
    /\ irq_enabled irq (fst (run (H := stm32f1_pins) evs1 boot)) = true
    /\ channel_of_pin (H := stm32f1_pins) pin = Some ch
    /\ 0x200007D0
       = (edge_of ps * 4 + ch) * 2 ^ 29 + get_32bit_timer h mod 2 ^ 29.
Proof.
  apply (stored_words_are_edges (H := stm32f1_pins) Sample.capture
           (fst (Sample.run Sample.capture boot))
           (snd (Sample.run Sample.capture boot))
           [Stored 0x800003E8]
           (drop 2 (snd (Sample.run Sample.capture boot)))
           0x200007D0).
  - exact (surjective_pairing _).
  - vm_compute. reflexivity.
Defined.
